(** * undou: a shallow embedding of the mutable-draft / patch-tracking engine

    The engine of [src/unnamed/part_002] ([undou], [patchState], [forkState])
    is modelled over the parts of immer it calls: manual drafts
    ([createDraft], the draft get/set/delete traps, [finishDraft]) and
    [produce].  immer's structural diff and structural apply are kept
    abstract behind the [PatchPrimitive] interface, as the engine only
    forwards them.

    JavaScript identities (immer drafts, undou wrappers, engines) are indices
    into heaps of the world; the closure variables of one [undou] call are one
    [engine] record. *)

From Stdlib Require Import String Ascii ZArith DecimalString.
From stdpp Require Import base list.

Open Scope string_scope.
Set Warnings "-register-all".

(* ------------------------------------------------------------------ *)
(** ** Plain values, keys and patches *)

Module Json.

Inductive key :=
  | KStr (s : string)
  | KIdx (i : nat).

(** Snapshot values: scalars, ordered sequences and string-keyed mappings. *)
Inductive value :=
  | VUndef
  | VNull
  | VBool (b : bool)
  | VNum (n : Z)
  | VStr (s : string)
  | VArr (xs : list value)
  | VObj (kvs : list (string * value)).

Definition key_eqb (a b : key) : bool :=
  match a, b with
  | KStr x, KStr y => String.eqb x y
  | KIdx i, KIdx j => Nat.eqb i j
  | _, _ => false
  end.

Fixpoint value_eqb (a b : value) : bool :=
  match a, b with
  | VUndef, VUndef => true
  | VNull, VNull => true
  | VBool x, VBool y => Bool.eqb x y
  | VNum x, VNum y => Z.eqb x y
  | VStr x, VStr y => String.eqb x y
  | VArr xs, VArr ys =>
      (fix go (xs ys : list value) : bool :=
         match xs, ys with
         | [], [] => true
         | x :: xs', y :: ys' => value_eqb x y && go xs' ys'
         | _, _ => false
         end) xs ys
  | VObj xs, VObj ys =>
      (fix go (xs ys : list (string * value)) : bool :=
         match xs, ys with
         | [], [] => true
         | (kx, x) :: xs', (ky, y) :: ys' =>
             String.eqb kx ky && value_eqb x y && go xs' ys'
         | _, _ => false
         end) xs ys
  | _, _ => false
  end.

(** [isObject]: [typeof value === 'object' && value !== null]. *)
Definition isObject (v : value) : bool :=
  match v with
  | VArr _ | VObj _ => true
  | _ => false
  end.

(** JavaScript truthiness of a plain value. *)
Definition truthy (v : value) : bool :=
  match v with
  | VUndef | VNull => false
  | VBool b => b
  | VNum n => negb (Z.eqb n 0)
  | VStr s => negb (String.eqb s "")
  | VArr _ | VObj _ => true
  end.

Fixpoint assoc_get (k : string) (kvs : list (string * value)) : option value :=
  match kvs with
  | [] => None
  | (k', v) :: r => if String.eqb k k' then Some v else assoc_get k r
  end.

Fixpoint assoc_set (k : string) (v : value) (kvs : list (string * value))
  : list (string * value) :=
  match kvs with
  | [] => [(k, v)]
  | (k', v') :: r =>
      if String.eqb k k' then (k, v) :: r else (k', v') :: assoc_set k v r
  end.

Fixpoint assoc_del (k : string) (kvs : list (string * value))
  : list (string * value) :=
  match kvs with
  | [] => []
  | (k', v') :: r => if String.eqb k k' then r else (k', v') :: assoc_del k r
  end.

(** Index assignment on a sequence; past the end the sequence is extended
    with holes (read back as [undefined]). *)
Fixpoint arr_set (i : nat) (v : value) (xs : list value) : list value :=
  match i, xs with
  | 0, [] => [v]
  | 0, _ :: r => v :: r
  | S i', [] => VUndef :: arr_set i' v []
  | S i', x :: r => x :: arr_set i' v r
  end.

(** [xs.length = n]: truncate, or extend with holes. *)
Definition arr_resize (n : nat) (xs : list value) : list value :=
  app (firstn n xs) (repeat VUndef (n - length xs)).

(** [Reflect.get] on a plain container; [None] is an absent property.  A
    sequence also has its [length]. *)
Definition vget (v : value) (k : key) : option value :=
  match v, k with
  | VObj kvs, KStr s => assoc_get s kvs
  | VArr xs, KIdx i => nth_error xs i
  | VArr xs, KStr s =>
      if String.eqb s "length" then Some (VNum (Z.of_nat (length xs))) else None
  | _, _ => None
  end.

(** Property assignment on a plain container: string keys of mappings,
    index keys and [length] of sequences.  Named (non-index) properties of
    a sequence are not modelled. *)
Definition vset (v : value) (k : key) (x : value) : value :=
  match v, k with
  | VObj kvs, KStr s => VObj (assoc_set s x kvs)
  | VArr xs, KIdx i => VArr (arr_set i x xs)
  | VArr xs, KStr s =>
      match x with
      | VNum n =>
          if String.eqb s "length" && Z.leb 0 n then VArr (arr_resize (Z.to_nat n) xs) else v
      | _ => v
      end
  | _, _ => v
  end.

(** [delete v[k]]; deleting an index of a sequence leaves a hole. *)
Definition vdel (v : value) (k : key) : value :=
  match v, k with
  | VObj kvs, KStr s => VObj (assoc_del s kvs)
  | VArr xs, KIdx i => if Nat.ltb i (length xs) then VArr (arr_set i VUndef xs) else v
  | _, _ => v
  end.

(** [Reflect.ownKeys] of a plain container: the keys of a mapping in
    insertion order (integer-like string keys, which JavaScript lists
    first, are not told apart); the indices of a sequence, then [length]. *)
Definition vkeys (v : value) : list key :=
  match v with
  | VObj kvs => map (fun kv => KStr (fst kv)) kvs
  | VArr xs => app (imap (fun i _ => KIdx i) xs) [KStr "length"]
  | _ => []
  end.

(** [isNaN(parseInt(s))]: after leading white space and one sign, [s]
    starts with no decimal digit, or with [0x] and no hexadecimal digit.
    White space is ASCII white space. *)
Definition is_ws (c : ascii) : bool :=
  match nat_of_ascii c with
  | 9 | 10 | 11 | 12 | 13 | 32 => true
  | _ => false
  end.

Definition is_digit (c : ascii) : bool :=
  Nat.leb 48 (nat_of_ascii c) && Nat.leb (nat_of_ascii c) 57.

Definition is_hex (c : ascii) : bool :=
  let n := nat_of_ascii c in
  is_digit c || (Nat.leb 65 n && Nat.leb n 70) || (Nat.leb 97 n && Nat.leb n 102).

Fixpoint skip_ws (s : string) : string :=
  match s with
  | String c r => if is_ws c then skip_ws r else s
  | EmptyString => s
  end.

Definition parseInt_nan (s : string) : bool :=
  let s1 := skip_ws s in
  let s2 := match s1 with
            | String c r => if Nat.eqb (nat_of_ascii c) 43 || Nat.eqb (nat_of_ascii c) 45
                            then r else s1
            | EmptyString => s1
            end in
  match s2 with
  | String c (String x r) =>
      if Nat.eqb (nat_of_ascii c) 48 && (Nat.eqb (nat_of_ascii x) 120 || Nat.eqb (nat_of_ascii x) 88)
      then match r with String h _ => negb (is_hex h) | EmptyString => true end
      else negb (is_digit c)
  | String c EmptyString => negb (is_digit c)
  | EmptyString => true
  end.

Inductive patch_op := OpAdd | OpReplace | OpRemove.

(** immer's [Patch]: [{ op, path, value? }]. *)
Record patch := mkPatch {
  op : patch_op;
  path : list key;
  pvalue : option value
}.

End Json.

Import Json.

(* ------------------------------------------------------------------ *)
(** ** immer drafts *)

Module Immer.

(** A JavaScript value as the engine handles it: an immer draft (by
    identity) or a plain value. *)
Inductive jsval :=
  | JDraft (d : nat)
  | JPlain (v : value).

(** One entry of a draft's [copy_]: a child draft created by a read of an
    original property, an assigned value, or a deletion. *)
Inductive dslot :=
  | SChild (d : nat)
  | SSet (x : jsval)
  | SDel.

(** immer's draft state: [base_], the entries recorded in [copy_]
    (newest first), the root draft of its scope, whether the proxy has been
    revoked, and whether immer's own Proxy target is still extensible. *)
Record dnode := mkDnode {
  dn_base : value;
  dn_copy : list (key * dslot);
  dn_scope : nat;
  dn_revoked : bool;
  dn_extensible : bool
}.

Fixpoint slot_lookup (k : key) (cs : list (key * dslot)) : option dslot :=
  match cs with
  | [] => None
  | (k', s) :: r => if key_eqb k k' then Some s else slot_lookup k r
  end.

Fixpoint slot_replace (k : key) (s : dslot) (cs : list (key * dslot)) : list (key * dslot) :=
  match cs with
  | [] => []
  | (k', s') :: r => if key_eqb k k' then (k', s) :: r else (k', s') :: slot_replace k s r
  end.

(** Recording entry [k]: a property the copy still has keeps its place; a
    new or a deleted one is added after all others, as JavaScript orders
    the keys of [copy_]. *)
Definition slot_set (k : key) (s : dslot) (cs : list (key * dslot)) : list (key * dslot) :=
  match slot_lookup k cs with
  | None | Some SDel => (k, s) :: cs
  | Some _ => slot_replace k s cs
  end.

Definition draftable (v : value) : bool := isObject v.

(** The current value of a draft (what [finishDraft] finalizes to): the
    base with every copied entry applied, oldest first. *)
Fixpoint materialize (fuel : nat) (ds : list dnode) (d : nat) : option value :=
  match fuel with
  | 0 => None
  | S f =>
      match ds !! d with
      | None => None
      | Some n =>
          (fix go (cs : list (key * dslot)) : option value :=
             match cs with
             | [] => Some (dn_base n)
             | (k, s) :: cs' =>
                 match go cs' with
                 | None => None
                 | Some acc =>
                     match s with
                     | SChild c | SSet (JDraft c) =>
                         match materialize f ds c with
                         | Some v => Some (vset acc k v)
                         | None => None
                         end
                     | SSet (JPlain v) => Some (vset acc k v)
                     | SDel => Some (vdel acc k)
                     end
                 end
             end) (dn_copy n)
      end
  end.

(** The keys and the length of a draft's current value, its child drafts
    left unexpanded: immer's [latest(state)] as far as its own properties
    go. *)
Definition shallow (n : dnode) : value :=
  fold_right (fun ks acc =>
                match ks.2 with
                | SDel => vdel acc ks.1
                | SSet (JPlain v) => vset acc ks.1 v
                | SChild _ | SSet (JDraft _) => vset acc ks.1 VNull
                end) (dn_base n) (dn_copy n).

Definition latest_length (n : dnode) : nat :=
  match shallow n with
  | VArr xs => length xs
  | _ => 0
  end.

(** [prop === "length"] on an array draft. *)
Definition is_array_length (n : dnode) (k : key) : bool :=
  match dn_base n, k with
  | VArr _, KStr s => String.eqb s "length"
  | _, _ => false
  end.

(** [Reflect.ownKeys] of immer's own Proxy target: the one-element array
    [[state]] of an array draft; for an object draft, the draft-state
    record, whose internal field names are not modelled (no draft's keys
    are taken to coincide with them). *)
Definition immer_target_keys (n : dnode) : option (list key) :=
  match dn_base n with
  | VArr _ => Some [KIdx 0; KStr "length"]
  | _ => None
  end.

Definition key_in (k : key) (ks : list key) : bool := existsb (key_eqb k) ks.

Fixpoint keys_eqb (ks ks' : list key) : bool :=
  match ks, ks' with
  | [], [] => true
  | k :: r, k' :: r' => key_eqb k k' && keys_eqb r r'
  | _, _ => false
  end.

(** The new length of [arr.length = x]: [ToNumber(x)] when it is an
    integer in [[0, 2^32)], [None] when JavaScript throws a RangeError.
    Strings are converted when they are empty or plain decimal digits;
    other strings, drafts and containers count as invalid lengths. *)
Definition array_length (x : jsval) : option nat :=
  let chk (z : Z) := if Z.leb 0 z && Z.ltb z 4294967296 then Some (Z.to_nat z) else None in
  match x with
  | JPlain (VNum z) => chk z
  | JPlain (VBool b) => Some (if b then 1 else 0)
  | JPlain VNull => Some 0
  | JPlain (VStr s) =>
      match NilEmpty.uint_of_string s with
      | Some u => chk (Z.of_uint u)
      | None => None
      end
  | _ => None
  end.

Definition revoke_if (root : nat) (n : dnode) : dnode :=
  if Nat.eqb (dn_scope n) root
  then mkDnode (dn_base n) (dn_copy n) (dn_scope n) true (dn_extensible n)
  else n.

Definition with_copy (cs : list (key * dslot)) (n : dnode) : dnode :=
  mkDnode (dn_base n) cs (dn_scope n) (dn_revoked n) (dn_extensible n).

Definition with_extensible (b : bool) (n : dnode) : dnode :=
  mkDnode (dn_base n) (dn_copy n) (dn_scope n) (dn_revoked n) b.

End Immer.

Import Immer.

(** immer's patch generation and structural apply ([finishDraft] with a
    listener, [applyPatches]).  immer derives the patches from the draft
    tree itself (which entries were assigned, and whether each final value
    is the very object it replaces), so [generate_patches] is given the
    draft heap and the root draft; the engine only forwards what they
    return. *)
Class PatchPrimitive := {
  generate_patches : list dnode -> nat -> list patch * list patch;
  apply_patches : value -> list patch -> option value
}.

(* ------------------------------------------------------------------ *)
(** ** The engine ([undou]) *)

Module Undou.

Inductive scheduler_kind :=
  | DefaultScheduler   (** the deferred micro-batch installed when none is given *)
  | SyncScheduler.     (** a caller-supplied [commit => commit()] *)

(** A registered patch listener: [throws_on n] says whether its [n]-th
    invocation (counting from 0) throws. *)
Record listener := mkListener { throws_on : nat -> bool }.

(** [proxiedValue]: [INVALID], the root wrapper, or the scalar source. *)
Inductive proxied :=
  | PInvalid
  | PProxy (p : nat)
  | PPlain (v : value).

(** The closure variables of one [undou] call. *)
Record engine := mkEngine {
  source : value;
  proxiedValue : proxied;
  draft : option nat;
  draftCacheKey : nat;
  pendingPromise : bool;
  isDirty : bool;
  patchListener : option listener;
  scheduler : scheduler_kind;
  calls : nat
}.

(** The [subDraft] closure a wrapper was created with: the root one
    (with its [catchedDraft]) or the nested one (with its [ProxyCatch.enable],
    [key] and [value]). *)
Inductive access :=
  | RootAccess (catchedDraft : nat)
  | ChildAccess (parent : nat) (prop : key) (enable : bool) (ckey : nat) (cvalue : jsval).

(** A wrapper made by [createProxy]: its engine, its [ctx] (the per-key
    cache of child wrappers) and its [subDraft]. *)
Record proxy := mkProxy {
  px_engine : nat;
  px_ctx : list (key * nat);
  px_access : access
}.

(** What a read through the engine returns: a wrapper or a plain value. *)
Inductive hval :=
  | HProxy (p : nat)
  | HPlain (v : value).

Record world := mkWorld {
  engines : list engine;
  drafts : list dnode;
  proxies : list proxy;
  microtasks : list nat;
  log : list (nat * list patch * list patch)
}.

(** The exceptions: thrown by the listener, JavaScript's TypeError and
    RangeError, immer's [die(...)] (a plain Error), and a failed
    [applyPatches]. *)
Inductive exn := ListenerError | TypeError | RangeError | ImmerError | ApplyError.

Inductive outcome (A : Type) :=
  | Ok (a : A)
  | Err (x : exn).
Arguments Ok {A} a.
Arguments Err {A} x.

(** State and exception monad over the world. *)
Definition M (A : Type) : Type := world -> outcome A * world.

Definition ret {A} (a : A) : M A := fun w => (Ok a, w).

Definition throw {A} (x : exn) : M A := fun w => (Err x, w).

Definition bind {A B} (m : M A) (k : A -> M B) : M B :=
  fun w =>
    match m w with
    | (Ok a, w') => k a w'
    | (Err x, w') => (Err x, w')
    end.

Notation "'let*' x ':=' m 'in' k" := (bind m (fun x => k))
  (at level 200, x name, m at level 100, k at level 200).

(** *** Field updates *)

Definition with_dirty (b : bool) (en : engine) : engine :=
  mkEngine (source en) (proxiedValue en) (draft en) (draftCacheKey en)
    (pendingPromise en) b (patchListener en) (scheduler en) (calls en).

Definition with_pending (b : bool) (en : engine) : engine :=
  mkEngine (source en) (proxiedValue en) (draft en) (draftCacheKey en)
    b (isDirty en) (patchListener en) (scheduler en) (calls en).

Definition with_proxied (pv : proxied) (en : engine) : engine :=
  mkEngine (source en) pv (draft en) (draftCacheKey en)
    (pendingPromise en) (isDirty en) (patchListener en) (scheduler en) (calls en).

Definition with_draft (d : option nat) (en : engine) : engine :=
  mkEngine (source en) (proxiedValue en) d (draftCacheKey en)
    (pendingPromise en) (isDirty en) (patchListener en) (scheduler en) (calls en).

Definition with_calls (n : nat) (en : engine) : engine :=
  mkEngine (source en) (proxiedValue en) (draft en) (draftCacheKey en)
    (pendingPromise en) (isDirty en) (patchListener en) (scheduler en) n.

(** The assignments of [setSource]: [source = value; draft = undefined;
    clearDraftCache()]. *)
Definition with_source (v : value) (en : engine) : engine :=
  mkEngine v (proxiedValue en) None (S (draftCacheKey en))
    (pendingPromise en) (isDirty en) (patchListener en) (scheduler en) (calls en).

(** [clearDraftCache]: [draftCacheKey += 1]. *)
Definition bump_key (en : engine) : engine :=
  mkEngine (source en) (proxiedValue en) (draft en) (S (draftCacheKey en))
    (pendingPromise en) (isDirty en) (patchListener en) (scheduler en) (calls en).

Definition with_ctx (ctx : list (key * nat)) (px : proxy) : proxy :=
  mkProxy (px_engine px) ctx (px_access px).

Definition with_access (a : access) (px : proxy) : proxy :=
  mkProxy (px_engine px) (px_ctx px) a.

Definition set_catched (d : nat) (a : access) : access :=
  match a with
  | RootAccess _ => RootAccess d
  | ChildAccess _ _ _ _ _ => a
  end.

Definition set_ckey (n : nat) (a : access) : access :=
  match a with
  | ChildAccess pa k en _ v => ChildAccess pa k en n v
  | RootAccess _ => a
  end.

Definition set_cvalue (v : jsval) (a : access) : access :=
  match a with
  | ChildAccess pa k en n _ => ChildAccess pa k en n v
  | RootAccess _ => a
  end.

(** [proxyCatch.enable = false]. *)
Definition disable (a : access) : access :=
  match a with
  | ChildAccess pa k _ n v => ChildAccess pa k false n v
  | RootAccess _ => a
  end.

Fixpoint ctx_lookup (k : key) (ctx : list (key * nat)) : option nat :=
  match ctx with
  | [] => None
  | (k', c) :: r => if key_eqb k k' then Some c else ctx_lookup k r
  end.

Fixpoint ctx_remove (k : key) (ctx : list (key * nat)) : list (key * nat) :=
  match ctx with
  | [] => []
  | (k', c) :: r => if key_eqb k k' then ctx_remove k r else (k', c) :: ctx_remove k r
  end.

(** *** Heap access *)

Definition get_engine (e : nat) : M engine :=
  fun w => match engines w !! e with
           | Some en => (Ok en, w)
           | None => (Err TypeError, w)
           end.

Definition update_engine (e : nat) (f : engine -> engine) : M unit :=
  fun w => (Ok tt, mkWorld (alter f e (engines w)) (drafts w) (proxies w)
                           (microtasks w) (log w)).

Definition get_proxy (p : nat) : M proxy :=
  fun w => match proxies w !! p with
           | Some px => (Ok px, w)
           | None => (Err TypeError, w)
           end.

Definition update_proxy (p : nat) (f : proxy -> proxy) : M unit :=
  fun w => (Ok tt, mkWorld (engines w) (drafts w) (alter f p (proxies w))
                           (microtasks w) (log w)).

Definition alloc_proxy (px : proxy) : M nat :=
  fun w => (Ok (length (proxies w)),
            mkWorld (engines w) (drafts w) (proxies w ++ [px]) (microtasks w) (log w)).

Definition get_draft (d : nat) : M dnode :=
  fun w => match drafts w !! d with
           | Some n => (Ok n, w)
           | None => (Err TypeError, w)
           end.

Definition update_draft (d : nat) (f : dnode -> dnode) : M unit :=
  fun w => (Ok tt, mkWorld (engines w) (alter f d (drafts w)) (proxies w)
                           (microtasks w) (log w)).

Definition alloc_draft (n : dnode) : M nat :=
  fun w => (Ok (length (drafts w)),
            mkWorld (engines w) (drafts w ++ [n]) (proxies w) (microtasks w) (log w)).

(** [revokeScope]: every draft of the scope rooted at [root]. *)
Definition revoke_scope (root : nat) : M unit :=
  fun w => (Ok tt, mkWorld (engines w) (map (revoke_if root) (drafts w)) (proxies w)
                           (microtasks w) (log w)).

Definition enqueue (e : nat) : M unit :=
  fun w => (Ok tt, mkWorld (engines w) (drafts w) (proxies w) (microtasks w ++ [e]) (log w)).

Definition append_log (entry : nat * list patch * list patch) : M unit :=
  fun w => (Ok tt, mkWorld (engines w) (drafts w) (proxies w) (microtasks w) (log w ++ [entry])).

(** *** immer's draft operations *)

Section WithPatches.
Context `{PP : PatchPrimitive}.

(** [createDraft(base)]: a fresh manual draft, root of its own scope;
    immer refuses a value that cannot be drafted. *)
Definition createDraft (base : value) : M nat :=
  if draftable base
  then fun w => alloc_draft (mkDnode base [] (length (drafts w)) false true) w
  else throw TypeError.

Definition live_draft (d : nat) : M dnode :=
  let* n := get_draft d in
  if dn_revoked n then throw TypeError else ret n.

(** immer's [get] trap: an original draftable property is drafted on first
    read; an assigned value is returned as it is; an array draft's [length]
    is that of its current value. *)
Definition draft_get (d : nat) (k : key) : M jsval :=
  let* n := live_draft d in
  if is_array_length n k then ret (JPlain (VNum (Z.of_nat (latest_length n)))) else
  match slot_lookup k (dn_copy n) with
  | Some (SChild c) => ret (JDraft c)
  | Some (SSet x) => ret x
  | Some SDel => ret (JPlain VUndef)
  | None =>
      match vget (dn_base n) k with
      | Some v =>
          if draftable v then
            let* c := alloc_draft (mkDnode v [] (dn_scope n) false true) in
            let* _ := update_draft d (fun n' => with_copy (slot_set k (SChild c) (dn_copy n')) n') in
            ret (JDraft c)
          else ret (JPlain v)
      | None => ret (JPlain VUndef)
      end
  end.

Definition record (d : nat) (k : key) (s : dslot) : M unit :=
  update_draft d (fun n => with_copy (slot_set k s (dn_copy n)) n).

(** [arr.length = len] on the copy: the indices from [len] on are deleted,
    then [length] is recorded. *)
Definition set_length (len : nat) (n : dnode) : dnode :=
  with_copy (slot_set (KStr "length") (SSet (JPlain (VNum (Z.of_nat len))))
               (fold_left (fun cs i => slot_set (KIdx i) SDel cs)
                  (seq len (latest_length n - len)) (dn_copy n))) n.

(** immer's [set] trap.  On an array draft ([arrayTraps.set], development
    build) a key other than [length] that [parseInt] cannot read is
    refused with [die(14)]; assigning [length] converts the value like an
    array does (a RangeError when it is no valid length) and drops the
    entries past the new length. *)
Definition draft_set (d : nat) (k : key) (x : jsval) : M bool :=
  let* n := live_draft d in
  match dn_base n, k with
  | VArr _, KStr s =>
      if String.eqb s "length" then
        match array_length x with
        | Some len => let* _ := update_draft d (set_length len) in ret true
        | None => throw RangeError
        end
      else if parseInt_nan s then throw ImmerError
      else let* _ := record d k (SSet x) in ret true
  | _, _ => let* _ := record d k (SSet x) in ret true
  end.

(** immer's [deleteProperty] trap.  On an array draft ([arrayTraps],
    development build) a key that [parseInt] cannot read is refused with
    [die(13)]; any other is assigned [undefined] through [arrayTraps.set],
    so an index stays present. *)
Definition draft_delete (d : nat) (k : key) : M bool :=
  let* n := live_draft d in
  match dn_base n with
  | VArr _ =>
      match k with
      | KStr s => if parseInt_nan s then throw ImmerError else draft_set d k (JPlain VUndef)
      | KIdx _ => draft_set d k (JPlain VUndef)
      end
  | _ => let* _ := record d k SDel in ret true
  end.

Definition draft_has (d : nat) (k : key) : M bool :=
  let* n := live_draft d in
  match slot_lookup k (dn_copy n) with
  | Some SDel => ret false
  | Some _ => ret true
  | None => ret (if vget (dn_base n) k then true else false)
  end.

(** immer's [ownKeys] trap: [Reflect.ownKeys(latest(state))].  Once the
    draft was made non-extensible, the Proxy invariants of immer's own
    target throw unless the list is exactly that target's keys. *)
Definition draft_ownKeys (d : nat) : M (list key) :=
  let* n := live_draft d in
  let ks := vkeys (shallow n) in
  if dn_extensible n then ret ks else
  match immer_target_keys n with
  | Some tk => if keys_eqb ks tk then ret ks else throw TypeError
  | None => throw TypeError
  end.

(** immer's [getOwnPropertyDescriptor] trap, reduced to whether [k] is
    reported as an own property.  On a non-extensible draft the Proxy
    invariants throw when it reports a key immer's target lacks, or denies
    one the target has. *)
Definition draft_getOwnPropertyDescriptor (d : nat) (k : key) : M bool :=
  let* b := draft_has d k in
  let* n := live_draft d in
  if dn_extensible n then ret b else
  match immer_target_keys n with
  | Some tk => if Bool.eqb b (key_in k tk) then ret b else throw TypeError
  | None => if b then throw TypeError else ret b
  end.

(** immer's [defineProperty] and [setPrototypeOf] traps always throw:
    [die(11)] and [die(12)]. *)
Definition draft_defineProperty (d : nat) (k : key) (v : value) : M bool :=
  throw ImmerError.

Definition draft_setPrototypeOf (d : nat) : M bool :=
  throw ImmerError.

(** immer has no [preventExtensions] and [isExtensible] traps: they act on
    its own Proxy target. *)
Definition draft_preventExtensions (d : nat) : M bool :=
  let* _ := live_draft d in
  let* _ := update_draft d (with_extensible false) in
  ret true.

Definition draft_isExtensible (d : nat) : M bool :=
  let* n := live_draft d in ret (dn_extensible n).

Definition draft_getPrototypeOf (d : nat) : M unit :=
  let* _ := live_draft d in ret tt.

(** [Reflect.*] on what a [subDraft] returns.  A plain object reached
    there is a finalized (frozen) snapshot: writes to it report failure;
    [Reflect.*] on a primitive throws. *)
Definition reflect_get (x : jsval) (k : key) : M jsval :=
  match x with
  | JDraft d => draft_get d k
  | JPlain v =>
      if isObject v
      then ret (JPlain (match vget v k with Some u => u | None => VUndef end))
      else throw TypeError
  end.

Definition reflect_write (x : jsval) (m : nat -> M bool) : M bool :=
  match x with
  | JDraft d => m d
  | JPlain v => if isObject v then ret false else throw TypeError
  end.

Definition reflect_read {A} (x : jsval) (m : nat -> M A) (plain : value -> A) : M A :=
  match x with
  | JDraft d => m d
  | JPlain v => if isObject v then ret (plain v) else throw TypeError
  end.

Definition js_truthy (x : jsval) : bool :=
  match x with
  | JDraft _ => true
  | JPlain v => truthy v
  end.

(** [finishDraft(draft, listener)]: finalize, generate the patches, revoke
    the scope, call the listener, return the result. *)
Definition current_value (d : nat) : M value :=
  fun w => match materialize (S (length (drafts w))) (drafts w) d with
           | Some v => (Ok v, w)
           | None => (Err TypeError, w)
           end.

Definition replacement_patches (base result : value) : list patch * list patch :=
  ([mkPatch OpReplace [] (Some result)], [mkPatch OpReplace [] (Some base)]).

(** What a [produce] recipe returns: [undefined], immer's [nothing], or a
    value. *)
Inductive recipe_result :=
  | RUndefined
  | RNothing
  | RValue (v : value).

(** *** The engine's closures *)

(** The wrapper [undou] installs around a given listener (lines 46-53):
    empty patch pairs are dropped. *)
Definition notify (e : nat) (ps ips : list patch) : M unit :=
  let* en := get_engine e in
  match patchListener en with
  | None => ret tt
  | Some l =>
      match ps, ips with
      | [], [] => ret tt
      | _, _ =>
          let* _ := append_log (e, ps, ips) in
          let* _ := update_engine e (with_calls (S (calls en))) in
          if throws_on l (calls en) then throw ListenerError else ret tt
      end
  end.

Definition draft_patches (d : nat) : M (list patch * list patch) :=
  fun w => (Ok (generate_patches (drafts w) d), w).

Definition finishDraft (e : nat) (d : nat) : M value :=
  let* _ := live_draft d in
  let* r := current_value d in
  let* pp := draft_patches d in
  let* _ := revoke_scope d in
  let* _ := notify e pp.1 pp.2 in
  ret r.

(** [produce(base, recipe, listener)] for a recipe that does not touch its
    draft: returning [undefined] keeps the base with no patch (the draft is
    unmodified), anything else replaces it with one root patch. *)
Definition produce (e : nat) (base : value) (r : recipe_result) : M value :=
  let '(result, pp) :=
    if draftable base then
      match r with
      | RUndefined => (base, ([], []))
      | RNothing => (VUndef, replacement_patches base VUndef)
      | RValue v => (v, replacement_patches base v)
      end
    else
      let result := match r with RUndefined => base | RNothing => VUndef | RValue v => v end in
      (result, replacement_patches base result) in
  let* _ := notify e pp.1 pp.2 in
  ret result.

Definition setSource (e : nat) (v : value) : M unit :=
  update_engine e (with_source v).

Definition clearDraftCache (e : nat) : M unit :=
  update_engine e bump_key.

(** [commit] (lines 136-142). *)
Definition commit (e : nat) : M unit :=
  let* en := get_engine e in
  if negb (isDirty en) then ret tt else
  match draft en with
  | None => ret tt
  | Some d =>
      let* r := finishDraft e d in
      let* _ := setSource e r in
      let* _ := clearDraftCache e in
      update_engine e (with_dirty false)
  end.

(** [dye] (lines 144-147) with the scheduler of the engine; the default
    one (lines 58-65) schedules one deferred commit unless one is pending. *)
Definition dye (e : nat) : M unit :=
  let* _ := update_engine e (with_dirty true) in
  let* en := get_engine e in
  match scheduler en with
  | DefaultScheduler =>
      if pendingPromise en then ret tt
      else let* _ := update_engine e (with_pending true) in enqueue e
  | SyncScheduler => commit e
  end.

(** The deferred callback [() => { commit(); pendingPromise = undefined }]
    at the head of the microtask queue. *)
Definition run_microtask : M unit :=
  fun w =>
    match microtasks w with
    | [] => (Ok tt, w)
    | e :: rest =>
        (let* _ := commit e in update_engine e (with_pending false))
          (mkWorld (engines w) (drafts w) (proxies w) rest (log w))
    end.

Definition proxied_is (p : nat) (pv : proxied) : bool :=
  match pv with
  | PProxy q => Nat.eqb p q
  | _ => false
  end.

(** The [subDraft] closures of [initProxy] (lines 112-119) and of the [get]
    trap (lines 185-196).  A parent wrapper is always older than its
    children, so [S p] steps suffice for wrapper [p]. *)
Fixpoint subDraft (fuel : nat) (p : nat) : M jsval :=
  match fuel with
  | 0 => throw TypeError
  | S f =>
      let* px := get_proxy p in
      let* en := get_engine (px_engine px) in
      match px_access px with
      | RootAccess catched =>
          if proxied_is p (proxiedValue en) then
            match draft en with
            | Some d => ret (JDraft d)
            | None =>
                let* d := createDraft (source en) in
                let* _ := update_engine (px_engine px) (with_draft (Some d)) in
                let* _ := update_proxy p (fun px' => with_access (set_catched d (px_access px')) px') in
                ret (JDraft d)
            end
          else ret (JDraft catched)
      | ChildAccess parent prop enable ckey cvalue =>
          if negb enable || Nat.eqb ckey (draftCacheKey en) then ret cvalue else
          let* _ := update_proxy p (fun px' => with_access (set_ckey (draftCacheKey en) (px_access px')) px') in
          let* nd := subDraft f parent in
          if js_truthy nd then
            let* v := reflect_get nd prop in
            let* _ := update_proxy p (fun px' => with_access (set_cvalue v (px_access px')) px') in
            ret v
          else ret cvalue
      end
  end.

Definition sub_draft (p : nat) : M jsval := subDraft (S p) p.

(** [clearProxyCatch(ctx, prop)] (lines 154-160). *)
Definition clearProxyCatch (p : nat) (k : key) : M unit :=
  let* px := get_proxy p in
  match ctx_lookup k (px_ctx px) with
  | Some c =>
      let* _ := update_proxy c (fun pc => with_access (disable (px_access pc)) pc) in
      update_proxy p (fun px' => with_ctx (ctx_remove k (px_ctx px')) px')
  | None => ret tt
  end.

(** The [createProxy] traps (lines 164-263).  The write traps end with
    [dye()] of the engine [e] whose closure created the wrapper. *)
Definition proxy_get (p : nat) (k : key) : M hval :=
  let* x := sub_draft p in
  let* v := reflect_get x k in
  match v with
  | JDraft d =>
      let* px := get_proxy p in
      match ctx_lookup k (px_ctx px) with
      | Some c => ret (HProxy c)
      | None =>
          let* en := get_engine (px_engine px) in
          let* c := alloc_proxy (mkProxy (px_engine px) []
                                   (ChildAccess p k true (draftCacheKey en) (JDraft d))) in
          let* _ := update_proxy p (fun px' => with_ctx ((k, c) :: px_ctx px') px') in
          ret (HProxy c)
      end
  | JPlain u => ret (HPlain u)
  end.

Definition proxy_set (e : nat) (p : nat) (k : key) (v : hval) : M bool :=
  let* _ := clearProxyCatch p k in
  let* x := match v with
            | HProxy q => sub_draft q
            | HPlain u => ret (JPlain u)
            end in
  let* t := sub_draft p in
  let* r := reflect_write t (fun d => draft_set d k x) in
  let* _ := dye e in
  ret r.

Definition proxy_deleteProperty (e : nat) (p : nat) (k : key) : M bool :=
  let* _ := clearProxyCatch p k in
  let* t := sub_draft p in
  let* r := reflect_write t (fun d => draft_delete d k) in
  let* _ := dye e in
  ret r.

Definition proxy_has (p : nat) (k : key) : M bool :=
  let* t := sub_draft p in
  reflect_read t (fun d => draft_has d k) (fun v => if vget v k then true else false).

Definition proxy_ownKeys (p : nat) : M (list key) :=
  let* t := sub_draft p in
  reflect_read t draft_ownKeys vkeys.

(** On a frozen snapshot a present property is non-configurable and
    non-writable, which the Proxy invariants refuse to report for the
    wrapper's extensible dummy target. *)
Definition proxy_getOwnPropertyDescriptor (p : nat) (k : key) : M bool :=
  let* t := sub_draft p in
  match t with
  | JDraft d => draft_getOwnPropertyDescriptor d k
  | JPlain v =>
      if isObject v then (if vget v k then throw TypeError else ret false) else throw TypeError
  end.

Definition proxy_setPrototypeOf (e : nat) (p : nat) : M bool :=
  let* t := sub_draft p in
  let* r := reflect_write t draft_setPrototypeOf in
  let* _ := dye e in
  ret r.

(** The wrapper's dummy target stays extensible, so a trap result [false]
    breaks the Proxy invariant. *)
Definition proxy_isExtensible (p : nat) : M bool :=
  let* t := sub_draft p in
  let* r := reflect_read t draft_isExtensible (fun _ => false) in
  if r then ret true else throw TypeError.

(** [Reflect.preventExtensions] succeeds on a draft and on a frozen
    snapshot; the trap then returns [true] while its dummy target is still
    extensible, and the Proxy invariant throws after [dye()]. *)
Definition proxy_preventExtensions (e : nat) (p : nat) : M bool :=
  let* t := sub_draft p in
  let* r := match t with
            | JDraft d => draft_preventExtensions d
            | JPlain v => if isObject v then ret true else throw TypeError
            end in
  let* _ := dye e in
  if r then throw TypeError else ret r.

Definition proxy_getPrototypeOf (p : nat) : M unit :=
  let* t := sub_draft p in
  reflect_read t draft_getPrototypeOf (fun _ => tt).

Definition proxy_defineProperty (e : nat) (p : nat) (k : key) (v : value) : M bool :=
  let* _ := clearProxyCatch p k in
  let* t := sub_draft p in
  let* r := reflect_write t (fun d => draft_defineProperty d k v) in
  let* _ := dye e in
  ret r.

(** [initProxy] (lines 104-124). *)
Definition initProxy (e : nat) : M unit :=
  let* en := get_engine e in
  if isObject (source en) then
    let* d := createDraft (source en) in
    let* _ := update_engine e (with_draft (Some d)) in
    let* p := alloc_proxy (mkProxy e [] (RootAccess d)) in
    update_engine e (with_proxied (PProxy p))
  else update_engine e (with_proxied (PPlain (source en))).

(** The [value] getter of the handle (lines 86-92). *)
Definition get_value (e : nat) : M hval :=
  let* en := get_engine e in
  let* _ := match proxiedValue en with
            | PInvalid => initProxy e
            | _ => ret tt
            end in
  let* en' := get_engine e in
  match proxiedValue en' with
  | PProxy p => ret (HProxy p)
  | PPlain v => ret (HPlain v)
  | PInvalid => throw TypeError
  end.

(** The [value] setter (lines 93-99): [newVal === undefined ? nothing : newVal]. *)
Definition set_value (e : nat) (newVal : value) : M unit :=
  let* _ := update_engine e (with_proxied PInvalid) in
  let* en := get_engine e in
  let* r := produce e (source en)
              (match newVal with VUndef => RNothing | v => RValue v end) in
  let* _ := setSource e r in
  update_engine e (with_dirty false).

(** The [STATE_SOURCE] setter (lines 73-76). *)
Definition set_state_source (e : nat) (v : value) : M unit :=
  let* _ := update_engine e (with_proxied PInvalid) in
  setSource e v.

(** [undou(source, patchListener, scheduler)]: a fresh closure.  A plain
    value is never a handle, so the double-wrap guard does not fire. *)
Definition undou (src : value) (l : option listener) (s : scheduler_kind) : M nat :=
  fun w => (Ok (length (engines w)),
            mkWorld (engines w ++ [mkEngine src PInvalid None 0 false false l s 0])
                    (drafts w) (proxies w) (microtasks w) (log w)).

(** [patchState] (lines 271-276). *)
Definition patchState (e : nat) (ps : list patch) : M unit :=
  let* _ := commit e in
  let* en := get_engine e in
  match apply_patches (source en) ps with
  | Some s => set_state_source e s
  | None => throw ApplyError
  end.

(** [forkState] (lines 285-289): the fork gets the default scheduler. *)
Definition forkState (e : nat) (l : option listener) : M nat :=
  let* _ := commit e in
  let* en := get_engine e in
  undou (source en) l DefaultScheduler.

(** *** Events *)

Inductive read_op :=
  | RValueGet (e : nat)
  | RGet (p : nat) (k : key)
  | RHas (p : nat) (k : key)
  | ROwnKeys (p : nat)
  | RGetOwnPropertyDescriptor (p : nat) (k : key)
  | RIsExtensible (p : nat)
  | RGetPrototypeOf (p : nat).

Inductive write_op :=
  | WSet (p : nat) (k : key) (v : hval)
  | WDeleteProperty (p : nat) (k : key)
  | WDefineProperty (p : nat) (k : key) (v : value)
  | WSetPrototypeOf (p : nat)
  | WPreventExtensions (p : nat).

Inductive event :=
  | EvCreate (v : value) (l : option listener) (s : scheduler_kind)
  | EvRead (r : read_op)
  | EvWrite (wo : write_op)
  | EvSetValue (e : nat) (v : value)
  | EvCommit (e : nat)
  | EvPatchState (e : nat) (ps : list patch)
  | EvForkState (e : nat) (l : option listener)
  | EvMicrotask.

Definition run_read (r : read_op) : M unit :=
  match r with
  | RValueGet e => let* _ := get_value e in ret tt
  | RGet p k => let* _ := proxy_get p k in ret tt
  | RHas p k => let* _ := proxy_has p k in ret tt
  | ROwnKeys p => let* _ := proxy_ownKeys p in ret tt
  | RGetOwnPropertyDescriptor p k => let* _ := proxy_getOwnPropertyDescriptor p k in ret tt
  | RIsExtensible p => let* _ := proxy_isExtensible p in ret tt
  | RGetPrototypeOf p => let* _ := proxy_getPrototypeOf p in ret tt
  end.

Definition write_target (wo : write_op) : nat :=
  match wo with
  | WSet p _ _ | WDeleteProperty p _ | WDefineProperty p _ _
  | WSetPrototypeOf p | WPreventExtensions p => p
  end.

Definition run_write_in (e : nat) (wo : write_op) : M bool :=
  match wo with
  | WSet p k v => proxy_set e p k v
  | WDeleteProperty p k => proxy_deleteProperty e p k
  | WDefineProperty p k v => proxy_defineProperty e p k v
  | WSetPrototypeOf p => proxy_setPrototypeOf e p
  | WPreventExtensions p => proxy_preventExtensions e p
  end.

Definition run_write (wo : write_op) : M unit :=
  let* px := get_proxy (write_target wo) in
  let* _ := run_write_in (px_engine px) wo in
  ret tt.

Definition step (ev : event) : M unit :=
  match ev with
  | EvCreate v l s => let* _ := undou v l s in ret tt
  | EvRead r => run_read r
  | EvWrite wo => run_write wo
  | EvSetValue e v => set_value e v
  | EvCommit e => commit e
  | EvPatchState e ps => patchState e ps
  | EvForkState e l => let* _ := forkState e l in ret tt
  | EvMicrotask => run_microtask
  end.

(** Top-level entry points are independent: an exception thrown by one
    (or a rejected microtask) does not stop the next. *)
Fixpoint exec (evs : list event) (w : world) : world :=
  match evs with
  | [] => w
  | ev :: evs' => exec evs' (snd (step ev w))
  end.

(** [state.value.k1.k2...]: the reads a caller performs through the handle. *)
Fixpoint read_from (h : hval) (ks : list key) : M hval :=
  match ks with
  | [] => ret h
  | k :: ks' =>
      match h with
      | HProxy p => let* h' := proxy_get p k in read_from h' ks'
      | HPlain v =>
          if isObject v
          then read_from (HPlain (match vget v k with Some u => u | None => VUndef end)) ks'
          else throw TypeError
      end
  end.

Definition read_path (e : nat) (ks : list key) : M hval :=
  let* h := get_value e in read_from h ks.

End WithPatches.

End Undou.

(* ------------------------------------------------------------------ *)
(** ** A concrete patch primitive for running scenarios

    A coarse diff: a draft whose current value differs from its base gives
    one root replacement, whose inverse restores the old root. *)

Module RootPatches.

Definition root_generate (ds : list dnode) (d : nat) : list patch * list patch :=
  match ds !! d, materialize (S (length ds)) ds d with
  | Some n, Some r =>
      if value_eqb (dn_base n) r then ([], [])
      else ([mkPatch OpReplace [] (Some r)], [mkPatch OpReplace [] (Some (dn_base n))])
  | _, _ => ([], [])
  end.

Fixpoint root_apply (v : value) (ps : list patch) : option value :=
  match ps with
  | [] => Some v
  | p :: r =>
      match op p, path p, pvalue p with
      | OpReplace, [], Some x => root_apply x r
      | _, _, _ => None
      end
  end.

#[export] Instance root_primitive : PatchPrimitive :=
  {| generate_patches := root_generate; apply_patches := root_apply |}.

End RootPatches.

Import Undou RootPatches.

Module Scenarios.

Definition w_empty : world := mkWorld [] [] [] [] [].

Definition never_throws : listener := mkListener (fun _ => false).

(** A listener whose first invocation throws. *)
Definition throws_first : listener := mkListener (fun n => Nat.eqb n 0).

Definition foo_bar : value := VObj [("foo", VStr "bar")].

Definition foo_x : value := VObj [("foo", VStr "x")].

Definition foo_nested : value := VObj [("foo", VObj [("bar", VStr "baz")])].

(** [p.foo = s] through wrapper [p]. *)
Definition write_foo (p : nat) (s : string) : event :=
  EvWrite (WSet p (KStr "foo") (HPlain (VStr s))).

(** One engine over [{foo: "bar"}] with listener [l], its root wrapper read
    and [foo] assigned: dirty, with a pending deferred commit. *)
Definition dirty_world (l : listener) : world :=
  exec [EvCreate foo_bar (Some l) DefaultScheduler; EvRead (RValueGet 0); write_foo 0 "qux"]
    w_empty.

(** The deferred commit throws (first listener call); the root is then
    reassigned, read and written again. *)
Definition lost_commit_events : list event :=
  [EvCreate foo_bar (Some throws_first) DefaultScheduler; EvRead (RValueGet 0);
   write_foo 0 "qux"; EvMicrotask; EvSetValue 0 foo_x; EvRead (RValueGet 0); write_foo 1 "y"].

Definition nested_world : world := exec [EvCreate foo_nested None DefaultScheduler] w_empty.

(** [foo_nested] with a pending write [top = "x"] through the root wrapper. *)
Definition written_nested_world : world :=
  exec [EvCreate foo_nested (Some never_throws) DefaultScheduler; EvRead (RValueGet 0);
        EvWrite (WSet 0 (KStr "top") (HPlain (VStr "x")))] w_empty.

(** A commit, a read, a creation, a fork and a microtask. *)
Definition handle_keeping_events : list event :=
  [EvCommit 0; EvRead (RGet 1 (KStr "bar")); EvCreate foo_bar None DefaultScheduler;
   EvForkState 0 None; EvMicrotask].

(** A write through the root wrapper read before a root reassignment. *)
Definition stale_write_world : world :=
  exec [EvCreate foo_bar None DefaultScheduler; EvRead (RValueGet 0); EvSetValue 0 foo_x;
        write_foo 0 "y"] w_empty.

End Scenarios.

(* ------------------------------------------------------------------ *)
(** ** Frame reasoning: relations a computation preserves *)

Module Frame.

Section Pres.
Context `{PP : PatchPrimitive}.

Definition pres (R : relation world) {A} (m : M A) : Prop :=
  forall w, R w (snd (m w)).

(** Per-engine relations: engine [x], if it exists, is related by [P]. *)
Definition eng_rel (x : nat) (P : relation engine) : relation world :=
  fun w w' => forall en, engines w !! x = Some en ->
              exists en', engines w' !! x = Some en' /\ P en en'.

(** The observable core of an engine: Snapshot, generation tag, pending
    marker, dirty flag, listener and scheduler. *)
Definition core (en : engine) :=
  (source en, draftCacheKey en, pendingPromise en, isDirty en, patchListener en, scheduler en).

Definition same_core : relation engine := fun en en' => core en' = core en.

(** Nothing a caller can observe of any engine, nor the queue, nor the
    listener log, changes. *)
Definition quiet : relation world :=
  fun w w' => (forall x, eng_rel x same_core w w') /\
              length (engines w') = length (engines w) /\
              microtasks w' = microtasks w /\ log w' = log w.

(** The relations that the wrapper reads preserve: untouched by the draft
    and wrapper heaps and by (re)setting a draft pointer or [proxiedValue]. *)
Class ViewStable (R : relation world) := {
  vs_preorder :: PreOrder R;
  vs_heap : forall w ds ps, R w (mkWorld (engines w) ds ps (microtasks w) (log w));
  vs_draft : forall w e d,
    R w (mkWorld (alter (with_draft (Some d)) e (engines w)) (drafts w) (proxies w) (microtasks w) (log w));
  vs_proxied : forall w e pv,
    R w (mkWorld (alter (with_proxied pv) e (engines w)) (drafts w) (proxies w) (microtasks w) (log w))
}.

(** The relations that every operation on engine [e] preserves. *)
Class OtherStable (R : relation world) (e : nat) := {
  os_view :: ViewStable R;
  os_engine : forall w g,
    R w (mkWorld (alter g e (engines w)) (drafts w) (proxies w) (microtasks w) (log w));
  os_queue : forall w q, R w (mkWorld (engines w) (drafts w) (proxies w) q (log w));
  os_log : forall w l, R w (mkWorld (engines w) (drafts w) (proxies w) (microtasks w) l)
}.

(** Dirty-flag transitions. *)
Definition not_rising : relation engine :=
  fun en en' => isDirty en = false -> isDirty en' = false.

Definition not_falling : relation engine :=
  fun en en' => isDirty en = true -> isDirty en' = true.

(** A Draft pointer, once set, is not cleared by the wrapper's views. *)
Definition draft_kept : relation engine :=
  fun en en' => draft en <> None -> draft en' <> None.

(** The bookkeeping [commit] updates: Snapshot, Draft pointer, dirty flag. *)
Definition same_state : relation engine :=
  fun en en' => source en' = source en /\ draft en' = draft en /\ isDirty en' = isDirty en.

(** The number of engines. *)
Definition same_len : relation world :=
  fun w w' => length (engines w') = length (engines w).

End Pres.

End Frame.

(** ** Observations over runs *)

Module Props.
Import Frame.

Section Props.
Context `{PP : PatchPrimitive}.

Definition dirty_at (x : nat) (w : world) : option bool :=
  option_map isDirty (engines w !! x).

Definition core_at (x : nat) (w : world) :=
  option_map core (engines w !! x).

(** [ev] is an intercepted write through a wrapper created by engine [x]. *)
Definition writes_via (w : world) (ev : event) (x : nat) : Prop :=
  match ev with
  | EvWrite wo => exists px, proxies w !! write_target wo = Some px /\ px_engine px = x
  | _ => False
  end.

(** [ev] runs [commit] of engine [x]: explicitly, in the deferred callback
    at the head of the queue, forced by [patchState]/[forkState], or by the
    synchronous scheduler after a write. *)
Definition commit_runs (w : world) (ev : event) (x : nat) : Prop :=
  match ev with
  | EvCommit e | EvPatchState e _ | EvForkState e _ => e = x
  | EvMicrotask => head (microtasks w) = Some x
  | EvWrite wo =>
      exists px en, proxies w !! write_target wo = Some px /\ px_engine px = x /\
        engines w !! x = Some en /\ scheduler en = SyncScheduler
  | _ => False
  end.

(** [ev] operates on engine [x]. *)
Definition targets (w : world) (ev : event) (x : nat) : Prop :=
  match ev with
  | EvCreate _ _ _ | EvRead _ => False
  | EvWrite wo => writes_via w ev x
  | EvSetValue e _ | EvCommit e | EvPatchState e _ | EvForkState e _ => e = x
  | EvMicrotask => head (microtasks w) = Some x
  end.

(** No event of [evs], run from [w], operates on engine [x]. *)
Fixpoint avoids (x : nat) (evs : list event) (w : world) : Prop :=
  match evs with
  | [] => True
  | ev :: evs' => ~ targets w ev x /\ avoids x evs' (snd (step ev w))
  end.

(** *** What the read-only operations keep *)

Definition proxied_at (x : nat) (w : world) : option proxied :=
  option_map proxiedValue (engines w !! x).

Definition ctx_at (w : world) (p : nat) (k : key) : option nat :=
  match proxies w !! p with
  | Some px => ctx_lookup k (px_ctx px)
  | None => None
  end.

(** Reads keep the generation tag; [proxiedValue] is only set when it was
    [PInvalid], to a new wrapper; a Draft pointer is only set when there
    was none, or by [initProxy]. *)
Definition eng_grow (w : world) (en en' : engine) : Prop :=
  draftCacheKey en' = draftCacheKey en /\
  (proxiedValue en' = proxiedValue en \/
   (proxiedValue en = PInvalid /\
    forall q, proxiedValue en' = PProxy q -> length (proxies w) <= q)) /\
  (forall q d, proxiedValue en = PProxy q -> draft en = Some d -> draft en' = Some d).

(** Reads only fill empty entries of a draft's [copy_]. *)
Definition dn_grow (n n' : dnode) : Prop :=
  dn_base n' = dn_base n /\ dn_revoked n' = dn_revoked n /\
  forall k s, slot_lookup k (dn_copy n) = Some s -> slot_lookup k (dn_copy n') = Some s.

(** The nested [subDraft] closure of a wrapper no longer needs to look its
    parent up: [!proxyCatch.enable || key === draftCacheKey]. *)
Definition child_settled (w : world) (px : proxy) : Prop :=
  match px_access px with
  | ChildAccess _ _ enable ckey _ =>
      exists en, engines w !! px_engine px = Some en /\
        (negb enable || Nat.eqb ckey (draftCacheKey en)) = true
  | RootAccess _ => False
  end.

(** A root wrapper stays one; its [catchedDraft] only changes while it is
    the engine's [proxiedValue]. *)
Definition root_kept (w : world) (p : nat) (px px' : proxy) : Prop :=
  match px_access px with
  | RootAccess c =>
      exists c', px_access px' = RootAccess c' /\
        forall en, engines w !! px_engine px = Some en ->
                   proxied_is p (proxiedValue en) = false -> c' = c
  | ChildAccess _ _ _ _ _ => True
  end.

(** Reads only add entries to a wrapper's [ctx], and leave a settled
    [subDraft] closure as it is. *)
Definition px_grow (w : world) (p : nat) (px px' : proxy) : Prop :=
  px_engine px' = px_engine px /\
  (forall k c, ctx_lookup k (px_ctx px) = Some c -> ctx_lookup k (px_ctx px') = Some c) /\
  root_kept w p px px' /\
  (child_settled w px -> px_access px' = px_access px).

Definition read_grow (w w' : world) : Prop :=
  (forall x en, engines w !! x = Some en ->
     exists en', engines w' !! x = Some en' /\ eng_grow w en en') /\
  (forall d n, drafts w !! d = Some n ->
     exists n', drafts w' !! d = Some n' /\ dn_grow n n') /\
  (forall p px, proxies w !! p = Some px ->
     exists px', proxies w' !! p = Some px' /\ px_grow w p px px') /\
  length (proxies w) <= length (proxies w').

(** [subDraft] of wrapper [p] returns [x] without touching anything. *)
Definition px_settled (w : world) (p : nat) (x : jsval) : Prop :=
  exists px en, proxies w !! p = Some px /\ engines w !! px_engine px = Some en /\
    match px_access px with
    | RootAccess c =>
        if proxied_is p (proxiedValue en)
        then exists d, draft en = Some d /\ x = JDraft d
        else x = JDraft c
    | ChildAccess _ _ enable ckey cvalue =>
        (negb enable || Nat.eqb ckey (draftCacheKey en)) = true /\ x = cvalue
    end.

(** The [get] trap of draft [d] returns the child draft [c] at [k] without
    touching anything. *)
Definition draft_settled (w : world) (d : nat) (k : key) (c : nat) : Prop :=
  exists n, drafts w !! d = Some n /\ dn_revoked n = false /\ is_array_length n k = false /\
    (slot_lookup k (dn_copy n) = Some (SChild c) \/
     slot_lookup k (dn_copy n) = Some (SSet (JDraft c))).

(** Wrapper [q] is reached from wrapper [p] along [ks] through the
    wrappers' caches of child wrappers ([ctx]). *)
Fixpoint ctx_path (w : world) (p : nat) (ks : list key) (q : nat) : Prop :=
  match ks with
  | [] => p = q
  | k :: ks' => exists c, ctx_at w p k = Some c /\ ctx_path w c ks' q
  end.

(** Every root wrapper ([proxiedValue]) and every cached child wrapper is
    kept. *)
Definition handles_kept : relation world :=
  fun w w' =>
    (forall x p, proxied_at x w = Some (PProxy p) -> proxied_at x w' = Some (PProxy p)) /\
    (forall p k c, ctx_at w p k = Some c -> ctx_at w' p k = Some c).

(** The events that neither write through a wrapper nor replace or patch a
    root: reads, creations, commits, forks and deferred commits. *)
Definition keeps_handles (ev : event) : bool :=
  match ev with
  | EvRead _ | EvCreate _ _ _ | EvCommit _ | EvForkState _ _ | EvMicrotask => true
  | _ => false
  end.

(** A key the [set] and [deleteProperty] traps of a draft over [base]
    handle without the array checks: any key of an object, an index of an
    array. *)
Definition plain_key (base : value) (k : key) : bool :=
  match base, k with
  | VArr _, KStr _ => false
  | _, _ => true
  end.

Definition is_array (v : value) : bool :=
  match v with
  | VArr _ => true
  | _ => false
  end.

(** Reading [ks] from wrapper [p] reaches wrapper [q] through cached
    wrappers and drafts only. *)
Fixpoint chain (w : world) (p : nat) (ks : list key) (q : nat) : Prop :=
  match ks with
  | [] => p = q
  | k :: ks' =>
      exists d c p', px_settled w p (JDraft d) /\ draft_settled w d k c /\
        ctx_at w p k = Some p' /\ chain w p' ks' q
  end.

End Props.

End Props.

(* ------------------------------------------------------------------ *)
(** ** Lemmas *)

(* ------------------------------------------------------------------ *)
(** ** Invariant relations for the additional properties *)

Module Keep.
Import Scenarios.

(** Each wrapper keeps its engine and its [subDraft] closure, up to
    [proxyCatch.enable = false]. *)
Definition wrappers_kept (w w' : world) : Prop :=
  forall q pq, proxies w !! q = Some pq ->
    exists pq', proxies w' !! q = Some pq' /\ px_engine pq' = px_engine pq /\
      (px_access pq' = px_access pq \/ px_access pq' = disable (px_access pq)).

(** Each engine keeps what its wrappers' [subDraft] closures consult. *)
Definition engines_kept (w w' : world) : Prop :=
  forall x en, engines w !! x = Some en ->
    exists en', engines w' !! x = Some en' /\ proxiedValue en' = proxiedValue en /\
      draft en' = draft en /\ draftCacheKey en' = draftCacheKey en.

Definition same_pending : relation engine :=
  fun en en' => pendingPromise en' = pendingPromise en.

(** The deferred-commit queue holds each engine at most once, and only
    engines whose [pendingPromise] is set. *)
Definition queue_ok (w : world) : Prop :=
  NoDup (microtasks w) /\
  forall e, In e (microtasks w) ->
    exists en, engines w !! e = Some en /\ pendingPromise en = true.

(** Nothing changes the deferred-commit queue or any [pendingPromise]. *)
Definition queue_same (w w' : world) : Prop :=
  microtasks w' = microtasks w /\ forall x, Frame.eng_rel x same_pending w w'.

(** Witness worlds: [{foo: "bar"}] with its root wrapper read once,
    under the default and under a synchronous scheduler. *)
Definition read_world : world :=
  exec [EvCreate foo_bar None DefaultScheduler; EvRead (RValueGet 0)] w_empty.

Definition sync_world : world :=
  exec [EvCreate foo_bar None SyncScheduler; EvRead (RValueGet 0)] w_empty.

End Keep.

(* ------------------------------------------------------------------ *)
(** ** The Vue store over [undou] (packages/undou/src/vue-undou.ts) *)

Module SpywareStore.

(** [String(part)] of a path segment: a key, or the decimal digits of an index. *)
Definition part_string (k : key) : string :=
  match k with
  | KStr s => s
  | KIdx i => NilEmpty.string_of_uint (Nat.to_uint i)
  end.

(** A JS [Map] with string keys, in insertion order. *)
Fixpoint map_get {V} (m : list (string * V)) (k : string) : option V :=
  match m with
  | [] => None
  | (k', v) :: m' => if String.eqb k' k then Some v else map_get m' k
  end.

(** [Map.prototype.set]: an existing key keeps its position. *)
Fixpoint map_set {V} (m : list (string * V)) (k : string) (v : V) : list (string * V) :=
  match m with
  | [] => [(k, v)]
  | (k', v') :: m' => if String.eqb k' k then (k', v) :: m' else (k', v') :: map_set m' k v
  end.

Fixpoint map_delete {V} (m : list (string * V)) (k : string) : list (string * V) :=
  match m with
  | [] => []
  | (k', v') :: m' => if String.eqb k' k then m' else (k', v') :: map_delete m' k
  end.

(** A JS [Set] of callbacks, compared by identity, in insertion order. *)
Definition set_add (s : list nat) (x : nat) : list nat :=
  if existsb (Nat.eqb x) s then s else app s [x].

Definition set_delete (s : list nat) (x : nat) : list nat :=
  List.filter (fun y => negb (Nat.eqb y x)) s.

(** [pathSubscribers] (or [pathListeners]): a map from a dotted path to a
    [Set] object; the [Set] objects live in a heap, since the unsubscribe
    closure keeps the one it was created with. *)
Record registry := mkRegistry {
  reg_map : list (string * nat);
  reg_sets : list (list nat)
}.

Definition empty_registry : registry := mkRegistry [] [].

(** [registry.get(path)?.forEach(...)]: the callbacks it visits. *)
Definition reg_lookup (r : registry) (p : string) : list nat :=
  match map_get (reg_map r) p with
  | Some sid => default [] (reg_sets r !! sid)
  | None => []
  end.

(** [subscribePath(path, callback)] (lines 157-162), and equally the
    registration of a [$ref]'s trigger (lines 97-101): returns the [Set]
    object the unsubscribe closure captures. *)
Definition subscribe_path (p : string) (fn : nat) (r : registry) : nat * registry :=
  let r1 := match map_get (reg_map r) p with
            | Some _ => r
            | None => mkRegistry (map_set (reg_map r) p (length (reg_sets r)))
                                 (app (reg_sets r) [[]])
            end in
  match map_get (reg_map r1) p with
  | Some sid => (sid, mkRegistry (reg_map r1) (alter (fun s => set_add s fn) sid (reg_sets r1)))
  | None => (0, r1)
  end.

(** The unsubscribe closure (lines 164-169; for a [$ref], lines 105-110),
    over the captured [Set] object [sid]. *)
Definition unsubscribe_path (p : string) (sid : nat) (fn : nat) (r : registry) : registry :=
  let sets := alter (fun s => set_delete s fn) sid (reg_sets r) in
  if Nat.eqb (length (default [] (sets !! sid))) 0
  then mkRegistry (map_delete (reg_map r) p) sets
  else mkRegistry (reg_map r) sets.

(** An entry of [pathCallbacks] (lines 52-57). *)
Record entry := mkEntry {
  subscribers : list nat;
  listeners : list nat;
  epatches : list patch;
  einverse : list (option patch)
}.

Definition empty_entry : entry := mkEntry [] [] [] [].

(** Lines 74-78: push the patch and [inversePatches[index]] (possibly
    [undefined]), add the path's subscribers and listeners. *)
Definition add_to_entry (subs lsts : registry) (partialPath : string)
    (p : patch) (ip : option patch) (en : entry) : entry :=
  mkEntry (fold_left set_add (reg_lookup subs partialPath) (subscribers en))
          (fold_left set_add (reg_lookup lsts partialPath) (listeners en))
          (app (epatches en) [p]) (app (einverse en) [ip]).

(** Lines 64-78, for one partial path. *)
Definition visit (subs lsts : registry) (p : patch) (ip : option patch)
    (partialPath : string) (pc : list (string * entry)) : list (string * entry) :=
  let pc1 := match map_get pc partialPath with
             | Some _ => pc
             | None => map_set pc partialPath empty_entry
             end in
  match map_get pc1 partialPath with
  | Some en => map_set pc1 partialPath (add_to_entry subs lsts partialPath p ip en)
  | None => pc1
  end.

(** [patch.path.forEach((part, i) => ...)] (lines 61-79). *)
Fixpoint walk_path (subs lsts : registry) (p : patch) (ip : option patch)
    (i : nat) (partialPath : string) (parts : list key) (pc : list (string * entry)) :=
  match parts with
  | [] => pc
  | part :: parts' =>
      let pp := if Nat.eqb i 0 then part_string part
                else partialPath ++ "." ++ part_string part in
      walk_path subs lsts p ip (S i) pp parts' (visit subs lsts p ip pp pc)
  end.

(** [patches.forEach((patch, index) => ...)] (lines 59-80). *)
Fixpoint walk_patches (subs lsts : registry) (index : nat) (ps ips : list patch)
    (pc : list (string * entry)) : list (string * entry) :=
  match ps with
  | [] => pc
  | p :: ps' =>
      walk_patches subs lsts (S index) ps' ips
        (walk_path subs lsts p (ips !! index) 0 "" (path p) pc)
  end.

(** The callbacks the store's patch listener invokes, in order. *)
Inductive call :=
  | CallGlobal (fn : nat) (ps ips : list patch)
  | CallPath (fn : nat) (ps : list patch) (ips : list (option patch))
  | CallTrigger (fn : nat).

(** Lines 83-84. *)
Definition entry_calls (en : entry) : list call :=
  app (map (fun fn => CallPath fn (epatches en) (einverse en)) (subscribers en))
      (map CallTrigger (listeners en)).

(** The patch listener [createSpywareStore] hands to [undou] (lines 49-86),
    for callbacks that return normally and leave the registries alone. *)
Definition store_listener (globals : list nat) (subs lsts : registry)
    (ps ips : list patch) : list call :=
  app (map (fun fn => CallGlobal fn ps ips) globals)
      (flat_map (fun ke => entry_calls (snd ke)) (walk_patches subs lsts 0 ps ips [])).

(** The successive values of [partialPath] along a patch path. *)
Fixpoint partials (i : nat) (acc : string) (parts : list key) : list string :=
  match parts with
  | [] => []
  | part :: parts' =>
      let pp := if Nat.eqb i 0 then part_string part else acc ++ "." ++ part_string part in
      pp :: partials (S i) pp parts'
  end.

(** The patches routed to path [P], each with [inversePatches] at its index. *)
Fixpoint routed (P : string) (index : nat) (ps ips : list patch) : list (patch * option patch) :=
  match ps with
  | [] => []
  | p :: ps' =>
      app (if existsb (String.eqb P) (partials 0 "" (path p)) then [(p, ips !! index)] else [])
          (routed P (S index) ps' ips)
  end.

(** The callbacks of a set registered at [P], once each. *)
Definition set_of (s : list nat) : list nat := fold_left set_add s [].

(** The shape [subscribePath] and its unsubscribe closures keep: a path
    appears once, names an allocated [Set], and no two paths share one. *)
Definition reg_ok (r : registry) : Prop :=
  NoDup (map fst (reg_map r)) /\
  (forall q sid, map_get (reg_map r) q = Some sid -> sid < length (reg_sets r)) /\
  (forall q1 q2 sid, map_get (reg_map r) q1 = Some sid -> map_get (reg_map r) q2 = Some sid ->
                     q1 = q2).

Section Lemmas.

Lemma map_get_set {V} (m : list (string * V)) k v q :
  map_get (map_set m k v) q = if String.eqb k q then Some v else map_get m q.
Proof.
  induction m as [|[k' v'] m IH]; simpl.
  - reflexivity.
  - destruct (String.eqb_spec k' k) as [->|Hne]; simpl.
    + destruct (String.eqb k q); reflexivity.
    + rewrite IH. destruct (String.eqb_spec k' q) as [->|Hq]; [|reflexivity].
      destruct (String.eqb_spec k q); congruence.
Qed.

Lemma map_get_delete_ne {V} (m : list (string * V)) k q :
  k <> q -> map_get (map_delete m k) q = map_get m q.
Proof.
  intros Hkq. induction m as [|[k' v'] m IH]; simpl; [reflexivity|].
  destruct (String.eqb_spec k' k) as [->|Hne]; simpl.
  - destruct (String.eqb_spec k q); [congruence|reflexivity].
  - rewrite IH. reflexivity.
Qed.

Lemma map_get_In {V} (m : list (string * V)) k v : map_get m k = Some v -> In (k, v) m.
Proof.
  induction m as [|[k' v'] m IH]; simpl; [discriminate|].
  destruct (String.eqb_spec k' k) as [->|_]; [intros [= ->]; left; reflexivity|].
  intros H. right. apply IH, H.
Qed.

Lemma map_keys_set {V} (m : list (string * V)) k v q :
  In q (map fst (map_set m k v)) -> q = k \/ In q (map fst m).
Proof.
  induction m as [|[k' v'] m IH]; simpl.
  - intuition.
  - destruct (String.eqb k' k); simpl; [intuition|].
    intros [H|H]; [auto|]. destruct (IH H); auto.
Qed.

Lemma map_set_nodup {V} (m : list (string * V)) k v :
  NoDup (map fst m) -> NoDup (map fst (map_set m k v)).
Proof.
  induction m as [|[k' v'] m IH]; simpl; intros Hn.
  - constructor; [apply not_elem_of_nil|constructor].
  - apply NoDup_cons in Hn as [Hni Hn].
    destruct (String.eqb_spec k' k) as [->|Hne]; simpl.
    + apply NoDup_cons. split; assumption.
    + apply NoDup_cons. split; [|apply IH, Hn].
      intros Hin%list_elem_of_In. apply map_keys_set in Hin as [->|Hin]; [congruence|].
      apply Hni, list_elem_of_In, Hin.
Qed.

Lemma In_map_get {V} (m : list (string * V)) k v :
  NoDup (map fst m) -> In (k, v) m -> map_get m k = Some v.
Proof.
  induction m as [|[k' v'] m IH]; simpl; [intros _ []|].
  intros Hn. apply NoDup_cons in Hn as [Hni Hn]. intros [[= -> ->]|H].
  - rewrite String.eqb_refl. reflexivity.
  - destruct (String.eqb_spec k' k) as [->|_]; [|apply IH; assumption].
    exfalso. apply Hni, list_elem_of_In. apply (in_map fst) in H. exact H.
Qed.

Lemma visit_get subs lsts p ip Q pc P :
  map_get (visit subs lsts p ip Q pc) P =
  if String.eqb Q P
  then Some (add_to_entry subs lsts P p ip (default empty_entry (map_get pc P)))
  else map_get pc P.
Proof.
  unfold visit. destruct (map_get pc Q) as [en|] eqn:Hq.
  - rewrite Hq, map_get_set. destruct (String.eqb_spec Q P) as [<-|]; [rewrite Hq|]; reflexivity.
  - rewrite map_get_set, String.eqb_refl, map_get_set.
    destruct (String.eqb_spec Q P) as [<-|Hne]; [rewrite Hq; reflexivity|].
    rewrite map_get_set. destruct (String.eqb_spec Q P); [congruence|reflexivity].
Qed.

Lemma visit_nodup subs lsts p ip Q pc :
  NoDup (map fst pc) -> NoDup (map fst (visit subs lsts p ip Q pc)).
Proof.
  intros Hn. unfold visit. destruct (map_get pc Q) as [en|] eqn:Hq.
  - rewrite Hq. apply map_set_nodup, Hn.
  - rewrite map_get_set, String.eqb_refl. apply map_set_nodup, map_set_nodup, Hn.
Qed.

Lemma walk_path_nodup subs lsts p ip i acc parts pc :
  NoDup (map fst pc) -> NoDup (map fst (walk_path subs lsts p ip i acc parts pc)).
Proof.
  revert i acc pc. induction parts as [|part parts IH]; intros i acc pc Hn; simpl;
    [exact Hn|]. apply IH, visit_nodup, Hn.
Qed.

Lemma walk_patches_nodup subs lsts index ps ips pc :
  NoDup (map fst pc) -> NoDup (map fst (walk_patches subs lsts index ps ips pc)).
Proof.
  revert index pc. induction ps as [|p ps IH]; intros index pc Hn; simpl; [exact Hn|].
  apply IH, walk_path_nodup, Hn.
Qed.

Lemma string_length_app (s1 s2 : string) :
  String.length (s1 ++ s2) = String.length s1 + String.length s2.
Proof. induction s1 as [|c s1 IH]; simpl; [reflexivity|]. rewrite IH. reflexivity. Qed.

Lemma partials_longer i acc parts x :
  In x (partials (S i) acc parts) -> String.length acc < String.length x.
Proof.
  revert i acc. induction parts as [|part parts IH]; intros i acc; simpl; [intros []|].
  intros [<-|H].
  - rewrite string_length_app. simpl. lia.
  - apply IH in H. rewrite string_length_app in H. simpl in H. lia.
Qed.

Lemma walk_path_get subs lsts p ip i acc parts pc P :
  map_get (walk_path subs lsts p ip i acc parts pc) P =
  if existsb (String.eqb P) (partials i acc parts)
  then Some (add_to_entry subs lsts P p ip (default empty_entry (map_get pc P)))
  else map_get pc P.
Proof.
  revert i acc pc. induction parts as [|part parts IH]; intros i acc pc; [reflexivity|].
  cbn [walk_path partials existsb].
  match goal with |- context [partials (S i) ?x parts] => generalize x as pp end.
  intros pp. rewrite IH, visit_get.
  destruct (String.eqb_spec P pp) as [->|Hne]; cbn [orb].
  - rewrite String.eqb_refl.
    destruct (existsb (String.eqb pp) (partials (S i) pp parts)) eqn:Hx; [|reflexivity].
    exfalso. apply existsb_exists in Hx as (x & Hin & Hx).
    apply String.eqb_eq in Hx. subst x. apply partials_longer in Hin. lia.
  - destruct (String.eqb_spec pp P); [congruence|]. reflexivity.
Qed.

(** Adding the routed patches one after the other. *)
Fixpoint add_all (subs lsts : registry) (P : string) (r : list (patch * option patch))
    (en : entry) : entry :=
  match r with
  | [] => en
  | (p, ip) :: r' => add_all subs lsts P r' (add_to_entry subs lsts P p ip en)
  end.

Lemma add_all_app subs lsts P r1 r2 en :
  add_all subs lsts P (app r1 r2) en = add_all subs lsts P r2 (add_all subs lsts P r1 en).
Proof.
  revert en. induction r1 as [|[p ip] r1 IH]; intros en; simpl; [reflexivity|]. apply IH.
Qed.

Lemma walk_patches_get subs lsts index ps ips pc P :
  map_get (walk_patches subs lsts index ps ips pc) P =
  match routed P index ps ips with
  | [] => map_get pc P
  | r => Some (add_all subs lsts P r (default empty_entry (map_get pc P)))
  end.
Proof.
  revert index pc. induction ps as [|p ps IH]; intros index pc; simpl; [reflexivity|].
  rewrite IH, walk_path_get.
  destruct (existsb (String.eqb P) (partials 0 "" (path p))); simpl;
    destruct (routed P (S index) ps ips); reflexivity.
Qed.

Lemma set_add_incl s x : In x (set_add s x) /\ incl s (set_add s x).
Proof.
  unfold set_add. destruct (existsb (Nat.eqb x) s) eqn:E.
  - apply existsb_exists in E as (y & Hy & E). apply Nat.eqb_eq in E. subst y.
    split; [exact Hy|apply incl_refl].
  - split; [apply in_or_app; right; left; reflexivity|apply incl_appl, incl_refl].
Qed.

Lemma fold_set_add_incl s t : incl t (fold_left set_add s t) /\ incl s (fold_left set_add s t).
Proof.
  revert t. induction s as [|x s IH]; intros t; simpl.
  - split; [apply incl_refl|intros y []].
  - destruct (set_add_incl t x) as [Hx Ht]. destruct (IH (set_add t x)) as [H1 H2].
    split; [intros y Hy; apply H1, Ht, Hy|].
    intros y [<-|Hy]; [apply H1, Hx|apply H2, Hy].
Qed.

Lemma fold_set_add_absorb s t : incl s t -> fold_left set_add s t = t.
Proof.
  revert t. induction s as [|x s IH]; intros t Hi; simpl; [reflexivity|].
  unfold set_add at 2. assert (Hx : existsb (Nat.eqb x) t = true).
  { apply existsb_exists. exists x. split; [apply Hi; left; reflexivity|apply Nat.eqb_refl]. }
  rewrite Hx. apply IH. intros y Hy. apply Hi. right. exact Hy.
Qed.

Lemma fold_set_add_In s t x : In x (fold_left set_add s t) <-> In x t \/ In x s.
Proof.
  revert t. induction s as [|y s IH]; intros t; simpl.
  - intuition.
  - rewrite IH. unfold set_add. destruct (existsb (Nat.eqb y) t) eqn:E.
    + apply existsb_exists in E as (z & Hz & E). apply Nat.eqb_eq in E. subst z.
      split; [intuition|]. intros [H|[<-|H]]; auto.
    + rewrite in_app_iff. simpl. intuition.
Qed.

Lemma add_all_from subs lsts P r en :
  incl (reg_lookup subs P) (subscribers en) -> incl (reg_lookup lsts P) (listeners en) ->
  add_all subs lsts P r en =
  mkEntry (subscribers en) (listeners en) (app (epatches en) (map fst r))
          (app (einverse en) (map snd r)).
Proof.
  revert en. induction r as [|[p ip] r IH]; intros en HS HL; simpl.
  - rewrite !app_nil_r. destruct en; reflexivity.
  - rewrite IH; unfold add_to_entry; simpl; rewrite ?fold_set_add_absorb by assumption;
      [|assumption|assumption].
    rewrite <- !app_assoc. reflexivity.
Qed.

Lemma add_all_nonempty subs lsts P r :
  r <> [] ->
  add_all subs lsts P r empty_entry =
  mkEntry (set_of (reg_lookup subs P)) (set_of (reg_lookup lsts P)) (map fst r) (map snd r).
Proof.
  destruct r as [|[p ip] r]; [congruence|intros _]. simpl.
  rewrite add_all_from; [reflexivity| |]; unfold add_to_entry; simpl; apply fold_set_add_incl.
Qed.

Lemma store_entries subs lsts ps ips P en :
  In (P, en) (walk_patches subs lsts 0 ps ips []) <->
  routed P 0 ps ips <> [] /\
  en = mkEntry (set_of (reg_lookup subs P)) (set_of (reg_lookup lsts P))
               (map fst (routed P 0 ps ips)) (map snd (routed P 0 ps ips)).
Proof.
  pose proof (walk_patches_get subs lsts 0 ps ips [] P) as G. change (map_get [] P) with (@None entry) in G. cbn [default] in G.
  split.
  - intros Hin. apply In_map_get in Hin; [|apply walk_patches_nodup; constructor].
    rewrite Hin in G. destruct (routed P 0 ps ips) as [|x r] eqn:R; [discriminate|].
    split; [discriminate|]. injection G as ->. exact (add_all_nonempty subs lsts P (x :: r) ltac:(discriminate)).
  - intros [Hne ->]. apply map_get_In. rewrite G.
    destruct (routed P 0 ps ips) as [|x r] eqn:R; [congruence|].
    rewrite <- R. f_equal. apply add_all_nonempty. rewrite R. discriminate.
Qed.

Lemma set_of_In s x : In x (set_of s) <-> In x s.
Proof. unfold set_of. rewrite fold_set_add_In. simpl. intuition. Qed.

Lemma store_listener_In globals subs lsts ps ips c :
  In c (store_listener globals subs lsts ps ips) <->
  In c (map (fun fn => CallGlobal fn ps ips) globals) \/
  exists P, routed P 0 ps ips <> [] /\
    In c (entry_calls (mkEntry (set_of (reg_lookup subs P)) (set_of (reg_lookup lsts P))
                               (map fst (routed P 0 ps ips)) (map snd (routed P 0 ps ips)))).
Proof.
  unfold store_listener. rewrite in_app_iff, in_flat_map. split.
  - intros [H|([P en] & Hin & Hc)]; [left; exact H|right].
    apply store_entries in Hin as [Hne ->]. exists P. auto.
  - intros [H|(P & Hne & Hc)]; [left; exact H|right].
    eexists (P, _). split; [apply store_entries; split; [exact Hne|reflexivity]|exact Hc].
Qed.

Lemma walk_patches_roots subs lsts index ps ips pc :
  Forall (fun p => path p = []) ps -> walk_patches subs lsts index ps ips pc = pc.
Proof.
  revert index pc. induction ps as [|p ps IH]; intros index pc Hr; simpl; [reflexivity|].
  inversion Hr as [|? ? Hp Hr']; subst. rewrite Hp. simpl. apply IH, Hr'.
Qed.

Lemma map_get_delete_same {V} (m : list (string * V)) k :
  NoDup (map fst m) -> map_get (map_delete m k) k = None.
Proof.
  induction m as [|[k' v'] m IH]; simpl; [reflexivity|]. intros Hn.
  apply NoDup_cons in Hn as [Hni Hn].
  destruct (String.eqb_spec k' k) as [->|Hne]; simpl.
  - destruct (map_get m k) as [v|] eqn:G; [|reflexivity].
    exfalso. apply Hni, list_elem_of_In. apply map_get_In in G. apply (in_map fst) in G. exact G.
  - destruct (String.eqb_spec k' k); [congruence|]. apply IH, Hn.
Qed.

Lemma map_keys_delete {V} (m : list (string * V)) k q :
  In q (map fst (map_delete m k)) -> In q (map fst m).
Proof.
  induction m as [|[k' v'] m IH]; simpl; [auto|].
  destruct (String.eqb k' k); simpl; [auto|]. intros [H|H]; auto.
Qed.

Lemma map_delete_nodup {V} (m : list (string * V)) k :
  NoDup (map fst m) -> NoDup (map fst (map_delete m k)).
Proof.
  induction m as [|[k' v'] m IH]; simpl; intros Hn; [exact Hn|].
  apply NoDup_cons in Hn as [Hni Hn].
  destruct (String.eqb k' k); [exact Hn|]. simpl. apply NoDup_cons. split; [|apply IH, Hn].
  intros Hin%list_elem_of_In. apply Hni, list_elem_of_In, (map_keys_delete m k), Hin.
Qed.

Lemma map_get_delete {V} (m : list (string * V)) k q :
  NoDup (map fst m) ->
  map_get (map_delete m k) q = if String.eqb k q then None else map_get m q.
Proof.
  intros Hn. destruct (String.eqb_spec k q) as [<-|Hne].
  - apply map_get_delete_same, Hn.
  - apply map_get_delete_ne, Hne.
Qed.

Lemma map_delete_set_new {V} (m : list (string * V)) k v :
  map_get m k = None -> map_delete (map_set m k v) k = m.
Proof.
  induction m as [|[k' v'] m IH]; simpl; intros H.
  - rewrite String.eqb_refl. reflexivity.
  - destruct (String.eqb k' k) eqn:E; [discriminate|]. simpl. rewrite E, IH; auto.
Qed.

Lemma set_delete_add s x : ~ In x s -> set_delete (set_add s x) x = s.
Proof.
  intros Hx. unfold set_add. destruct (existsb (Nat.eqb x) s) eqn:E.
  - exfalso. apply existsb_exists in E as (y & Hy & E). apply Nat.eqb_eq in E. subst. auto.
  - unfold set_delete. cbv iota. rewrite List.filter_app. simpl. rewrite Nat.eqb_refl. simpl.
    rewrite app_nil_r. clear E. induction s as [|y s IH]; simpl; [reflexivity|].
    destruct (Nat.eqb_spec y x) as [->|Hne]; [exfalso; apply Hx; left; reflexivity|].
    simpl. rewrite IH; [reflexivity|]. intros H. apply Hx. right. exact H.
Qed.

Lemma set_add_nil x : set_add [] x = [x].
Proof. reflexivity. Qed.

(** The registry after [subscribePath]: the captured [Set] is the one the
    path names, now holding the callback. *)
Lemma subscribe_shape r p fn :
  reg_ok r ->
  let '(sid, r') := subscribe_path p fn r in
  reg_ok r' /\ map_get (reg_map r') p = Some sid /\
  reg_sets r' !! sid = Some (set_add (reg_lookup r p) fn) /\
  length (reg_sets r) <= length (reg_sets r') /\
  (forall q, q <> p -> map_get (reg_map r') q = map_get (reg_map r) q) /\
  (forall j, j <> sid -> j < length (reg_sets r) -> reg_sets r' !! j = reg_sets r !! j) /\
  (map_get (reg_map r) p = None -> sid = length (reg_sets r)).
Proof.
  intros (Hn & Hv & Hi). unfold subscribe_path, reg_lookup.
  destruct (map_get (reg_map r) p) as [sid|] eqn:G.
  - rewrite G. cbn [reg_map reg_sets]. specialize (Hv p sid G) as Hs.
    destruct (lookup_lt_is_Some_2 (reg_sets r) sid Hs) as [s Hs'].
    split; [|split; [first [exact G|reflexivity]|split; [|split; [|split; [reflexivity|split]]]]];
      cbn [reg_map reg_sets] in *.
    + split; [exact Hn|split; [|exact Hi]]. intros q sid' Hq. cbn [reg_map reg_sets] in *. rewrite length_alter. eapply Hv, Hq.
    + rewrite list_lookup_alter, Hs'. simpl. rewrite decide_True by reflexivity. reflexivity.
    + rewrite length_alter. reflexivity.
    + intros j Hj _. rewrite list_lookup_alter_ne by congruence. reflexivity.
    + discriminate.
  - cbn [reg_map reg_sets]. rewrite map_get_set, String.eqb_refl.
    set (n := length (reg_sets r)).
    split; [|split; [cbn [reg_map]; rewrite map_get_set, String.eqb_refl; reflexivity|
      split; [|split; [|split; [|split]]]]]; cbn [reg_map reg_sets] in *.
    + split; [|split].
      * apply map_set_nodup, Hn.
      * intros q sid Hq. cbn [reg_map reg_sets] in *. rewrite length_alter, length_app. simpl.
        rewrite map_get_set in Hq. destruct (String.eqb p q); [injection Hq as <-; lia|].
        apply Hv in Hq. lia.
      * intros q1 q2 sid H1 H2. cbn [reg_map reg_sets] in *. rewrite map_get_set in H1, H2.
        destruct (String.eqb_spec p q1) as [<-|N1], (String.eqb_spec p q2) as [<-|N2];
          try reflexivity.
        -- injection H1 as <-. apply Hv in H2. lia.
        -- injection H2 as <-. apply Hv in H1. lia.
        -- eapply Hi; eassumption.
    + rewrite list_lookup_alter, lookup_app_r by lia. rewrite Nat.sub_diag. simpl.
      rewrite decide_True by reflexivity. reflexivity.
    + rewrite length_alter, length_app. simpl. lia.
    + intros q Hq. rewrite map_get_set. destruct (String.eqb_spec p q); [congruence|reflexivity].
    + intros j Hj Hl. rewrite list_lookup_alter_ne by congruence.
      apply lookup_app_l. exact Hl.
    + intros _. reflexivity.
Qed.

(** The registry after an unsubscribe closure over the [Set] [sid]. *)
Lemma unsubscribe_shape r p sid fn :
  reg_ok r ->
  reg_ok (unsubscribe_path p sid fn r) /\
  length (reg_sets (unsubscribe_path p sid fn r)) = length (reg_sets r) /\
  reg_sets (unsubscribe_path p sid fn r) = alter (fun s => set_delete s fn) sid (reg_sets r) /\
  (forall q, map_get (reg_map (unsubscribe_path p sid fn r)) q =
             if Nat.eqb (length (default [] (reg_sets (unsubscribe_path p sid fn r) !! sid))) 0 &&
                String.eqb p q
             then None else map_get (reg_map r) q).
Proof.
  intros (Hn & Hv & Hi). unfold unsubscribe_path.
  set (sets := alter _ sid _).
  assert (Hl : length sets = length (reg_sets r)) by apply length_alter.
  destruct (Nat.eqb (length (default [] (sets !! sid))) 0) eqn:E; cbn [reg_map reg_sets andb].
  - split; [|split; [exact Hl|split; [reflexivity|]]].
    + split; [apply map_delete_nodup, Hn|split].
      * intros q sid' Hq. cbn [reg_map reg_sets] in *. rewrite Hl. rewrite map_get_delete in Hq by exact Hn.
        destruct (String.eqb p q); [discriminate|]. eapply Hv, Hq.
      * intros q1 q2 sid' H1 H2. cbn [reg_map reg_sets] in *. rewrite map_get_delete in H1, H2 by exact Hn.
        destruct (String.eqb p q1), (String.eqb p q2); try discriminate. eapply Hi; eassumption.
    + intros q. cbn [reg_map reg_sets]. rewrite E. apply map_get_delete, Hn.
  - split; [|split; [exact Hl|split; [reflexivity|]]].
    + split; [exact Hn|split; [|exact Hi]]. intros q sid' Hq. cbn [reg_map reg_sets] in *. rewrite Hl. eapply Hv, Hq.
    + intros q. cbn [reg_map reg_sets]. rewrite E. reflexivity.
Qed.

Lemma reg_lookup_sets r q sid :
  map_get (reg_map r) q = Some sid -> reg_lookup r q = default [] (reg_sets r !! sid).
Proof. intros H. unfold reg_lookup. rewrite H. reflexivity. Qed.

Lemma reg_lookup_none r q : map_get (reg_map r) q = None -> reg_lookup r q = [].
Proof. intros H. unfold reg_lookup. rewrite H. reflexivity. Qed.

End Lemmas.

End SpywareStore.

Module Facts.
Import Frame Props.

Section Generic.
Context `{PP : PatchPrimitive}.

Section Rel.
Context (R : relation world) `{!PreOrder R}.

Lemma pres_ret {A} (a : A) : pres R (ret a).
Proof. intros w. simpl. reflexivity. Qed.

Lemma pres_throw {A} (x : exn) : pres R (throw (A:=A) x).
Proof. intros w. simpl. reflexivity. Qed.

Lemma pres_bind {A B} (m : M A) (k : A -> M B) :
  pres R m -> (forall a, pres R (k a)) -> pres R (bind m k).
Proof.
  intros Hm Hk w. unfold bind. specialize (Hm w).
  destruct (m w) as [[a|x] w'] eqn:E; simpl in *.
  - etrans; [exact Hm|apply Hk].
  - exact Hm.
Qed.

Lemma pres_get_engine e : pres R (get_engine e).
Proof. intros w. unfold get_engine. destruct (engines w !! e); simpl; reflexivity. Qed.

Lemma pres_get_proxy p : pres R (get_proxy p).
Proof. intros w. unfold get_proxy. destruct (proxies w !! p); simpl; reflexivity. Qed.

Lemma pres_get_draft d : pres R (get_draft d).
Proof. intros w. unfold get_draft. destruct (drafts w !! d); simpl; reflexivity. Qed.

Lemma pres_current_value d : pres R (current_value d).
Proof. intros w. unfold current_value. destruct (materialize _ _ _); simpl; reflexivity. Qed.

Lemma pres_draft_patches d : pres R (draft_patches d).
Proof. intros w. reflexivity. Qed.

Lemma pres_update_engine e g :
  (forall w, R w (mkWorld (alter g e (engines w)) (drafts w) (proxies w) (microtasks w) (log w))) ->
  pres R (update_engine e g).
Proof. intros H w. apply H. Qed.

Definition heap_stable : Prop :=
  forall w ds ps, R w (mkWorld (engines w) ds ps (microtasks w) (log w)).

Lemma pres_update_proxy p f : heap_stable -> pres R (update_proxy p f).
Proof. intros H w. apply H. Qed.

Lemma pres_alloc_proxy px : heap_stable -> pres R (alloc_proxy px).
Proof. intros H w. apply H. Qed.

Lemma pres_update_draft d f : heap_stable -> pres R (update_draft d f).
Proof. intros H w. apply H. Qed.

Lemma pres_alloc_draft n : heap_stable -> pres R (alloc_draft n).
Proof. intros H w. apply H. Qed.

Lemma pres_revoke_scope d : heap_stable -> pres R (revoke_scope d).
Proof. intros H w. apply H. Qed.

Lemma pres_createDraft b : heap_stable -> pres R (createDraft b).
Proof.
  intros H w. unfold createDraft. destruct (draftable b); [apply H|simpl; reflexivity].
Qed.

Lemma pres_enqueue e :
  (forall w q, R w (mkWorld (engines w) (drafts w) (proxies w) q (log w))) -> pres R (enqueue e).
Proof. intros H w. apply H. Qed.

Lemma pres_append_log en :
  (forall w l, R w (mkWorld (engines w) (drafts w) (proxies w) (microtasks w) l)) ->
  pres R (append_log en).
Proof. intros H w. apply H. Qed.

End Rel.
End Generic.

(** One step of the preservation proofs: atomic operations by the lemmas
    above (their side condition left to [tac]), binds and case splits
    structurally. *)
Ltac pres_step tac :=
  match goal with
  | |- pres _ (ret _) => apply pres_ret
  | |- pres _ (throw _) => apply pres_throw
  | |- pres _ (get_engine _) => apply pres_get_engine
  | |- pres _ (get_proxy _) => apply pres_get_proxy
  | |- pres _ (get_draft _) => apply pres_get_draft
  | |- pres _ (current_value _) => apply pres_current_value
  | |- pres _ (draft_patches _) => apply pres_draft_patches
  | |- pres _ (update_engine _ _) => apply pres_update_engine; [..|intros; tac]
  | |- pres _ (update_proxy _ _) => apply pres_update_proxy; [..|intros ? ? ?; tac]
  | |- pres _ (alloc_proxy _) => apply pres_alloc_proxy; [..|intros ? ? ?; tac]
  | |- pres _ (update_draft _ _) => apply pres_update_draft; [..|intros ? ? ?; tac]
  | |- pres _ (alloc_draft _) => apply pres_alloc_draft; [..|intros ? ? ?; tac]
  | |- pres _ (revoke_scope _) => apply pres_revoke_scope; [..|intros ? ? ?; tac]
  | |- pres _ (createDraft _) => apply pres_createDraft; [..|intros ? ? ?; tac]
  | |- pres _ (enqueue _) => apply pres_enqueue; [..|intros; tac]
  | |- pres _ (append_log _) => apply pres_append_log; [..|intros; tac]
  | |- pres _ (bind _ _) => apply pres_bind; [..|intros ?]
  | |- pres _ (match ?x with _ => _ end) => destruct x
  end.

Ltac pres_auto tac :=
  repeat (first [ solve [typeclasses eauto]
                | solve [eauto with pres typeclass_instances]
                | pres_step tac ]).

Create HintDb pres.

(** *** Read-only operations *)

Section View.
Context `{PP : PatchPrimitive} (R : relation world) `{!ViewStable R}.

Ltac vtac :=
  first [ apply vs_heap | apply vs_draft | apply vs_proxied ].

Lemma live_draft_pres d : pres R (live_draft d).
Proof. unfold live_draft. pres_auto vtac. Qed.
Hint Resolve live_draft_pres : pres.

Lemma draft_get_pres d k : pres R (draft_get d k).
Proof. unfold draft_get. pres_auto vtac. Qed.
Hint Resolve draft_get_pres : pres.

Lemma reflect_get_pres x k : pres R (reflect_get x k).
Proof. unfold reflect_get. pres_auto vtac. Qed.
Hint Resolve reflect_get_pres : pres.

Lemma subDraft_pres fuel p : pres R (subDraft fuel p).
Proof.
  revert p. induction fuel as [|f IH]; intros p; simpl.
  - pres_auto vtac.
  - pres_auto vtac.
Qed.
Hint Resolve subDraft_pres : pres.

Lemma sub_draft_pres p : pres R (sub_draft p).
Proof. apply subDraft_pres. Qed.
Hint Resolve sub_draft_pres : pres.

Lemma clearProxyCatch_pres p k : pres R (clearProxyCatch p k).
Proof. unfold clearProxyCatch. pres_auto vtac. Qed.
Hint Resolve clearProxyCatch_pres : pres.

Lemma proxy_get_pres p k : pres R (proxy_get p k).
Proof. unfold proxy_get. pres_auto vtac. Qed.
Hint Resolve proxy_get_pres : pres.

Lemma initProxy_pres e : pres R (initProxy e).
Proof. unfold initProxy. pres_auto vtac. Qed.
Hint Resolve initProxy_pres : pres.

Lemma get_value_pres e : pres R (get_value e).
Proof. unfold get_value. pres_auto vtac. Qed.
Hint Resolve get_value_pres : pres.

Lemma reflect_read_pres {A} x (m : nat -> M A) f :
  (forall d, pres R (m d)) -> pres R (reflect_read x m f).
Proof. intros Hm. unfold reflect_read. pres_auto vtac. Qed.

Lemma reflect_write_pres x (m : nat -> M bool) :
  (forall d, pres R (m d)) -> pres R (reflect_write x m).
Proof. intros Hm. unfold reflect_write. pres_auto vtac. Qed.

Lemma draft_has_pres d k : pres R (draft_has d k).
Proof. unfold draft_has. pres_auto vtac. Qed.
Hint Resolve draft_has_pres : pres.

Lemma draft_ownKeys_pres d : pres R (draft_ownKeys d).
Proof. unfold draft_ownKeys. pres_auto vtac. Qed.

Lemma draft_getOwnPropertyDescriptor_pres d k : pres R (draft_getOwnPropertyDescriptor d k).
Proof. unfold draft_getOwnPropertyDescriptor. pres_auto vtac. Qed.

Lemma draft_isExtensible_pres d : pres R (draft_isExtensible d).
Proof. unfold draft_isExtensible. pres_auto vtac. Qed.

Lemma draft_getPrototypeOf_pres d : pres R (draft_getPrototypeOf d).
Proof. unfold draft_getPrototypeOf. pres_auto vtac. Qed.

Lemma run_read_pres r : pres R (run_read r).
Proof.
  destruct r; simpl;
    unfold proxy_has, proxy_ownKeys, proxy_getOwnPropertyDescriptor,
      proxy_isExtensible, proxy_getPrototypeOf;
    pres_auto vtac;
    try (apply reflect_read_pres; intros d);
    first [ apply draft_has_pres | apply draft_ownKeys_pres
          | apply draft_getOwnPropertyDescriptor_pres | apply draft_isExtensible_pres
          | apply draft_getPrototypeOf_pres ].
Qed.

Lemma read_from_pres h ks : pres R (read_from h ks).
Proof.
  revert h. induction ks as [|k ks IH]; intros h; simpl; pres_auto vtac.
Qed.

Lemma read_path_pres e ks : pres R (read_path e ks).
Proof. unfold read_path. pres_auto vtac. apply read_from_pres. Qed.

End View.

#[export] Hint Resolve live_draft_pres draft_get_pres reflect_get_pres subDraft_pres
  sub_draft_pres clearProxyCatch_pres proxy_get_pres initProxy_pres get_value_pres
  run_read_pres read_from_pres read_path_pres : pres.

(** *** Per-engine relations *)

Section EngRel.
Context `{PP : PatchPrimitive} (x : nat) (P : relation engine) `{!PreOrder P}.

#[export] Instance eng_rel_preorder : PreOrder (eng_rel x P).
Proof.
  split.
  - intros w en H. exists en. split; [exact H|reflexivity].
  - intros w1 w2 w3 H12 H23 en H1.
    destruct (H12 en H1) as (en2 & H2 & P12).
    destruct (H23 en2 H2) as (en3 & H3 & P23).
    exists en3. split; [exact H3|etrans; eauto].
Qed.

Definition ok (e : nat) (g : engine -> engine) : Prop :=
  e <> x \/ forall en, P en (g en).

Lemma eng_rel_alter w e g :
  ok e g ->
  eng_rel x P w (mkWorld (alter g e (engines w)) (drafts w) (proxies w) (microtasks w) (log w)).
Proof.
  intros Hg en H. simpl. destruct (decide (e = x)) as [->|Hne].
  - rewrite list_lookup_alter, H. simpl. rewrite decide_True by reflexivity.
    exists (g en). split; [reflexivity|].
    destruct Hg as [Hg|Hg]; [congruence|apply Hg].
  - rewrite list_lookup_alter_ne by congruence. exists en. split; [exact H|reflexivity].
Qed.

Lemma eng_rel_same w ds ps q l : eng_rel x P w (mkWorld (engines w) ds ps q l).
Proof. intros en H. exists en. split; [exact H|reflexivity]. Qed.

Lemma eng_rel_app w es ds ps q l : eng_rel x P w (mkWorld (engines w ++ es) ds ps q l).
Proof.
  intros en H. exists en. split; [|reflexivity]. simpl.
  rewrite lookup_app_l; [exact H|]. apply lookup_lt_Some in H. exact H.
Qed.

Lemma eng_rel_undou w v l s : eng_rel x P w (snd (undou v l s w)).
Proof. apply eng_rel_app. Qed.

End EngRel.

#[export] Hint Resolve eng_rel_preorder : pres.

Ltac eng_tac :=
  first [ apply eng_rel_same; assumption
        | apply eng_rel_alter; solve [assumption | auto | left; congruence | right; intros ?; first [reflexivity | auto]] ].

(** Operations on engine [e], for a per-engine relation [P] that the view
    updates preserve and that the updates [e] performs preserve. *)
Section EngOps.
Context `{PP : PatchPrimitive} (x : nat) (P : relation engine) `{!PreOrder P}.
Hypothesis HPd : forall d en, P en (with_draft d en).
Hypothesis HPp : forall pv en, P en (with_proxied pv en).

#[local] Instance eng_rel_view : ViewStable (eng_rel x P).
Proof.
  split.
  - apply eng_rel_preorder; assumption.
  - intros. apply eng_rel_same; assumption.
  - intros. apply eng_rel_alter; first [assumption | right; apply HPd].
  - intros. apply eng_rel_alter; first [assumption | right; apply HPp].
Qed.

Lemma eng_view_pres {A} (m : M A) :
  (forall R, ViewStable R -> pres R m) -> pres (eng_rel x P) m.
Proof. intros H. apply H. typeclasses eauto. Qed.

Variable e : nat.
Hypothesis Hcalls : forall n, ok x P e (with_calls n).
Hypothesis Hsource : forall v, ok x P e (with_source v).
Hypothesis Hkey : ok x P e bump_key.
Hypothesis Hclean : ok x P e (with_dirty false).

Lemma notify_pres ps ips : pres (eng_rel x P) (notify e ps ips).
Proof. unfold notify. pres_auto eng_tac. Qed.

Lemma finishDraft_pres d : pres (eng_rel x P) (finishDraft e d).
Proof. unfold finishDraft. pres_auto eng_tac; apply notify_pres. Qed.

Lemma produce_pres b r : pres (eng_rel x P) (produce e b r).
Proof. unfold produce. pres_auto eng_tac; apply notify_pres. Qed.

Lemma commit_pres : pres (eng_rel x P) (commit e).
Proof.
  unfold commit, setSource, clearDraftCache. pres_auto eng_tac; apply finishDraft_pres.
Qed.

Lemma set_value_pres v : pres (eng_rel x P) (set_value e v).
Proof.
  unfold set_value, setSource. pres_auto eng_tac; apply produce_pres.
Qed.

Lemma set_state_source_pres v : pres (eng_rel x P) (set_state_source e v).
Proof.
  unfold set_state_source, setSource. pres_auto eng_tac.
Qed.

Lemma patchState_pres ps : pres (eng_rel x P) (patchState e ps).
Proof.
  unfold patchState. pres_auto eng_tac; [apply commit_pres|apply set_state_source_pres].
Qed.

Lemma forkState_pres l : pres (eng_rel x P) (forkState e l).
Proof.
  unfold forkState. pres_auto eng_tac.
  all: first [ apply commit_pres | intros w; apply eng_rel_undou; assumption | assumption ].
Qed.

Hypothesis Hdirty : ok x P e (with_dirty true).
Hypothesis Hpending : ok x P e (with_pending true).

Lemma dye_pres : pres (eng_rel x P) (dye e).
Proof. unfold dye. pres_auto eng_tac; apply commit_pres. Qed.

Lemma run_write_in_pres wo : pres (eng_rel x P) (run_write_in e wo).
Proof.
  destruct wo; simpl;
    unfold proxy_set, proxy_deleteProperty, proxy_defineProperty, proxy_setPrototypeOf,
      proxy_preventExtensions;
    pres_auto eng_tac;
    try apply dye_pres;
    try (apply reflect_write_pres; [typeclasses eauto|]; intros d);
    unfold draft_delete, draft_set, record, draft_defineProperty, draft_setPrototypeOf,
      draft_preventExtensions; pres_auto eng_tac.
Qed.

End EngOps.

(** *** Events on other engines *)

Section StepFrame.
Context `{PP : PatchPrimitive} (x : nat) (P : relation engine) `{!PreOrder P}.
Hypothesis HPd : forall d en, P en (with_draft d en).
Hypothesis HPp : forall pv en, P en (with_proxied pv en).
Import Props.

Lemma ok_other e g : e <> x -> ok x P e g.
Proof. intros H. left. exact H. Qed.

Ltac other := intros; apply ok_other; assumption.

Lemma step_frame w ev : ~ targets w ev x -> eng_rel x P w (snd (step ev w)).
Proof.
  intros Ht. destruct ev as [v l s|r|wo|e v|e|e ps|e l|]; simpl in Ht.
  - simpl. unfold bind. simpl. apply eng_rel_app; assumption.
  - simpl. apply eng_view_pres; try assumption. intros R HR. apply run_read_pres; assumption.
  - simpl. unfold run_write, bind, get_proxy.
    destruct (proxies w !! write_target wo) as [px|] eqn:Hpx; simpl;
      [|reflexivity].
    assert (Hne : px_engine px <> x) by (intros <-; apply Ht; eauto).
    pose proof (run_write_in_pres x P HPd HPp (px_engine px) ltac:(other) ltac:(other)
                  ltac:(other) ltac:(other) ltac:(other) ltac:(other) wo w) as H.
    destruct (run_write_in (px_engine px) wo w) as [[]] ; simpl in *; exact H.
  - apply set_value_pres; try assumption; other.
  - apply commit_pres; try assumption; other.
  - apply patchState_pres; try assumption; other.
  - simpl. pose proof (forkState_pres x P HPd HPp e ltac:(other) ltac:(other)
                  ltac:(other) ltac:(other) l w) as H.
    unfold bind. destruct (forkState e l w) as [[]]; simpl in *; exact H.
  - simpl. unfold run_microtask. destruct (microtasks w) as [|e rest] eqn:Hq; [reflexivity|].
    simpl in Ht. assert (Hne : e <> x) by congruence.
    etrans; [apply (eng_rel_same x P w (drafts w) (proxies w) rest (log w))|].
    apply (pres_bind (eng_rel x P)).
    + apply commit_pres; try assumption; other.
    + intros []. apply pres_update_engine. intros. apply eng_rel_alter; [assumption|]. other.
Qed.

Lemma exec_frame evs w : avoids x evs w -> eng_rel x P w (exec evs w).
Proof.
  revert w. induction evs as [|ev evs IH]; intros w Hav; simpl.
  - reflexivity.
  - destruct Hav as [Ht Hr]. etrans; [apply step_frame; exact Ht|]. apply IH. exact Hr.
Qed.

End StepFrame.

(** *** Reads are quiet *)

Section Quiet.
Context `{PP : PatchPrimitive}.

#[export] Instance same_core_preorder : PreOrder same_core.
Proof.
  unfold same_core. split; [intros ?; reflexivity|]. intros ? ? ? E1 E2. congruence.
Qed.

#[export] Instance quiet_preorder : PreOrder quiet.
Proof.
  split.
  - intros w. split; [|split; [|split]]; try reflexivity.
  - intros w1 w2 w3 (H12 & L12 & Q12 & G12) (H23 & L23 & Q23 & G23).
    split; [|split; [|split]]; try congruence.
    intros x. pose proof (@eng_rel_preorder x same_core same_core_preorder) as Hp.
    etrans; [apply H12|apply H23].
Qed.

#[export] Instance quiet_view : ViewStable quiet.
Proof.
  split.
  - apply quiet_preorder.
  - intros w ds ps. split; [|split; [|split]]; try reflexivity.
    intros x. apply eng_rel_same. apply same_core_preorder.
  - intros w e d. split; [|split; [|split]]; simpl; try reflexivity.
    + intros x. apply eng_rel_alter; [apply same_core_preorder|right; intros ?; reflexivity].
    + apply length_alter.
  - intros w e pv. split; [|split; [|split]]; simpl; try reflexivity.
    + intros x. apply eng_rel_alter; [apply same_core_preorder|right; intros ?; reflexivity].
    + apply length_alter.
Qed.

End Quiet.

(** *** Monad laws used to split the write traps *)

Lemma bind_assoc {A B C} (m : M A) (k1 : A -> M B) (k2 : B -> M C) w :
  bind (bind m k1) k2 w = bind m (fun a => bind (k1 a) k2) w.
Proof. unfold bind. destruct (m w) as [[a|x] w']; reflexivity. Qed.

Ltac split_binds :=
  unfold bind;
  repeat match goal with
         | |- context [match ?m ?w with _ => _ end] =>
             let o := fresh "o" in let w' := fresh "w" in
             destruct (m w) as [[o|o] w']
         end;
  reflexivity.

Section Writes.
Context `{PP : PatchPrimitive}.

(** Every write trap performs view operations, then [dye] of its engine,
    then a step that leaves the world as it is (it may throw). *)
Lemma run_write_in_shape e wo :
  exists (pre : M bool) (post : bool -> M bool),
    (forall R, ViewStable R -> pres R pre) /\ (forall r w, snd (post r w) = w) /\
    forall w, run_write_in e wo w = bind pre (fun r => bind (dye e) (fun _ => post r)) w.
Proof.
  destruct wo as [p k v|p k|p k v|p|p]; simpl.
  - exists (let* _ := clearProxyCatch p k in
            let* x := match v with HProxy q => sub_draft q | HPlain u => ret (JPlain u) end in
            let* t := sub_draft p in
            reflect_write t (fun d => draft_set d k x)), ret.
    split; [|split; [reflexivity|]].
    + intros R HR. pres_auto idtac. apply reflect_write_pres; [assumption|].
      intros d. unfold draft_set, record. pres_auto ltac:(apply vs_heap).
    + intros w. unfold proxy_set. split_binds.
  - exists (let* _ := clearProxyCatch p k in
            let* t := sub_draft p in
            reflect_write t (fun d => draft_delete d k)), ret.
    split; [|split; [reflexivity|]].
    + intros R HR. pres_auto idtac. apply reflect_write_pres; [assumption|].
      intros d. unfold draft_delete, draft_set, record. pres_auto ltac:(apply vs_heap).
    + intros w. unfold proxy_deleteProperty. split_binds.
  - exists (let* _ := clearProxyCatch p k in
            let* t := sub_draft p in
            reflect_write t (fun d => draft_defineProperty d k v)), ret.
    split; [|split; [reflexivity|]].
    + intros R HR. pres_auto idtac. apply reflect_write_pres; [assumption|].
      intros d. unfold draft_defineProperty. pres_auto idtac.
    + intros w. unfold proxy_defineProperty. split_binds.
  - exists (let* t := sub_draft p in reflect_write t draft_setPrototypeOf), ret.
    split; [|split; [reflexivity|]].
    + intros R HR. pres_auto idtac. apply reflect_write_pres; [assumption|].
      intros d. unfold draft_setPrototypeOf. pres_auto idtac.
    + intros w. unfold proxy_setPrototypeOf. split_binds.
  - exists (let* t := sub_draft p in
            match t with
            | JDraft d => draft_preventExtensions d
            | JPlain v => if isObject v then ret true else throw TypeError
            end), (fun r : bool => if r then throw TypeError else ret r : M bool).
    split; [|split].
    + intros R HR. pres_auto idtac.
      unfold draft_preventExtensions. pres_auto ltac:(apply vs_heap).
    + intros [] w; reflexivity.
    + intros w. unfold proxy_preventExtensions. split_binds.
Qed.

Lemma bind_ext_l {A B} (m m' : M A) (k : A -> M B) w :
  (forall w, m w = m' w) -> bind m k w = bind m' k w.
Proof. intros H. unfold bind. rewrite H. reflexivity. Qed.

Lemma lookup_alter_eq {T} (g : T -> T) (l : list T) i :
  alter g i l !! i = option_map g (l !! i).
Proof.
  rewrite list_lookup_alter. rewrite decide_True by reflexivity.
  destruct (l !! i); reflexivity.
Qed.

#[export] Instance eng_rel_core_view x : ViewStable (eng_rel x same_core).
Proof.
  split.
  - apply eng_rel_preorder. apply same_core_preorder.
  - intros. apply eng_rel_same. apply same_core_preorder.
  - intros. apply eng_rel_alter; [apply same_core_preorder|right; intros ?; reflexivity].
  - intros. apply eng_rel_alter; [apply same_core_preorder|right; intros ?; reflexivity].
Qed.

(** [dye] under the default scheduler: the engine is dirty afterwards and
    the write completes. *)
Lemma dye_default w x en :
  engines w !! x = Some en -> scheduler en = DefaultScheduler ->
  fst (dye x w) = Ok tt /\ dirty_at x (snd (dye x w)) = Some true.
Proof.
  intros H Hs. unfold dye, bind, update_engine, get_engine. simpl.
  rewrite lookup_alter_eq, H. simpl. rewrite Hs.
  destruct (pendingPromise en); simpl.
  - unfold dirty_at. simpl. rewrite lookup_alter_eq, H. split; reflexivity.
  - unfold dirty_at. simpl. rewrite !lookup_alter_eq, H. split; reflexivity.
Qed.

(** An intercepted write through a wrapper of an engine with the default
    scheduler either leaves the engine dirty, or throws with the engine's
    core untouched. *)
Lemma write_via_default w wo px en :
  proxies w !! write_target wo = Some px -> engines w !! px_engine px = Some en ->
  scheduler en = DefaultScheduler ->
  dirty_at (px_engine px) (snd (step (EvWrite wo) w)) = Some true \/
  (fst (step (EvWrite wo) w) <> Ok tt /\
   eng_rel (px_engine px) same_core w (snd (step (EvWrite wo) w))).
Proof.
  intros Hpx Hen Hs. set (x := px_engine px).
  destruct (run_write_in_shape x wo) as (pre & post & Hpre & Hpost & Heq).
  assert (Hstep : step (EvWrite wo) w =
            bind (bind pre (fun r => bind (dye x) (fun _ => post r))) (fun _ => ret tt) w).
  { simpl. unfold run_write. unfold bind at 1. unfold get_proxy. rewrite Hpx. simpl.
    apply bind_ext_l. exact Heq. }
  rewrite Hstep. clear Hstep.
  pose proof (Hpre (eng_rel x same_core) _ w) as Hrel.
  unfold bind. destruct (pre w) as [[r|err] w1] eqn:E; simpl in *.
  - destruct (Hrel en Hen) as (en1 & H1 & Hc1).
    assert (Hs1 : scheduler en1 = DefaultScheduler).
    { unfold same_core, core in Hc1. simplify_eq. congruence. }
    destruct (dye_default w1 x en1 H1 Hs1) as [Hok Hd].
    destruct (dye x w1) as [[[]|err] w2]; simpl in *; [|discriminate].
    left. specialize (Hpost r w2).
    destruct (post r w2) as [[?|?] w3]; simpl in *; subst w3; exact Hd.
  - right. split; [discriminate|exact Hrel].
Qed.

End Writes.

(** *** The number of engines *)

Section Len.
Context `{PP : PatchPrimitive}.

#[export] Instance same_len_preorder : PreOrder same_len.
Proof. unfold same_len. split; [intros ?; reflexivity|intros ? ? ? ? ?; congruence]. Qed.

#[export] Instance same_len_view : ViewStable same_len.
Proof.
  split; [apply same_len_preorder| | |]; intros; unfold same_len; simpl;
    try reflexivity; apply length_alter.
Qed.

Ltac len_tac := unfold same_len; simpl; first [reflexivity | apply length_alter].

Lemma notify_len e ps ips : pres same_len (notify e ps ips).
Proof. unfold notify. pres_auto len_tac. Qed.
Hint Resolve notify_len : pres.

Lemma finishDraft_len e d : pres same_len (finishDraft e d).
Proof. unfold finishDraft. pres_auto len_tac. Qed.
Hint Resolve finishDraft_len : pres.

Lemma commit_len e : pres same_len (commit e).
Proof. unfold commit, setSource, clearDraftCache. pres_auto len_tac. Qed.
Hint Resolve commit_len : pres.

Lemma dye_len e : pres same_len (dye e).
Proof. unfold dye. pres_auto len_tac. Qed.
Hint Resolve dye_len : pres.

Lemma set_value_len e v : pres same_len (set_value e v).
Proof. unfold set_value, produce, setSource. pres_auto len_tac. Qed.

Lemma patchState_len e ps : pres same_len (patchState e ps).
Proof. unfold patchState, set_state_source, setSource. pres_auto len_tac. Qed.

Lemma run_write_in_len e wo : pres same_len (run_write_in e wo).
Proof.
  intros w. destruct (run_write_in_shape e wo) as (pre & post & Hpre & Hpost & Heq).
  specialize (Hpre same_len _).
  assert (Hp : forall r, pres same_len (post r)) by (intros r w'; rewrite Hpost; reflexivity).
  assert (Hb : pres same_len (bind pre (fun r => bind (dye e) (fun _ => post r))))
    by pres_auto len_tac.
  rewrite Heq. apply Hb.
Qed.

Lemma run_microtask_len : pres same_len run_microtask.
Proof.
  intros w. unfold run_microtask. destruct (microtasks w) as [|e rest]; [reflexivity|].
  etrans; [|apply (pres_bind same_len); [apply commit_len|intros []; pres_auto len_tac]].
  reflexivity.
Qed.

End Len.

#[export] Hint Resolve notify_len finishDraft_len commit_len dye_len set_value_len
  patchState_len run_write_in_len run_microtask_len : pres.

(** *** Events and one engine's dirty flag *)

Section StepRel.
Context `{PP : PatchPrimitive} (x : nat) (P : relation engine) `{!PreOrder P}.
Hypothesis HPd : forall d en, P en (with_draft d en).
Hypothesis HPp : forall pv en, P en (with_proxied pv en).
Hypothesis Hcalls : forall n en, P en (with_calls n en).
Hypothesis Hsource : forall v en, P en (with_source v en).
Hypothesis Hkey : forall en, P en (bump_key en).
Hypothesis Hclean : forall en, P en (with_dirty false en).
Hypothesis Hidle : forall en, P en (with_pending false en).

Ltac ok_right := intros; right; intros; auto.

(** Every event but a write through one of [x]'s wrappers relates [x] by
    any [P] that all non-write updates respect. *)
Lemma step_eng_rel w ev : ~ writes_via w ev x -> eng_rel x P w (snd (step ev w)).
Proof.
  intros Hw. destruct ev as [v l s|r|wo|e v|e|e ps|e l|];
    try (apply step_frame; assumption).
  - apply set_value_pres; try assumption; ok_right.
  - apply commit_pres; try assumption; ok_right.
  - apply patchState_pres; try assumption; ok_right.
  - simpl. pose proof (forkState_pres x P HPd HPp e ltac:(ok_right) ltac:(ok_right)
                  ltac:(ok_right) ltac:(ok_right) l w) as H.
    unfold bind. destruct (forkState e l w) as [[]]; simpl in *; exact H.
  - simpl. unfold run_microtask. destruct (microtasks w) as [|e rest] eqn:Hq; [reflexivity|].
    etrans; [apply (eng_rel_same x P w (drafts w) (proxies w) rest (log w))|].
    apply (pres_bind (eng_rel x P)).
    + apply commit_pres; try assumption; ok_right.
    + intros []. apply pres_update_engine. intros. apply eng_rel_alter; [assumption|].
      ok_right.
Qed.

End StepRel.

Section Dirty.
Context `{PP : PatchPrimitive}.

#[export] Instance not_rising_preorder : PreOrder not_rising.
Proof. unfold not_rising. split; [intros ? ?; assumption|intros ? ? ? H1 H2 H; auto]. Qed.

#[export] Instance not_falling_preorder : PreOrder not_falling.
Proof. unfold not_falling. split; [intros ? ?; assumption|intros ? ? ? H1 H2 H; auto]. Qed.

Lemma dirty_rises_only_by_writes w ev x :
  dirty_at x w = Some false -> dirty_at x (snd (step ev w)) = Some true -> writes_via w ev x.
Proof.
  intros H0 H1. unfold dirty_at in *.
  destruct (engines w !! x) as [en|] eqn:E; [|discriminate]. simpl in H0.
  assert (Hw : ~ ~ writes_via w ev x).
  { intros Hn.
    assert (Hr : eng_rel x not_rising w (snd (step ev w))).
    { apply step_eng_rel; try assumption; try apply not_rising_preorder;
        unfold not_rising; simpl; auto. }
    destruct (Hr en E) as (en' & E' & Hd). rewrite E' in H1. simpl in H1.
    injection H0 as H0. injection H1 as H1. unfold not_rising in Hd. rewrite Hd in H1 by exact H0.
    discriminate. }
  destruct ev as [v l s|r|wo|e v|e|e ps|e l|]; simpl in *; try (exfalso; apply Hw; tauto).
  destruct (proxies w !! write_target wo) as [px|] eqn:Hpx.
  - destruct (decide (px_engine px = x)) as [Hx|Hx]; [eauto|].
    exfalso. apply Hw. intros (px' & Hpx' & Hx'). congruence.
  - exfalso. apply Hw. intros (px' & Hpx' & _). congruence.
Qed.

Lemma dirty_falls_only_by_commit w ev x :
  dirty_at x w = Some true -> dirty_at x (snd (step ev w)) = Some false ->
  (exists v, ev = EvSetValue x v) \/ commit_runs w ev x.
Proof.
  intros H0 H1. unfold dirty_at in *.
  destruct (engines w !! x) as [en|] eqn:E; [|discriminate]. simpl in H0.
  injection H0 as H0.
  assert (Hfall : forall w', eng_rel x not_falling w w' ->
                    option_map isDirty (engines w' !! x) = Some false -> False).
  { intros w' Hr Hw'. destruct (Hr en E) as (en' & E' & Hd). rewrite E' in Hw'.
    simpl in Hw'. injection Hw' as Hw'. unfold not_falling in Hd. rewrite Hd in Hw' by exact H0.
    discriminate. }
  assert (Hframe : ~ targets w ev x -> False).
  { intros Ht. apply (Hfall (snd (step ev w))); [|exact H1].
    apply step_frame; try assumption; try apply not_falling_preorder;
      unfold not_falling; simpl; auto. }
  destruct ev as [v l s|r|wo|e v|e|e ps|e l|]; cbn [targets commit_runs writes_via] in *.
  - exfalso. apply Hframe. tauto.
  - exfalso. apply Hframe. tauto.
  - destruct (proxies w !! write_target wo) as [px|] eqn:Hpx;
      [|exfalso; apply Hframe; intros (px' & Hpx' & _); congruence].
    destruct (decide (px_engine px = x)) as [<-|Hx];
      [|exfalso; apply Hframe; intros (px' & Hpx' & Hx'); congruence].
    destruct (scheduler en) eqn:Hs.
    + exfalso.
      destruct (write_via_default w wo px en Hpx E Hs) as [Hd|[_ Hr]].
      * unfold dirty_at in Hd. rewrite Hd in H1. discriminate.
      * destruct (Hr en E) as (en' & E' & Hc). rewrite E' in H1. simpl in H1.
        unfold same_core, core in Hc. simplify_eq. congruence.
    + right. eauto 7.
  - destruct (decide (e = x)) as [->|Hx]; [eauto|].
    exfalso. apply Hframe. congruence.
  - right. destruct (decide (e = x)) as [->|Hx]; [reflexivity|].
    exfalso. apply Hframe. congruence.
  - right. destruct (decide (e = x)) as [->|Hx]; [reflexivity|].
    exfalso. apply Hframe. congruence.
  - right. destruct (decide (e = x)) as [->|Hx]; [reflexivity|].
    exfalso. apply Hframe. congruence.
  - right. destruct (decide (head (microtasks w) = Some x)) as [Hh|Hh]; [exact Hh|].
    exfalso. apply Hframe. exact Hh.
Qed.

(** Engines only appear through [undou], with a clean dirty flag. *)
Lemma dirty_new_engine_clean w ev x b :
  dirty_at x w = None -> dirty_at x (snd (step ev w)) = Some b -> b = false.
Proof.
  intros H0 H1. unfold dirty_at in *.
  destruct (engines w !! x) as [en|] eqn:E; [discriminate|]. clear H0.
  apply lookup_ge_None in E.
  assert (Hlen : forall w', same_len w w' -> option_map isDirty (engines w' !! x) = Some b -> False).
  { intros w' Hl Hw'. unfold same_len in Hl. rewrite lookup_ge_None_2 in Hw' by lia.
    discriminate. }
  destruct ev as [v l s|r|wo|e v|e|e ps|e l|]; simpl in *.
  - unfold bind, undou in H1. simpl in H1.
    destruct (decide (x = length (engines w))) as [->|Hx].
    + rewrite lookup_app_r, Nat.sub_diag in H1 by lia. simpl in H1. congruence.
    + rewrite lookup_ge_None_2 in H1 by (rewrite length_app; simpl; lia). discriminate.
  - exfalso. eapply Hlen; [exact (run_read_pres same_len r w)|exact H1].
  - exfalso. eapply Hlen; [|exact H1].
    assert (Hp : pres same_len (run_write wo)).
    { unfold run_write. pres_auto idtac. }
    exact (Hp w).
  - exfalso. eapply Hlen; [exact (set_value_len e v w)|exact H1].
  - exfalso. eapply Hlen; [exact (commit_len e w)|exact H1].
  - exfalso. eapply Hlen; [exact (patchState_len e ps w)|exact H1].
  - unfold bind, forkState in H1. pose proof (commit_len e w) as Hc.
    unfold bind in H1. destruct (commit e w) as [[[]|err] w1]; simpl in *;
      [|unfold same_len in Hc; rewrite lookup_ge_None_2 in H1 by lia; discriminate].
    unfold get_engine in H1. destruct (engines w1 !! e) as [en1|]; simpl in *;
      [|unfold same_len in Hc; rewrite lookup_ge_None_2 in H1 by lia; discriminate].
    unfold same_len in Hc.
    destruct (decide (x = length (engines w1))) as [->|Hx].
    + rewrite lookup_app_r, Nat.sub_diag in H1 by lia. simpl in H1. congruence.
    + rewrite lookup_ge_None_2 in H1 by (rewrite length_app; simpl; lia). discriminate.
  - exfalso. eapply Hlen; [exact (run_microtask_len w)|exact H1].
Qed.

End Dirty.

(** *** [commit], [produce], [patchState], [forkState] *)

Section Ops.
Context `{PP : PatchPrimitive}.

#[export] Instance same_state_preorder : PreOrder same_state.
Proof.
  unfold same_state. split; [intros ?; auto|].
  intros ? ? ? (? & ? & ?) (? & ? & ?). split; [|split]; congruence.
Qed.

Lemma finishDraft_state e d : pres (eng_rel e same_state) (finishDraft e d).
Proof.
  unfold finishDraft, live_draft, notify.
  pres_auto ltac:(first [ apply eng_rel_same; apply same_state_preorder
                        | apply eng_rel_alter; [apply same_state_preorder|];
                          right; intros ?; unfold same_state; simpl; auto ]).
Qed.

(** A commit that throws has thrown from the listener call inside
    [finishDraft]: the engine's Snapshot, Draft pointer and dirty flag are
    as before. *)
Lemma commit_err_state w e en x :
  engines w !! e = Some en -> fst (commit e w) = Err x ->
  isDirty en = true /\ draft en <> None /\
  exists en', engines (snd (commit e w)) !! e = Some en' /\ same_state en en'.
Proof.
  intros E Hx. unfold commit in *. unfold bind at 1 in Hx. unfold bind at 1.
  unfold get_engine in *. rewrite E in *. simpl in *.
  destruct (isDirty en) eqn:Hd; simpl in *; [|discriminate].
  destruct (draft en) as [d|] eqn:Hdr; simpl in *; [|discriminate].
  split; [reflexivity|]. split; [discriminate|].
  pose proof (finishDraft_state e d w en E) as (en' & E' & Hs).
  unfold bind in *. destruct (finishDraft e d w) as [[r|y] w1]; simpl in *.
  - discriminate.
  - exists en'. split; [exact E'|]. unfold same_state in *.
    destruct Hs as (? & ? & ?). split; [|split]; congruence.
Qed.

Lemma notify_log_cases e ps ips w en l :
  engines w !! e = Some en -> patchListener en = Some l ->
  log (snd (notify e ps ips w)) =
    app (log w) (match ps, ips with [], [] => [] | _, _ => [(e, ps, ips)] end).
Proof.
  intros E Hl. unfold notify, bind, get_engine. rewrite E. simpl. rewrite Hl.
  destruct ps, ips; simpl; try (rewrite app_nil_r; reflexivity);
    destruct (throws_on l (calls en)); reflexivity.
Qed.

(** The recipe of the [value] setter replaces the root. *)
Lemma produce_setter e base v w :
  produce e base (match v with VUndef => RNothing | v => RValue v end) w =
  (let* _ := notify e [mkPatch OpReplace [] (Some v)] [mkPatch OpReplace [] (Some base)] in
   ret v) w.
Proof. unfold produce. destruct (draftable base), v; reflexivity. Qed.

Lemma set_value_log e v w en l :
  engines w !! e = Some en -> patchListener en = Some l ->
  log (snd (set_value e v w)) =
    app (log w) [(e, [mkPatch OpReplace [] (Some v)], [mkPatch OpReplace [] (Some (source en))])].
Proof.
  intros E Hl. unfold set_value. unfold bind at 1. simpl.
  set (w1 := mkWorld _ _ _ _ _).
  assert (E1 : engines w1 !! e = Some (with_proxied PInvalid en))
    by (simpl; rewrite lookup_alter_eq, E; reflexivity).
  unfold bind at 1. unfold get_engine at 1. rewrite E1. simpl.
  unfold bind at 1. rewrite produce_setter.
  pose proof (notify_log_cases e [mkPatch OpReplace [] (Some v)]
                [mkPatch OpReplace [] (Some (source en))] w1 _ l E1 Hl) as Hn.
  unfold bind. destruct (notify e _ _ w1) as [[[]|y] w2] eqn:N; simpl in *; exact Hn.
Qed.

Lemma commit_log e w en d n r l :
  engines w !! e = Some en -> isDirty en = true -> draft en = Some d ->
  drafts w !! d = Some n -> dn_revoked n = false ->
  materialize (S (length (drafts w))) (drafts w) d = Some r ->
  patchListener en = Some l ->
  log (snd (commit e w)) =
    app (log w) (match generate_patches (drafts w) d with
                 | ([], []) => []
                 | (ps, ips) => [(e, ps, ips)]
                 end).
Proof.
  intros E Hd Hdr Hn Hr Hm Hl.
  unfold commit, finishDraft, live_draft, current_value, draft_patches, notify, bind, get_engine,
    get_draft, revoke_scope, append_log, update_engine, setSource, clearDraftCache, ret, throw.
  rewrite E. cbn -[materialize generate_patches]. rewrite Hd, Hdr. cbn -[materialize generate_patches].
  rewrite Hn. cbn -[materialize generate_patches]. rewrite Hr. cbn -[materialize generate_patches].
  rewrite Hm. cbn -[generate_patches].
  destruct (generate_patches (drafts w) d) as [ps ips]. simpl. rewrite E. simpl. rewrite Hl.
  destruct ps, ips; simpl; try (rewrite app_nil_r; reflexivity);
    destruct (throws_on l (calls en)); reflexivity.
Qed.

(** A commit that returns normally leaves a clean engine, unless there
    was no Draft to finalize. *)
Lemma commit_ok_clean w e en :
  engines w !! e = Some en -> fst (commit e w) = Ok tt ->
  (isDirty en = false \/ draft en <> None) ->
  dirty_at e (snd (commit e w)) = Some false.
Proof.
  intros E Hok Hc. unfold commit in *. unfold bind at 1 in Hok. unfold bind at 1.
  unfold get_engine in *. rewrite E in *. simpl in *.
  destruct (isDirty en) eqn:Hd; simpl in *.
  - destruct (draft en) as [d|] eqn:Hdr; [|destruct Hc as [Hc|Hc]; congruence].
    pose proof (finishDraft_state e d w en E) as (en1 & E1 & _).
    unfold bind in *. destruct (finishDraft e d w) as [[r|y] w1]; simpl in *; [|discriminate].
    unfold dirty_at. simpl. rewrite !lookup_alter_eq, E1. reflexivity.
  - unfold dirty_at. rewrite E. simpl. rewrite Hd. reflexivity.
Qed.

Lemma commit_noop e w en :
  engines w !! e = Some en -> isDirty en = false \/ draft en = None -> commit e w = (Ok tt, w).
Proof.
  intros H Hc. unfold commit, bind at 1, get_engine. rewrite H. cbv beta iota.
  destruct (isDirty en); [|reflexivity]. destruct Hc as [Hc|Hc]; [discriminate|].
  simpl. rewrite Hc. reflexivity.
Qed.

Lemma commit_ok_exists w e en :
  engines w !! e = Some en -> exists en', engines (snd (commit e w)) !! e = Some en'.
Proof.
  intros E. pose proof (commit_pres e not_rising (fun _ _ H => H) (fun _ _ H => H) e
    ltac:(intros; right; intros ? H; exact H) ltac:(intros; right; intros ? H; exact H)
    ltac:(right; intros ? H; exact H) ltac:(right; intros ? H; reflexivity) w en E)
    as (en' & E' & _).
  eauto.
Qed.

Lemma patchState_ok e ps w w' :
  patchState e ps w = (Ok tt, w') ->
  fst (commit e w) = Ok tt /\
  exists enc s, engines (snd (commit e w)) !! e = Some enc /\ apply_patches (source enc) ps = Some s /\
    w' = mkWorld (alter (with_source s) e (alter (with_proxied PInvalid) e (engines (snd (commit e w)))))
           (drafts (snd (commit e w))) (proxies (snd (commit e w)))
           (microtasks (snd (commit e w))) (log (snd (commit e w))).
Proof.
  unfold patchState, bind. destruct (commit e w) as [[[]|y] wc]; simpl; [|discriminate].
  unfold get_engine. destruct (engines wc !! e) as [enc|] eqn:E; simpl; [|discriminate].
  destruct (apply_patches (source enc) ps) as [s|] eqn:A; simpl; [|discriminate].
  intros H. injection H as <-. split; [reflexivity|]. exists enc, s. auto.
Qed.

Lemma forkState_ok e l w f w' :
  forkState e l w = (Ok f, w') ->
  fst (commit e w) = Ok tt /\ f = length (engines w) /\
  exists enc, engines (snd (commit e w)) !! e = Some enc /\
    w' = mkWorld (app (engines (snd (commit e w)))
                    [mkEngine (source enc) PInvalid None 0 false false l DefaultScheduler 0])
           (drafts (snd (commit e w))) (proxies (snd (commit e w)))
           (microtasks (snd (commit e w))) (log (snd (commit e w))).
Proof.
  pose proof (commit_len e w) as Hl. unfold same_len in Hl.
  unfold forkState, bind. destruct (commit e w) as [[[]|y] wc]; simpl in *; [|discriminate].
  unfold get_engine. destruct (engines wc !! e) as [enc|] eqn:E; simpl; [|discriminate].
  intros H. injection H as <- <-. split; [reflexivity|]. split; [exact Hl|].
  exists enc. auto.
Qed.

(** Reading [.value] after a root reassignment: a fresh root wrapper over
    a fresh Draft of the Snapshot, or the scalar Snapshot itself. *)
Lemma get_value_fresh w e en :
  engines w !! e = Some en -> proxiedValue en = PInvalid ->
  fst (get_value e w) =
    Ok (if isObject (source en) then HProxy (length (proxies w)) else HPlain (source en)) /\
  (isObject (source en) = true ->
     drafts (snd (get_value e w)) !! length (drafts w) =
       Some (mkDnode (source en) [] (length (drafts w)) false true) /\
     proxies (snd (get_value e w)) !! length (proxies w) =
       Some (mkProxy e [] (RootAccess (length (drafts w))))).
Proof.
  intros E Hp.
  unfold get_value, initProxy, createDraft, draftable, alloc_draft, alloc_proxy, bind,
    get_engine, update_engine, ret, throw.
  rewrite E. simpl. rewrite Hp. rewrite E. simpl.
  destruct (isObject (source en)) eqn:Ho; simpl.
  - rewrite !lookup_alter_eq, E. simpl. split; [reflexivity|]. intros _.
    rewrite !lookup_app_r by lia. rewrite !Nat.sub_diag. split; reflexivity.
  - rewrite lookup_alter_eq, E. simpl. split; [reflexivity|discriminate].
Qed.

End Ops.

Lemma exec_core_at `{PP : PatchPrimitive} x evs w en :
  engines w !! x = Some en -> avoids x evs w -> core_at x (exec evs w) = Some (core en).
Proof.
  intros E Hav.
  pose proof (exec_frame x same_core (fun _ _ => eq_refl) (fun _ _ => eq_refl) evs w Hav en E)
    as (en' & E' & Hc).
  unfold core_at. rewrite E'. simpl. unfold same_core in Hc. rewrite Hc. reflexivity.
Qed.

(** *** Read-only operations only grow the heaps *)

Section ReadGrow.
Context `{PP : PatchPrimitive}.

Lemma key_eqb_eq a b : key_eqb a b = true <-> a = b.
Proof.
  destruct a as [x|i], b as [y|j]; simpl; split; intros H; try discriminate; try congruence.
  - apply String.eqb_eq in H. congruence.
  - injection H as ->. apply String.eqb_refl.
  - apply Nat.eqb_eq in H. congruence.
  - injection H as ->. apply Nat.eqb_refl.
Qed.

Lemma key_eqb_neq a b : key_eqb a b = false <-> a <> b.
Proof.
  split; intros H.
  - intros ->. assert (key_eqb b b = true) by (apply key_eqb_eq; reflexivity). congruence.
  - destruct (key_eqb a b) eqn:E; [|reflexivity]. apply key_eqb_eq in E. contradiction.
Qed.

#[export] Instance key_eq_dec : EqDecision key.
Proof.
  intros a b. destruct (key_eqb a b) eqn:E.
  - left. apply key_eqb_eq, E.
  - right. apply key_eqb_neq, E.
Defined.

Lemma slot_lookup_replace_other k k' s cs :
  k' <> k -> slot_lookup k' (slot_replace k s cs) = slot_lookup k' cs.
Proof.
  intros Hne. induction cs as [|[k0 s0] cs IH]; simpl; [reflexivity|].
  destruct (key_eqb k k0) eqn:E.
  - apply key_eqb_eq in E. subst k0. simpl.
    assert (key_eqb k' k = false) as -> by (apply key_eqb_neq; exact Hne). reflexivity.
  - simpl. rewrite IH. reflexivity.
Qed.

Lemma slot_lookup_replace_same k s cs :
  slot_lookup k cs <> None -> slot_lookup k (slot_replace k s cs) = Some s.
Proof.
  induction cs as [|[k0 s0] cs IH]; simpl; [congruence|].
  destruct (key_eqb k k0) eqn:E; simpl.
  - rewrite E. reflexivity.
  - rewrite E. exact IH.
Qed.

Lemma slot_lookup_set_other k k' s cs :
  k' <> k -> slot_lookup k' (slot_set k s cs) = slot_lookup k' cs.
Proof.
  intros Hne. unfold slot_set.
  destruct (slot_lookup k cs) as [[d0|x0|]|]; simpl;
    try (assert (key_eqb k' k = false) as -> by (apply key_eqb_neq; exact Hne); reflexivity).
  all: apply slot_lookup_replace_other; exact Hne.
Qed.

Lemma slot_lookup_set_same k s cs : slot_lookup k (slot_set k s cs) = Some s.
Proof.
  unfold slot_set. destruct (slot_lookup k cs) as [[d0|x0|]|] eqn:E; simpl;
    try (assert (key_eqb k k = true) as -> by (apply key_eqb_eq; reflexivity); reflexivity).
  all: apply slot_lookup_replace_same; congruence.
Qed.

Lemma ctx_lookup_cons_same k c ctx : ctx_lookup k ((k, c) :: ctx) = Some c.
Proof.
  simpl. assert (key_eqb k k = true) as -> by (apply key_eqb_eq; reflexivity). reflexivity.
Qed.

Lemma ctx_lookup_cons_other k k' c ctx :
  k' <> k -> ctx_lookup k' ((k, c) :: ctx) = ctx_lookup k' ctx.
Proof.
  intros Hne. simpl. assert (key_eqb k' k = false) as -> by (apply key_eqb_neq; exact Hne).
  reflexivity.
Qed.

(** **** [read_grow] is a preorder *)

Lemma root_kept_refl w p px : root_kept w p px px.
Proof.
  unfold root_kept. destruct (px_access px) as [c|]; [|exact I].
  exists c. split; [reflexivity|]. intros; reflexivity.
Qed.

Lemma px_grow_refl w p px : px_grow w p px px.
Proof.
  split; [reflexivity|]. split; [intros k c H; exact H|].
  split; [apply root_kept_refl|]. intros _; reflexivity.
Qed.

Lemma eng_grow_refl w en : eng_grow w en en.
Proof.
  split; [reflexivity|]. split; [left; reflexivity|]. intros q d _ Hd; exact Hd.
Qed.

Lemma dn_grow_refl n : dn_grow n n.
Proof. split; [reflexivity|]. split; [reflexivity|]. intros k s H; exact H. Qed.

Lemma read_grow_refl w : read_grow w w.
Proof.
  split; [|split; [|split]].
  - intros x en E. exists en. split; [exact E|apply eng_grow_refl].
  - intros d n E. exists n. split; [exact E|apply dn_grow_refl].
  - intros p px E. exists px. split; [exact E|apply px_grow_refl].
  - lia.
Qed.

(** A wrapper [p] that exists is not the [proxiedValue] an engine gets
    from a read. *)
Lemma proxied_is_kept w p px en en' :
  proxies w !! p = Some px -> eng_grow w en en' ->
  proxied_is p (proxiedValue en) = false -> proxied_is p (proxiedValue en') = false.
Proof.
  intros Hp (_ & V & _) Hpi. destruct V as [V|[V Q]]; [rewrite V; exact Hpi|].
  destruct (proxiedValue en') as [|q|] eqn:Pv; try reflexivity. simpl.
  apply Nat.eqb_neq. specialize (Q q eq_refl). apply lookup_lt_Some in Hp. lia.
Qed.

Lemma read_grow_trans w1 w2 w3 : read_grow w1 w2 -> read_grow w2 w3 -> read_grow w1 w3.
Proof.
  intros (E12 & D12 & P12 & L12) (E23 & D23 & P23 & L23).
  split; [|split; [|split]].
  - intros x en E. destruct (E12 x en E) as (en2 & E2 & K2 & V2 & Dr2).
    destruct (E23 x en2 E2) as (en3 & E3 & K3 & V3 & Dr3).
    exists en3. split; [exact E3|]. split; [congruence|]. split.
    + destruct V2 as [V2|[V2 Q2]], V3 as [V3|[V3 Q3]].
      * left; congruence.
      * right. split; [congruence|]. intros q Hq. specialize (Q3 q Hq). lia.
      * right. split; [exact V2|]. intros q Hq. apply Q2. congruence.
      * right. split; [exact V2|]. intros q Hq. specialize (Q3 q Hq). lia.
    + intros q d Hq Hd. destruct V2 as [V2|[V2 _]]; [|congruence].
      apply (Dr3 q d); [congruence|]. exact (Dr2 q d Hq Hd).
  - intros d n E. destruct (D12 d n E) as (n2 & E2 & B2 & R2 & S2).
    destruct (D23 d n2 E2) as (n3 & E3 & B3 & R3 & S3).
    exists n3. split; [exact E3|]. split; [congruence|]. split; [congruence|].
    intros k s H. apply S3, S2, H.
  - intros p px E. destruct (P12 p px E) as (px2 & E2 & G2 & C2 & K2 & S2).
    destruct (P23 p px2 E2) as (px3 & E3 & G3 & C3 & K3 & S3).
    exists px3. split; [exact E3|]. split; [congruence|].
    split; [intros k c H; apply C3, C2, H|]. split.
    + unfold root_kept in *. destruct (px_access px) as [c|] eqn:A; [|exact I].
      destruct K2 as (c2 & A2 & H2). rewrite A2 in K3. destruct K3 as (c3 & A3 & H3).
      exists c3. split; [exact A3|]. intros en Een Hpi.
      destruct (E12 _ _ Een) as (en2 & Een2 & Gr).
      rewrite G2 in H3. rewrite (H3 en2 Een2 (proxied_is_kept w1 p px en en2 E Gr Hpi)).
      exact (H2 en Een Hpi).
    + intros Hs. assert (A2 := S2 Hs). rewrite <- A2. apply S3.
      unfold child_settled in *. rewrite A2, G2.
      destruct (px_access px); [contradiction|].
      destruct Hs as (en & Een & Hc). destruct (E12 _ _ Een) as (en2 & Een2 & K & _).
      exists en2. split; [exact Een2|]. rewrite K. exact Hc.
  - lia.
Qed.

#[export] Instance read_grow_preorder : PreOrder read_grow.
Proof. split; [intros w; apply read_grow_refl|intros w1 w2 w3; apply read_grow_trans]. Qed.

(** **** What stays settled *)

Lemma px_settled_grow w w' p x : read_grow w w' -> px_settled w p x -> px_settled w' p x.
Proof.
  intros (E & _ & P & _) (px & en & Hp & He & H).
  destruct (P p px Hp) as (px' & Hp' & G & _ & K & S).
  destruct (E _ _ He) as (en' & He' & Gr). pose proof Gr as (Kk & V & Dr).
  exists px', en'. split; [exact Hp'|]. split; [rewrite G; exact He'|].
  unfold root_kept, child_settled in *. destruct (px_access px) as [c|pa k en0 ck cv] eqn:A.
  - destruct K as (c' & A' & Hc). rewrite A'.
    destruct (proxied_is p (proxiedValue en)) eqn:Hpi.
    + destruct (proxiedValue en) as [|q|] eqn:Pv; simpl in Hpi; try discriminate.
      apply Nat.eqb_eq in Hpi. subst q.
      destruct V as [V|[V _]]; [|discriminate]. rewrite V. simpl. rewrite Nat.eqb_refl.
      destruct H as (d & Hd & ->). exists d. split; [exact (Dr _ d eq_refl Hd)|reflexivity].
    + rewrite (proxied_is_kept w p px en en' Hp Gr Hpi). rewrite (Hc en He Hpi). exact H.
  - destruct H as [Hs ->]. rewrite S by (exists en; split; [exact He|exact Hs]).
    split; [rewrite Kk; exact Hs|reflexivity].
Qed.

Lemma draft_settled_grow w w' d k c :
  read_grow w w' -> draft_settled w d k c -> draft_settled w' d k c.
Proof.
  intros (_ & D & _ & _) (n & Hn & Hr & Ha & Hs). destruct (D d n Hn) as (n' & Hn' & B & R & S).
  exists n'. split; [exact Hn'|]. split; [congruence|].
  split; [unfold is_array_length in *; rewrite B; exact Ha|].
  destruct Hs as [Hs|Hs]; [left|right]; apply S, Hs.
Qed.

Lemma ctx_at_grow w w' p k c : read_grow w w' -> ctx_at w p k = Some c -> ctx_at w' p k = Some c.
Proof.
  intros (_ & _ & P & _). unfold ctx_at. destruct (proxies w !! p) as [px|] eqn:Hp; [|discriminate].
  intros H. destruct (P p px Hp) as (px' & -> & _ & C & _). apply C, H.
Qed.

Lemma chain_grow w w' p ks q : read_grow w w' -> chain w p ks q -> chain w' p ks q.
Proof.
  intros Hg. revert p. induction ks as [|k ks IH]; intros p; simpl; [tauto|].
  intros (d & c & p' & H1 & H2 & H3 & H4). exists d, c, p'.
  split; [exact (px_settled_grow w w' p _ Hg H1)|].
  split; [exact (draft_settled_grow w w' d k c Hg H2)|].
  split; [exact (ctx_at_grow w w' p k p' Hg H3)|]. apply IH, H4.
Qed.

Lemma proxied_at_grow w w' e p :
  read_grow w w' -> proxied_at e w = Some (PProxy p) -> proxied_at e w' = Some (PProxy p).
Proof.
  intros (E & _ & _ & _). unfold proxied_at.
  destruct (engines w !! e) as [en|] eqn:He; simpl; [|discriminate]. intros H. injection H as H.
  destruct (E e en He) as (en' & -> & _ & V & _). simpl.
  destruct V as [V|[V _]]; congruence.
Qed.

(** **** The heap updates of the reads *)

Lemma rg_update_engine w x en g :
  engines w !! x = Some en -> eng_grow w en (g en) ->
  read_grow w (mkWorld (alter g x (engines w)) (drafts w) (proxies w) (microtasks w) (log w)).
Proof.
  intros Hx Gr. split; [|split; [|split]]; simpl.
  - intros y eny Hy. destruct (decide (y = x)) as [->|Hne].
    + rewrite Hx in Hy. injection Hy as <-. exists (g en).
      split; [rewrite lookup_alter_eq, Hx; reflexivity|exact Gr].
    + exists eny. rewrite list_lookup_alter_ne by congruence. split; [exact Hy|apply eng_grow_refl].
  - intros d n Hd. exists n. split; [exact Hd|apply dn_grow_refl].
  - intros p px Hp. exists px. split; [exact Hp|].
    split; [reflexivity|]. split; [intros k c H; exact H|]. split; [apply root_kept_refl|].
    intros _. reflexivity.
  - lia.
Qed.

Lemma rg_update_draft w d n f :
  drafts w !! d = Some n -> dn_grow n (f n) ->
  read_grow w (mkWorld (engines w) (alter f d (drafts w)) (proxies w) (microtasks w) (log w)).
Proof.
  intros Hd Gr. split; [|split; [|split]]; simpl.
  - intros y eny Hy. exists eny. split; [exact Hy|apply eng_grow_refl].
  - intros d' n' Hd'. destruct (decide (d' = d)) as [->|Hne].
    + rewrite Hd in Hd'. injection Hd' as <-. exists (f n).
      split; [rewrite lookup_alter_eq, Hd; reflexivity|exact Gr].
    + exists n'. rewrite list_lookup_alter_ne by congruence. split; [exact Hd'|apply dn_grow_refl].
  - intros p px Hp. exists px. split; [exact Hp|apply px_grow_refl].
  - lia.
Qed.

Lemma rg_update_proxy w p px f :
  proxies w !! p = Some px -> px_grow w p px (f px) ->
  read_grow w (mkWorld (engines w) (drafts w) (alter f p (proxies w)) (microtasks w) (log w)).
Proof.
  intros Hp Gr. split; [|split; [|split]]; simpl.
  - intros y eny Hy. exists eny. split; [exact Hy|apply eng_grow_refl].
  - intros d n Hd. exists n. split; [exact Hd|apply dn_grow_refl].
  - intros p' px' Hp'. destruct (decide (p' = p)) as [->|Hne].
    + rewrite Hp in Hp'. injection Hp' as <-. exists (f px).
      split; [rewrite lookup_alter_eq, Hp; reflexivity|exact Gr].
    + exists px'. rewrite list_lookup_alter_ne by congruence. split; [exact Hp'|apply px_grow_refl].
  - rewrite length_alter. lia.
Qed.

Lemma rg_alloc_draft w n :
  read_grow w (mkWorld (engines w) (drafts w ++ [n]) (proxies w) (microtasks w) (log w)).
Proof.
  split; [|split; [|split]]; simpl.
  - intros y eny Hy. exists eny. split; [exact Hy|apply eng_grow_refl].
  - intros d n' Hd. exists n'. split; [|apply dn_grow_refl].
    rewrite lookup_app_l; [exact Hd|]. apply lookup_lt_Some in Hd. exact Hd.
  - intros p px Hp. exists px. split; [exact Hp|apply px_grow_refl].
  - lia.
Qed.

Lemma rg_alloc_proxy w px0 :
  read_grow w (mkWorld (engines w) (drafts w) (proxies w ++ [px0]) (microtasks w) (log w)).
Proof.
  split; [|split; [|split]]; simpl.
  - intros y eny Hy. exists eny. split; [exact Hy|apply eng_grow_refl].
  - intros d n Hd. exists n. split; [exact Hd|apply dn_grow_refl].
  - intros p px Hp. exists px. split; [|apply px_grow_refl].
    rewrite lookup_app_l; [exact Hp|]. apply lookup_lt_Some in Hp. exact Hp.
  - rewrite length_app. lia.
Qed.

(** The nested [subDraft] closure of a wrapper that is not settled may be
    rewritten at will. *)
Lemma rg_unsettled w w3 p px px3 f :
  read_grow w w3 -> proxies w !! p = Some px -> proxies w3 !! p = Some px3 ->
  ~ child_settled w px -> (exists pa k en ck cv, px_access px = ChildAccess pa k en ck cv) ->
  px_engine (f px3) = px_engine px3 -> px_ctx (f px3) = px_ctx px3 ->
  read_grow w (mkWorld (engines w3) (drafts w3) (alter f p (proxies w3)) (microtasks w3) (log w3)).
Proof.
  intros Hg Hp Hp3 Hns Hch Fe Fc. pose proof Hg as (E & D & P & L).
  destruct (P p px Hp) as (px3' & Hp3' & G & C & _ & _). rewrite Hp3 in Hp3'. injection Hp3' as <-.
  split; [|split; [|split]]; simpl.
  - exact E.
  - exact D.
  - intros p' px' Hp'. destruct (decide (p' = p)) as [->|Hne].
    + rewrite Hp in Hp'. injection Hp' as <-. exists (f px3).
      split; [rewrite lookup_alter_eq, Hp3; reflexivity|].
      split; [congruence|]. split; [rewrite Fc; exact C|].
      split; [|intros Hs; contradiction].
      destruct Hch as (pa & k & en & ck & cv & A). unfold root_kept. rewrite A. exact I.
    + rewrite list_lookup_alter_ne by congruence. apply P, Hp'.
  - rewrite length_alter. exact L.
Qed.

(** **** Running the reads *)

Lemma snd_bind {A B} (m : M A) (k : A -> M B) w :
  snd (bind m k w) = match m w with (Ok a, w') => snd (k a w') | (Err _, w') => w' end.
Proof. unfold bind. destruct (m w) as [[a|x] w']; reflexivity. Qed.

Lemma snd_ret {A} (a : A) w : snd (ret a w) = w.
Proof. reflexivity. Qed.

Lemma snd_throw {A} x w : snd (throw (A:=A) x w) = w.
Proof. reflexivity. Qed.

Lemma get_proxy_inv p w px w' : get_proxy p w = (Ok px, w') -> proxies w !! p = Some px /\ w' = w.
Proof. unfold get_proxy. destruct (proxies w !! p); intros H; inversion H; subst; auto. Qed.

Lemma get_engine_inv e w en w' : get_engine e w = (Ok en, w') -> engines w !! e = Some en /\ w' = w.
Proof. unfold get_engine. destruct (engines w !! e); intros H; inversion H; subst; auto. Qed.

Lemma get_draft_inv d w n w' : get_draft d w = (Ok n, w') -> drafts w !! d = Some n /\ w' = w.
Proof. unfold get_draft. destruct (drafts w !! d); intros H; inversion H; subst; auto. Qed.

Lemma live_draft_inv d w n w' :
  live_draft d w = (Ok n, w') -> drafts w !! d = Some n /\ dn_revoked n = false /\ w' = w.
Proof.
  unfold live_draft, bind. destruct (get_draft d w) as [[n0|x] w0] eqn:E; [|discriminate].
  apply get_draft_inv in E as [E ->].
  destruct (dn_revoked n0) eqn:R; unfold throw, ret; intros H; inversion H; subst; auto.
Qed.

Lemma live_draft_world d w : snd (live_draft d w) = w.
Proof.
  unfold live_draft. rewrite snd_bind. destruct (get_draft d w) as [[n|x] w0] eqn:E.
  - apply get_draft_inv in E as [_ ->]. destruct (dn_revoked n); reflexivity.
  - unfold get_draft in E. destruct (drafts w !! d); inversion E; reflexivity.
Qed.

Lemma createDraft_inv b w d w' :
  createDraft b w = (Ok d, w') ->
  d = length (drafts w) /\
  w' = mkWorld (engines w) (drafts w ++ [mkDnode b [] (length (drafts w)) false true])
         (proxies w) (microtasks w) (log w).
Proof.
  unfold createDraft. destruct (draftable b); [|discriminate].
  unfold alloc_draft. intros H. inversion H. auto.
Qed.

Lemma rg_createDraft b w : read_grow w (snd (createDraft b w)).
Proof.
  unfold createDraft. destruct (draftable b); [apply rg_alloc_draft|apply read_grow_refl].
Qed.

Ltac sb a w1 :=
  rewrite ?snd_ret, ?snd_throw, snd_bind;
  lazymatch goal with
  | |- context [match ?t with _ => _ end] =>
      let E := fresh "E" in destruct t as [[a|?] w1] eqn:E
  end; cbv beta iota.

Lemma draft_get_grow d k w : read_grow w (snd (draft_get d k w)).
Proof.
  unfold draft_get. sb n w1; [|rewrite <- (live_draft_world d w), E; apply read_grow_refl].
  apply live_draft_inv in E as (Hd & Hr & ->).
  destruct (is_array_length n k); [rewrite snd_ret; apply read_grow_refl|].
  destruct (slot_lookup k (dn_copy n)) as [[c|x|]|] eqn:Hs; try apply read_grow_refl.
  destruct (vget (dn_base n) k) as [v|]; [|apply read_grow_refl].
  destruct (draftable v); [|apply read_grow_refl].
  sb c w2; [|discriminate]. unfold alloc_draft in E. injection E as <- <-.
  sb u w3; [|discriminate]. unfold update_draft in E. injection E as <- <-. rewrite snd_ret.
  eapply read_grow_trans; [apply (rg_alloc_draft w (mkDnode v [] (dn_scope n) false true))|].
  apply (rg_update_draft (mkWorld (engines w) (drafts w ++ [mkDnode v [] (dn_scope n) false true])
           (proxies w) (microtasks w) (log w)) d n).
  - simpl. rewrite lookup_app_l; [exact Hd|]. apply lookup_lt_Some in Hd. exact Hd.
  - split; [reflexivity|]. split; [reflexivity|]. intros k' s H. simpl.
    destruct (decide (k' = k)) as [->|Hne]; [congruence|].
    rewrite slot_lookup_set_other by exact Hne. exact H.
Qed.

Lemma get_proxy_grow p w : read_grow w (snd (get_proxy p w)).
Proof. unfold get_proxy. destruct (proxies w !! p); apply read_grow_refl. Qed.

Lemma get_engine_grow e w : read_grow w (snd (get_engine e w)).
Proof. unfold get_engine. destruct (engines w !! e); apply read_grow_refl. Qed.

Lemma live_draft_grow d w : read_grow w (snd (live_draft d w)).
Proof. rewrite live_draft_world. apply read_grow_refl. Qed.

Lemma createDraft_eq b w d w' :
  createDraft b w = (Ok d, w') ->
  d = length (drafts w) /\ engines w' = engines w /\
  drafts w' = app (drafts w) [mkDnode b [] (length (drafts w)) false true] /\
  proxies w' = proxies w /\ read_grow w w'.
Proof.
  intros H. apply createDraft_inv in H as [-> ->].
  split; [reflexivity|]. split; [reflexivity|]. split; [reflexivity|]. split; [reflexivity|].
  apply rg_alloc_draft.
Qed.

Lemma update_engine_eq x g w u w' :
  update_engine x g w = (u, w') ->
  engines w' = alter g x (engines w) /\ drafts w' = drafts w /\ proxies w' = proxies w.
Proof. unfold update_engine. intros H. injection H as _ <-. auto. Qed.

Lemma update_engine_grow x g w u w' en :
  update_engine x g w = (u, w') -> engines w !! x = Some en -> eng_grow w en (g en) ->
  read_grow w w'.
Proof. unfold update_engine. intros H. injection H as _ <-. apply rg_update_engine. Qed.

Lemma update_proxy_eq p f w u w' :
  update_proxy p f w = (u, w') ->
  engines w' = engines w /\ drafts w' = drafts w /\ proxies w' = alter f p (proxies w).
Proof. unfold update_proxy. intros H. injection H as _ <-. auto. Qed.

Lemma update_proxy_grow p f w u w' px :
  update_proxy p f w = (u, w') -> proxies w !! p = Some px -> px_grow w p px (f px) ->
  read_grow w w'.
Proof. unfold update_proxy. intros H. injection H as _ <-. apply rg_update_proxy. Qed.

Lemma update_proxy_unsettled w w3 p px px3 f u w4 :
  read_grow w w3 -> update_proxy p f w3 = (u, w4) ->
  proxies w !! p = Some px -> proxies w3 !! p = Some px3 ->
  ~ child_settled w px -> (exists pa k en ck cv, px_access px = ChildAccess pa k en ck cv) ->
  px_engine (f px3) = px_engine px3 -> px_ctx (f px3) = px_ctx px3 ->
  read_grow w w4.
Proof.
  unfold update_proxy. intros G H. injection H as _ <-. apply (rg_unsettled w w3 p px px3 f G).
Qed.

Lemma alloc_proxy_eq px0 w a w' :
  alloc_proxy px0 w = (a, w') ->
  a = Ok (length (proxies w)) /\ engines w' = engines w /\ drafts w' = drafts w /\
  proxies w' = app (proxies w) [px0] /\ read_grow w w'.
Proof.
  unfold alloc_proxy. intros H. injection H as <- <-.
  split; [reflexivity|]. split; [reflexivity|]. split; [reflexivity|]. split; [reflexivity|].
  apply rg_alloc_proxy.
Qed.

(** [initProxy] allocates the root wrapper and makes it the
    [proxiedValue]. *)
Lemma init_proxied_grow w2 w3 w4 e en px0 p u :
  alloc_proxy px0 w2 = (Ok p, w3) -> update_engine e (with_proxied (PProxy p)) w3 = (u, w4) ->
  engines w2 !! e = Some en -> proxiedValue en = PInvalid -> read_grow w2 w4.
Proof.
  unfold alloc_proxy, update_engine. intros H3 H4. injection H3 as <- <-. injection H4 as _ <-.
  intros He Hpv. split; [|split; [|split]]; simpl.
  - intros y eny Hy. destruct (decide (y = e)) as [->|Hne].
    + rewrite He in Hy. injection Hy as <-.
      eexists. split; [rewrite lookup_alter_eq, He; reflexivity|].
      split; [reflexivity|]. split.
      * right. simpl. split; [exact Hpv|]. intros q Hq. injection Hq as <-. lia.
      * intros q d' Hq. congruence.
    + exists eny. rewrite list_lookup_alter_ne by congruence. split; [exact Hy|apply eng_grow_refl].
  - intros d n Hd. exists n. split; [exact Hd|apply dn_grow_refl].
  - intros p px Hp. exists px. split; [|apply px_grow_refl].
    rewrite lookup_app_l; [exact Hp|]. apply lookup_lt_Some in Hp. exact Hp.
  - rewrite length_app. lia.
Qed.

Create HintDb grow.
#[local] Hint Resolve get_proxy_grow get_engine_grow live_draft_grow rg_createDraft
  draft_get_grow read_grow_refl : grow.

Ltac grow_hyp E :=
  lazymatch type of E with
  | ?m ?w = _ =>
      let H := fresh "G" in
      assert (H : read_grow w (snd (m w))) by (eauto with grow);
      rewrite E in H; cbn [snd] in H
  end.

Ltac fin := rewrite ?snd_ret, ?snd_throw; solve [eauto using read_grow_trans, read_grow_refl].

(** Run the first operation of a bind: its result [a], its world [w1] and
    the equation [E]; the exception case is closed. *)
Ltac step a w1 E :=
  rewrite ?snd_ret, ?snd_throw, snd_bind;
  lazymatch goal with
  | |- context [match ?t with _ => _ end] =>
      destruct t as [[a|?] w1] eqn:E;
      [cbv beta iota | first [discriminate E | grow_hyp E; fin]]
  end.

Lemma reflect_get_grow x k w : read_grow w (snd (reflect_get x k w)).
Proof.
  destruct x as [d|v]; simpl; [apply draft_get_grow|].
  destruct (isObject v); apply read_grow_refl.
Qed.
#[local] Hint Resolve reflect_get_grow : grow.

Lemma subDraft_grow fuel p w : read_grow w (snd (subDraft fuel p w)).
Proof.
  revert p w. induction fuel as [|f IH]; intros p w; [apply read_grow_refl|].
  cbn [subDraft].
  step px w1 E1. apply get_proxy_inv in E1 as [Hp ->].
  step en w1 E2. apply get_engine_inv in E2 as [He ->].
  destruct (px_access px) as [c|pa k enable ck cv] eqn:A.
  - destruct (proxied_is p (proxiedValue en)) eqn:Hpi; [|fin].
    destruct (draft en) as [d|] eqn:Hd; [fin|].
    step d w1 E3. destruct (createDraft_eq _ _ _ _ E3) as (-> & He1 & Hd1 & Hp1 & G1).
    step u w2 E4.
    assert (G2 : read_grow w1 w2).
    { apply (update_engine_grow _ _ _ _ _ en E4); [rewrite He1; exact He|].
      split; [reflexivity|]. split; [left; reflexivity|]. intros q d' _ Hd'. congruence. }
    destruct (update_engine_eq _ _ _ _ _ E4) as (He2 & Hd2 & Hp2).
    step u' w3 E5.
    assert (G3 : read_grow w2 w3).
    { apply (update_proxy_grow _ _ _ _ _ px E5); [rewrite Hp2, Hp1; exact Hp|].
      split; [reflexivity|]. split; [intros k c' H; exact H|]. split.
      - unfold root_kept. rewrite A. simpl.
        exists (length (drafts w)). split; [reflexivity|].
        intros en0 He0 Hf. rewrite He2, lookup_alter_eq, He1, He in He0.
        injection He0 as <-. simpl in Hf. congruence.
      - unfold child_settled. rewrite A. contradiction. }
    fin.
  - destruct (negb enable || Nat.eqb ck (draftCacheKey en)) eqn:Hset; [fin|].
    assert (Hns : ~ child_settled w px).
    { unfold child_settled. rewrite A. intros (en0 & He0 & H0). congruence. }
    assert (Hch : exists pa k en ck cv, px_access px = ChildAccess pa k en ck cv)
      by (exists pa, k, enable, ck, cv; exact A).
    step u w1 E3.
    assert (G1 : read_grow w w1)
      by exact (update_proxy_unsettled w w p px px _ _ _ (read_grow_refl w) E3 Hp Hp Hns Hch
                  eq_refl eq_refl).
    step nd w2 E4. pose proof (IH pa w1) as G2. rewrite E4 in G2. cbn [snd] in G2.
    destruct (js_truthy nd); [|fin].
    step v w3 E5. grow_hyp E5.
    assert (G4 : read_grow w w3) by eauto using read_grow_trans.
    destruct ((proj1 (proj2 (proj2 G4))) p px Hp) as (px3 & Hp3 & _).
    step u' w4 E6. rewrite snd_ret.
    exact (update_proxy_unsettled w w3 p px px3 _ _ _ G4 E6 Hp Hp3 Hns Hch eq_refl eq_refl).
Qed.
#[local] Hint Resolve subDraft_grow : grow.

Lemma sub_draft_grow p w : read_grow w (snd (sub_draft p w)).
Proof. apply subDraft_grow. Qed.
#[local] Hint Resolve sub_draft_grow : grow.

Lemma proxy_get_grow p k w : read_grow w (snd (proxy_get p k w)).
Proof.
  unfold proxy_get.
  step x w1 E1. grow_hyp E1.
  step v w2 E2. grow_hyp E2.
  destruct v as [d|u]; [|fin].
  step px w3 E3. apply get_proxy_inv in E3 as [Hp ->].
  destruct (ctx_lookup k (px_ctx px)) as [c|] eqn:Hc; [fin|].
  step en w3 E4. apply get_engine_inv in E4 as [He ->].
  step c w3 E5. destruct (alloc_proxy_eq _ _ _ _ E5) as (Ha & He3 & Hd3 & Hp3 & G3).
  step u w4 E6.
  assert (G4 : read_grow w3 w4).
  { apply (update_proxy_grow _ _ _ _ _ px E6).
    - rewrite Hp3, lookup_app_l; [exact Hp|]. apply lookup_lt_Some in Hp. exact Hp.
    - split; [reflexivity|]. split.
      + intros k' c' H. unfold with_ctx. cbn [px_ctx]. destruct (decide (k' = k)) as [->|Hne]; [congruence|].
        rewrite ctx_lookup_cons_other by exact Hne. exact H.
      + split; [exact (root_kept_refl _ _ _)|]. intros _. reflexivity. }
  fin.
Qed.
#[local] Hint Resolve proxy_get_grow : grow.

Lemma initProxy_grow e w en :
  engines w !! e = Some en -> proxiedValue en = PInvalid -> read_grow w (snd (initProxy e w)).
Proof.
  intros He Hpv. unfold initProxy.
  step en' w1 E1. apply get_engine_inv in E1 as [He' ->]. rewrite He in He'. injection He' as <-.
  destruct (isObject (source en)).
  - step d w1 E2. destruct (createDraft_eq _ _ _ _ E2) as (-> & He1 & Hd1 & Hp1 & G1).
    step u w2 E3.
    assert (G2 : read_grow w1 w2).
    { apply (update_engine_grow _ _ _ _ _ en E3); [rewrite He1; exact He|].
      split; [reflexivity|]. split; [left; reflexivity|]. intros q d' Hq _. congruence. }
    destruct (update_engine_eq _ _ _ _ _ E3) as (He2 & _ & _).
    step p w3 E4. destruct (alloc_proxy_eq _ _ _ _ E4) as (Ha & _ & _ & _ & _).
    injection Ha as ->.
    destruct (update_engine e (with_proxied (PProxy (length (proxies w2)))) w3)
      as [u' w4] eqn:E5.
    assert (G3 : read_grow w2 w4).
    { apply (init_proxied_grow w2 w3 w4 e (with_draft (Some (length (drafts w))) en) _ _ u' E4 E5).
      - rewrite He2, lookup_alter_eq, He1, He. reflexivity.
      - exact Hpv. }
    cbn [snd]. eauto using read_grow_trans.
  - destruct (update_engine e (with_proxied (PPlain (source en))) w) as [u w1] eqn:E2.
    cbn [snd]. apply (update_engine_grow _ _ _ _ _ en E2); [exact He|].
    split; [reflexivity|]. split.
    + right. split; [exact Hpv|]. intros q Hq. discriminate.
    + intros q d' Hq. congruence.
Qed.

Lemma get_value_grow e w : read_grow w (snd (get_value e w)).
Proof.
  unfold get_value.
  step en w1 E1. apply get_engine_inv in E1 as [He ->].
  assert (Gi : read_grow w (snd ((match proxiedValue en with
                                  | PInvalid => initProxy e
                                  | _ => ret tt
                                  end) w))).
  { destruct (proxiedValue en) eqn:Hpv;
      [exact (initProxy_grow e w en He Hpv)|apply read_grow_refl|apply read_grow_refl]. }
  rewrite snd_bind.
  destruct ((match proxiedValue en with PInvalid => initProxy e | _ => ret tt end) w)
    as [[u|x] w1] eqn:E2; try rewrite E2 in Gi; cbn [snd] in Gi; cbv beta iota; [|exact Gi].
  step en' w2 E3. apply get_engine_inv in E3 as [_ ->].
  destruct (proxiedValue en'); fin.
Qed.
#[local] Hint Resolve get_value_grow : grow.

Lemma grow_bind {A B} (m : M A) (k : A -> M B) w :
  (forall w, read_grow w (snd (m w))) -> (forall a w, read_grow w (snd (k a w))) ->
  read_grow w (snd (bind m k w)).
Proof.
  intros Hm Hk. rewrite snd_bind. specialize (Hm w).
  destruct (m w) as [[a|x] w1]; cbn [snd] in *; [|exact Hm].
  eapply read_grow_trans; [exact Hm|apply Hk].
Qed.

Lemma grow_ret {A} (a : A) w : read_grow w (snd (ret a w)).
Proof. apply read_grow_refl. Qed.

Lemma reflect_read_grow {A} x (m : nat -> M A) f w :
  (forall d w, read_grow w (snd (m d w))) -> read_grow w (snd (reflect_read x m f w)).
Proof.
  intros Hm. destruct x as [d|v]; simpl; [apply Hm|].
  destruct (isObject v); apply read_grow_refl.
Qed.

Lemma draft_has_grow d k w : read_grow w (snd (draft_has d k w)).
Proof.
  unfold draft_has. step n w1 E. apply live_draft_inv in E as (_ & _ & ->).
  destruct (slot_lookup k (dn_copy n)) as [[c|x|]|]; fin.
Qed.

Lemma draft_has_world d k w : snd (draft_has d k w) = w.
Proof.
  unfold draft_has. rewrite snd_bind. pose proof (live_draft_world d w) as H.
  destruct (live_draft d w) as [[n|x] w1]; cbn [snd] in *; [|exact H]. subst w1.
  destruct (slot_lookup k (dn_copy n)) as [[c|x|]|]; reflexivity.
Qed.

Lemma draft_ownKeys_grow d w : read_grow w (snd (draft_ownKeys d w)).
Proof.
  unfold draft_ownKeys. step n w1 E. apply live_draft_inv in E as (_ & _ & ->).
  destruct (dn_extensible n); [fin|].
  destruct (immer_target_keys n); [destruct (keys_eqb _ _)|]; fin.
Qed.

Lemma draft_getOwnPropertyDescriptor_grow d k w :
  read_grow w (snd (draft_getOwnPropertyDescriptor d k w)).
Proof.
  unfold draft_getOwnPropertyDescriptor. rewrite snd_bind.
  pose proof (draft_has_world d k w) as H.
  destruct (draft_has d k w) as [[b|x] w1]; cbn [snd] in *; subst w1; [|apply read_grow_refl].
  step n w1 E. apply live_draft_inv in E as (_ & _ & ->).
  destruct (dn_extensible n); [fin|].
  destruct (immer_target_keys n); [destruct (Bool.eqb _ _)|destruct b]; fin.
Qed.

Lemma draft_isExtensible_grow d w : read_grow w (snd (draft_isExtensible d w)).
Proof. unfold draft_isExtensible. step n w1 E. apply live_draft_inv in E as (_ & _ & ->). fin. Qed.

Lemma draft_getPrototypeOf_grow d w : read_grow w (snd (draft_getPrototypeOf d w)).
Proof. unfold draft_getPrototypeOf. step n w1 E. apply live_draft_inv in E as (_ & _ & ->). fin. Qed.

Lemma run_read_grow r w : read_grow w (snd (run_read r w)).
Proof.
  destruct r; unfold run_read, proxy_has, proxy_ownKeys, proxy_getOwnPropertyDescriptor,
    proxy_isExtensible, proxy_getPrototypeOf;
    (apply grow_bind; [|intros; apply grow_ret]); intros w0;
    first [ apply get_value_grow | apply proxy_get_grow
          | apply grow_bind; [apply sub_draft_grow|]; intros t w1;
            first [ apply reflect_read_grow; intros d w2;
                    first [ apply draft_has_grow | apply draft_ownKeys_grow
                          | apply draft_getPrototypeOf_grow ]
                  | destruct t as [d|v];
                    [ apply draft_getOwnPropertyDescriptor_grow
                    | destruct (isObject v); [destruct (vget v k)|]; apply read_grow_refl ]
                  | apply grow_bind;
                    [ intros w2; apply reflect_read_grow; intros d w3; apply draft_isExtensible_grow
                    | intros [] w2; apply read_grow_refl ] ] ].
Qed.

Lemma exec_reads_grow rs w : read_grow w (exec (map EvRead rs) w).
Proof.
  revert w. induction rs as [|r rs IH]; intros w; [apply read_grow_refl|].
  simpl. eapply read_grow_trans; [apply (run_read_grow r w)|apply IH].
Qed.

Lemma read_from_grow h ks w : read_grow w (snd (read_from h ks w)).
Proof.
  revert h w. induction ks as [|k ks IH]; intros h w; cbn [read_from]; [apply read_grow_refl|].
  destruct h as [p|v].
  - apply grow_bind; [intros; apply proxy_get_grow|intros; apply IH].
  - destruct (isObject v); [apply IH|apply read_grow_refl].
Qed.

(** **** The first read settles the path *)

Lemma bind_ok_inv {A B} (m : M A) (k : A -> M B) w b w' :
  bind m k w = (Ok b, w') -> exists a w1, m w = (Ok a, w1) /\ k a w1 = (Ok b, w').
Proof.
  unfold bind. destruct (m w) as [[a|x] w1]; [|discriminate]. intros H. exists a, w1. auto.
Qed.

Lemma ret_inv {A} (a b : A) w w' : ret a w = (Ok b, w') -> a = b /\ w' = w.
Proof. unfold ret. intros H. injection H as -> ->. auto. Qed.

Ltac binv E a w1 E1 :=
  apply bind_ok_inv in E as (a & w1 & E1 & E).

Lemma sub_draft_settles p w x w' : sub_draft p w = (Ok x, w') -> px_settled w' p x.
Proof.
  unfold sub_draft. cbn [subDraft]. intros E.
  binv E px w1 E1. apply get_proxy_inv in E1 as [Hp ->].
  binv E en w1 E2. apply get_engine_inv in E2 as [He ->].
  destruct (px_access px) as [c|pa k enable ck cv] eqn:A.
  - destruct (proxied_is p (proxiedValue en)) eqn:Hpi.
    + destruct (draft en) as [d|] eqn:Hd.
      * apply ret_inv in E as [<- ->]. exists px, en. rewrite A, Hpi.
        split; [exact Hp|]. split; [exact He|]. exists d. auto.
      * binv E d w1 E3. destruct (createDraft_eq _ _ _ _ E3) as (-> & He1 & Hd1 & Hp1 & _).
        binv E u w2 E4. destruct (update_engine_eq _ _ _ _ _ E4) as (He2 & Hd2 & Hp2).
        binv E u' w3 E5. destruct (update_proxy_eq _ _ _ _ _ E5) as (He3 & Hd3 & Hp3).
        apply ret_inv in E as [<- ->].
        eexists _, _. split; [rewrite Hp3, Hp2, Hp1, lookup_alter_eq, Hp; reflexivity|].
        split; [rewrite He3, He2, He1; simpl; rewrite lookup_alter_eq, He; reflexivity|].
        simpl. rewrite A. simpl. rewrite Hpi. eexists. split; reflexivity.
    + apply ret_inv in E as [<- ->]. exists px, en. rewrite A, Hpi. auto.
  - destruct (negb enable || Nat.eqb ck (draftCacheKey en)) eqn:Hset.
    + apply ret_inv in E as [<- ->]. exists px, en. rewrite A. auto.
    + binv E u w1 E3. destruct (update_proxy_eq _ _ _ _ _ E3) as (He1 & Hd1 & Hp1).
      set (px1 := with_access (set_ckey (draftCacheKey en) (px_access px)) px).
      assert (Hp1' : proxies w1 !! p = Some px1) by (rewrite Hp1, lookup_alter_eq, Hp; reflexivity).
      assert (He1' : engines w1 !! px_engine px1 = Some en) by (rewrite He1; exact He).
      assert (A1 : px_access px1 = ChildAccess pa k enable (draftCacheKey en) cv)
        by (unfold px1; simpl; rewrite A; reflexivity).
      assert (S1 : child_settled w1 px1).
      { unfold child_settled. rewrite A1. exists en. split; [exact He1'|].
        rewrite Nat.eqb_refl. apply orb_true_r. }
      (* after the parent is looked up, the wrapper is still as set *)
      assert (Keep : forall w2, read_grow w1 w2 ->
                exists px2 en2, proxies w2 !! p = Some px2 /\ px_engine px2 = px_engine px /\
                  px_access px2 = px_access px1 /\ engines w2 !! px_engine px = Some en2 /\
                  draftCacheKey en2 = draftCacheKey en).
      { intros w2 (Eg & _ & Pg & _).
        destruct (Pg p px1 Hp1') as (px2 & Hp2 & G & _ & _ & S).
        destruct (Eg _ _ He1') as (en2 & He2 & K & _).
        exists px2, en2. split; [exact Hp2|]. split; [exact G|]. split; [exact (S S1)|].
        split; [exact He2|exact K]. }
      binv E nd w2 E4. pose proof (subDraft_grow p pa w1) as G2. rewrite E4 in G2. cbn [snd] in G2.
      destruct (js_truthy nd).
      * binv E v w3 E5. pose proof (reflect_get_grow nd k w2) as G3. rewrite E5 in G3.
        cbn [snd] in G3.
        destruct (Keep w3 (read_grow_trans _ _ _ G2 G3)) as (px3 & en3 & Hp3 & G & A3 & He3 & K3).
        binv E u' w4 E6. destruct (update_proxy_eq _ _ _ _ _ E6) as (He4 & Hd4 & Hp4).
        apply ret_inv in E as [<- ->].
        eexists _, en3. split; [rewrite Hp4, lookup_alter_eq, Hp3; reflexivity|].
        split; [simpl; rewrite He4, G; exact He3|].
        simpl. rewrite A3, A1. simpl. rewrite K3, Nat.eqb_refl, orb_true_r. auto.
      * apply ret_inv in E as [<- ->].
        destruct (Keep w2 G2) as (px2 & en2 & Hp2 & G & A2 & He2 & K2).
        exists px2, en2. split; [exact Hp2|]. split; [rewrite G; exact He2|].
        rewrite A2, A1. rewrite K2, Nat.eqb_refl, orb_true_r. auto.
Qed.

Lemma draft_get_settles d k w c w' :
  draft_get d k w = (Ok (JDraft c), w') -> draft_settled w' d k c.
Proof.
  unfold draft_get. intros E.
  binv E n w1 E1. apply live_draft_inv in E1 as (Hd & Hr & ->).
  destruct (is_array_length n k) eqn:Ha; [apply ret_inv in E as [Hc _]; discriminate|].
  destruct (slot_lookup k (dn_copy n)) as [[c0|x|]|] eqn:Hs.
  - apply ret_inv in E as [Hc ->]. injection Hc as ->. exists n. auto.
  - apply ret_inv in E as [-> ->]. exists n. auto.
  - apply ret_inv in E as [Hc _]. discriminate.
  - destruct (vget (dn_base n) k) as [v|]; [|apply ret_inv in E as [Hc _]; discriminate].
    destruct (draftable v); [|apply ret_inv in E as [Hc _]; discriminate].
    binv E c0 w2 E2. unfold alloc_draft in E2. injection E2 as <- <-.
    binv E u w3 E3. unfold update_draft in E3. injection E3 as _ <-.
    apply ret_inv in E as [Hc ->]. injection Hc as <-.
    eexists. simpl. split.
    + rewrite lookup_alter_eq, lookup_app_l; [rewrite Hd; reflexivity|].
      apply lookup_lt_Some in Hd. exact Hd.
    + simpl. split; [exact Hr|]. split; [exact Ha|]. left. apply slot_lookup_set_same.
Qed.

Lemma proxy_get_settles p k w p' w' :
  proxy_get p k w = (Ok (HProxy p'), w') ->
  exists d c, px_settled w' p (JDraft d) /\ draft_settled w' d k c /\ ctx_at w' p k = Some p'.
Proof.
  unfold proxy_get. intros E.
  binv E x w1 E1. pose proof (sub_draft_settles p w x w1 E1) as S1.
  binv E v w2 E2. pose proof (reflect_get_grow x k w1) as G2. rewrite E2 in G2. cbn [snd] in G2.
  destruct v as [c|u]; [|apply ret_inv in E as [Hh _]; discriminate].
  destruct x as [d|u].
  2:{ simpl in E2. destruct (isObject u); [unfold ret in E2|unfold throw in E2]; discriminate. }
  simpl in E2. pose proof (draft_get_settles d k w1 c w2 E2) as S2.
  pose proof (px_settled_grow w1 w2 p _ G2 S1) as S1'.
  binv E px w3 E3. apply get_proxy_inv in E3 as [Hp ->].
  destruct (ctx_lookup k (px_ctx px)) as [c'|] eqn:Hc.
  - apply ret_inv in E as [Hh ->]. injection Hh as <-. exists d, c.
    split; [exact S1'|]. split; [exact S2|]. unfold ctx_at. rewrite Hp. exact Hc.
  - binv E en w3 E4. apply get_engine_inv in E4 as [_ ->].
    binv E c' w3 E5. destruct (alloc_proxy_eq _ _ _ _ E5) as (Ha & _ & _ & Hp3 & G3).
    binv E u w4 E6. destruct (update_proxy_eq _ _ _ _ _ E6) as (_ & _ & Hp4).
    assert (G4 : read_grow w3 w4).
    { apply (update_proxy_grow _ _ _ _ _ px E6).
      - rewrite Hp3, lookup_app_l; [exact Hp|]. apply lookup_lt_Some in Hp. exact Hp.
      - split; [reflexivity|]. split.
        + intros k' c'' H. unfold with_ctx. cbn [px_ctx].
          destruct (decide (k' = k)) as [->|Hne]; [congruence|].
          rewrite ctx_lookup_cons_other by exact Hne. exact H.
        + split; [exact (root_kept_refl _ _ _)|]. intros _. reflexivity. }
    apply ret_inv in E as [Hh ->]. injection Hh as <-. exists d, c.
    split; [exact (px_settled_grow _ _ _ _ G4 (px_settled_grow _ _ _ _ G3 S1'))|].
    split; [exact (draft_settled_grow _ _ _ _ _ G4 (draft_settled_grow _ _ _ _ _ G3 S2))|].
    unfold ctx_at. rewrite Hp4, lookup_alter_eq, Hp3, lookup_app_l.
    + rewrite Hp. simpl. apply ctx_lookup_cons_same.
    + apply lookup_lt_Some in Hp. exact Hp.
Qed.

Lemma read_from_plain v ks w h w' : read_from (HPlain v) ks w = (Ok h, w') -> exists u, h = HPlain u.
Proof.
  revert v w. induction ks as [|k ks IH]; intros v w; cbn [read_from].
  - unfold ret. intros H. injection H as <- _. eauto.
  - destruct (isObject v); [apply IH|unfold throw; discriminate].
Qed.

Lemma read_from_settles p ks w q w' :
  read_from (HProxy p) ks w = (Ok (HProxy q), w') -> chain w' p ks q.
Proof.
  revert p w. induction ks as [|k ks IH]; intros p w; cbn [read_from chain].
  - unfold ret. intros H. injection H as -> _. reflexivity.
  - intros E. binv E h w1 E1. destruct h as [p'|u].
    + destruct (proxy_get_settles p k w p' w1 E1) as (d & c & S1 & S2 & S3).
      pose proof (read_from_grow (HProxy p') ks w1) as G. rewrite E in G. cbn [snd] in G.
      exists d, c, p'. split; [exact (px_settled_grow _ _ _ _ G S1)|].
      split; [exact (draft_settled_grow _ _ _ _ _ G S2)|].
      split; [exact (ctx_at_grow _ _ _ _ _ G S3)|]. exact (IH p' w1 E).
    + destruct (read_from_plain u ks w1 _ _ E) as (u' & Hu). discriminate.
Qed.

Lemma get_value_settles e w p w' :
  get_value e w = (Ok (HProxy p), w') -> proxied_at e w' = Some (PProxy p).
Proof.
  unfold get_value. intros E.
  binv E en w1 E1. binv E u w2 E2. binv E en' w3 E3. apply get_engine_inv in E3 as [He ->].
  destruct (proxiedValue en') as [|q|v] eqn:Hv.
  - unfold throw in E. discriminate.
  - apply ret_inv in E as [Hh ->]. injection Hh as ->.
    unfold proxied_at. rewrite He. simpl. rewrite Hv. reflexivity.
  - apply ret_inv in E as [Hh _]. discriminate.
Qed.

Lemma read_path_settles e ks w q w' :
  read_path e ks w = (Ok (HProxy q), w') ->
  exists p, proxied_at e w' = Some (PProxy p) /\ chain w' p ks q.
Proof.
  unfold read_path. intros E. binv E h w1 E1. destruct h as [p|u].
  - exists p. split; [|exact (read_from_settles p ks w1 q w' E)].
    pose proof (read_from_grow (HProxy p) ks w1) as G. rewrite E in G. cbn [snd] in G.
    exact (proxied_at_grow _ _ _ _ G (get_value_settles e w p w1 E1)).
  - destruct (read_from_plain u ks w1 _ _ E) as (u' & Hu). discriminate.
Qed.

(** **** A settled path is read without any change *)

Lemma sub_draft_settled p w x : px_settled w p x -> sub_draft p w = (Ok x, w).
Proof.
  intros (px & en & Hp & He & H). unfold sub_draft. cbn [subDraft].
  unfold bind at 1, get_proxy. rewrite Hp. cbv beta iota.
  unfold bind at 1, get_engine. rewrite He. cbv beta iota.
  destruct (px_access px) as [c|pa k enable ck cv].
  - destruct (proxied_is p (proxiedValue en)).
    + destruct H as (d & Hd & ->). rewrite Hd. reflexivity.
    + subst x. reflexivity.
  - destruct H as [Hs ->]. rewrite Hs. reflexivity.
Qed.

Lemma draft_get_settled d k w c : draft_settled w d k c -> draft_get d k w = (Ok (JDraft c), w).
Proof.
  intros (n & Hd & Hr & Ha & Hs). unfold draft_get, live_draft, bind, get_draft.
  rewrite Hd. cbv beta iota. rewrite Hr. cbv beta iota. unfold ret at 1. cbv beta iota. rewrite Ha. unfold ret.
  destruct Hs as [Hs|Hs]; rewrite Hs; reflexivity.
Qed.

Lemma read_from_settled p ks w q : chain w p ks q -> read_from (HProxy p) ks w = (Ok (HProxy q), w).
Proof.
  revert p. induction ks as [|k ks IH]; intros p; cbn [chain read_from].
  - intros ->. reflexivity.
  - intros (d & c & p' & S1 & S2 & S3 & S4).
    assert (Hg : proxy_get p k w = (Ok (HProxy p'), w)).
    { unfold proxy_get. unfold bind at 1. rewrite (sub_draft_settled p w _ S1). cbv beta iota.
      unfold bind at 1. simpl reflect_get. rewrite (draft_get_settled d k w c S2). cbv beta iota.
      unfold ctx_at in S3. destruct (proxies w !! p) as [px|] eqn:Hp; [|discriminate].
      unfold bind, get_proxy. rewrite Hp. cbv beta iota. rewrite S3. reflexivity. }
    unfold bind. rewrite Hg. apply IH, S4.
Qed.

Lemma get_value_settled e w p : proxied_at e w = Some (PProxy p) -> get_value e w = (Ok (HProxy p), w).
Proof.
  unfold proxied_at. destruct (engines w !! e) as [en|] eqn:He; [|discriminate].
  intros H. injection H as H. unfold get_value, bind, get_engine. rewrite He. cbv beta iota.
  rewrite H. unfold ret. rewrite He. rewrite H. reflexivity.
Qed.

Lemma read_path_settled e ks w p q :
  proxied_at e w = Some (PProxy p) -> chain w p ks q -> read_path e ks w = (Ok (HProxy q), w).
Proof.
  intros H1 H2. unfold read_path, bind. rewrite (get_value_settled e w p H1).
  exact (read_from_settled p ks w q H2).
Qed.

End ReadGrow.

End Facts.

(* ------------------------------------------------------------------ *)
(** ** Claims *)

Module Claims.
Import Frame Props Facts Scenarios.

Section Claims.
Context `{PP : PatchPrimitive}.

Lemma notify_drafts e ps ips w : drafts (snd (notify e ps ips w)) = drafts w.
Proof.
  unfold notify, bind, get_engine. destruct (engines w !! e) as [en|]; [|reflexivity].
  cbn -[alter]. destruct (patchListener en) as [l|]; [|reflexivity].
  destruct ps, ips; try reflexivity; cbn -[alter];
    destruct (throws_on l (calls en)); reflexivity.
Qed.

(** [finishDraft] throws the listener's exception only after the Draft was
    found live and its scope revoked. *)
Lemma finishDraft_listener_err e d w w1 :
  finishDraft e d w = (Err ListenerError, w1) ->
  (exists n, drafts w !! d = Some n /\ dn_revoked n = false) /\
  drafts w1 = map (revoke_if d) (drafts w).
Proof.
  unfold finishDraft. unfold bind at 1.
  destruct (live_draft d w) as [[n|x] w2] eqn:L.
  2:{ intros Hf. injection Hf as -> ->. unfold live_draft, bind, get_draft, throw, ret in L.
      destruct (drafts w !! d) as [n|]; [destruct (dn_revoked n)|]; discriminate. }
  unfold live_draft, bind, get_draft, throw, ret in L.
  destruct (drafts w !! d) as [n0|] eqn:Hn; [|discriminate].
  destruct (dn_revoked n0) eqn:Hr; [discriminate|]. injection L as <- <-.
  unfold bind at 1, current_value.
  destruct (materialize (S (length (drafts w))) (drafts w) d) as [r|]; [|discriminate].
  unfold bind at 1, draft_patches. unfold bind at 1, revoke_scope.
  unfold bind at 1.
  match goal with |- context [notify e ?ps ?ips ?w2] =>
    pose proof (notify_drafts e ps ips w2) as D;
    destruct (notify e ps ips w2) as [[u|x] w4] end; [discriminate|].
  intros H. injection H as -> ->. split; [eauto|exact D].
Qed.

Lemma commit_listener_err_drafts w e en :
  engines w !! e = Some en -> fst (commit e w) = Err ListenerError ->
  exists d, draft en = Some d /\ drafts (snd (commit e w)) = map (revoke_if d) (drafts w).
Proof.
  intros E Hx. unfold commit in *. unfold bind at 1 in Hx. unfold bind at 1.
  unfold get_engine in *. rewrite E in *. cbn beta iota in *.
  destruct (isDirty en); cbn in *; [|discriminate].
  destruct (draft en) as [d|]; cbn in *; [|discriminate].
  exists d. split; [reflexivity|]. unfold bind at 1 in Hx. unfold bind at 1.
  destruct (finishDraft e d w) as [[r|y] w1] eqn:F; cbn [fst snd] in *.
  - unfold bind, setSource, clearDraftCache, update_engine in Hx. discriminate.
  - injection Hx as ->. exact (proj2 (finishDraft_listener_err e d w w1 F)).
Qed.

(** C1 (amended): a commit whose listener throws leaves the engine's
    bookkeeping as it was before the commit: the engine was dirty with a
    Draft, and afterwards it is still dirty, with the same Snapshot and the
    same Draft pointer, while the drafts of that Draft's scope have been
    revoked, the Draft itself included when it is a root draft (its own
    scope, as [createDraft] makes it). *)
Theorem commit_listener_throw_keeps_bookkeeping w e en :
  engines w !! e = Some en -> fst (commit e w) = Err ListenerError ->
  isDirty en = true /\ draft en <> None /\
  exists en', engines (snd (commit e w)) !! e = Some en' /\
    isDirty en' = true /\ source en' = source en /\ draft en' = draft en /\
    forall d, draft en' = Some d ->
      drafts (snd (commit e w)) = map (revoke_if d) (drafts w) /\
      forall n, drafts w !! d = Some n -> dn_scope n = d ->
        exists n', drafts (snd (commit e w)) !! d = Some n' /\ dn_revoked n' = true.
Proof.
  intros E H. destruct (commit_err_state w e en ListenerError E H) as (Hd & Hdr & en' & E' & Hs).
  unfold same_state in Hs. destruct Hs as (Hsrc & Hdraft & Hdirty).
  split; [exact Hd|]. split; [exact Hdr|]. exists en'. split; [exact E'|].
  split; [congruence|]. split; [assumption|]. split; [assumption|].
  intros d Hd'. destruct (commit_listener_err_drafts w e en E H) as (d0 & Hd0 & D).
  assert (d0 = d) as -> by congruence.
  split; [exact D|]. intros n Hn Hsc. exists (revoke_if d n). split.
  - rewrite D, list_lookup_fmap, Hn. reflexivity.
  - unfold revoke_if. rewrite Hsc, Nat.eqb_refl. reflexivity.
Qed.

(** C3 (amended): the dirty flag of engine [x] is false when the engine
    appears; it turns true only through an intercepted write through one of
    its wrappers, and such a write that completes under the default
    scheduler leaves it true; it turns false only through a root
    reassignment [x.value = v] or a run of [commit] of [x] (explicit, the
    deferred callback, forced by [patchState]/[forkState], or the
    synchronous scheduler). *)
Theorem isDirty_transitions w ev x :
  (dirty_at x w = None -> forall b, dirty_at x (snd (step ev w)) = Some b -> b = false) /\
  (dirty_at x w = Some false -> dirty_at x (snd (step ev w)) = Some true -> writes_via w ev x) /\
  (dirty_at x w = Some true -> dirty_at x (snd (step ev w)) = Some false ->
     (exists v, ev = EvSetValue x v) \/ commit_runs w ev x) /\
  (forall wo px en, ev = EvWrite wo -> proxies w !! write_target wo = Some px ->
     px_engine px = x -> engines w !! x = Some en -> scheduler en = DefaultScheduler ->
     fst (step ev w) = Ok tt -> dirty_at x (snd (step ev w)) = Some true).
Proof.
  split; [|split; [|split]].
  - intros H0 b H1. exact (dirty_new_engine_clean w ev x b H0 H1).
  - apply dirty_rises_only_by_writes.
  - apply dirty_falls_only_by_commit.
  - intros wo px en -> Hpx <- E Hs Hok.
    destruct (write_via_default w wo px en Hpx E Hs) as [Hd|[Hn _]];
      [exact Hd|contradiction].
Qed.

(** C4: assigning the root of an engine with a listener, [undefined]
    included, emits exactly one patch pair, on the empty path: forward to
    the new root, inverse to the prior root. *)
Theorem value_setter_single_root_patch w e en l v :
  engines w !! e = Some en -> patchListener en = Some l ->
  log (snd (set_value e v w)) =
    app (log w) [(e, [mkPatch OpReplace [] (Some v)], [mkPatch OpReplace [] (Some (source en))])].
Proof. apply set_value_log. Qed.



(** C9 (amended): a [patchState] that returns normally has committed the
    engine, then installed [apply(committed Snapshot, patches)] as the new
    Snapshot with no Draft and the generation tag bumped, adding no
    listener call of its own; reading [.value] afterwards yields a fresh
    root wrapper (over a Draft of the new Snapshot) or the new scalar
    Snapshot.  The dirty flag is whatever the forced commit left: clean
    when the engine was clean or had a Draft before, and still dirty when
    it was dirty with no Draft. *)
Theorem patchState_replays_silently e ps w w' :
  patchState e ps w = (Ok tt, w') ->
  fst (commit e w) = Ok tt /\
  exists enc s en', engines (snd (commit e w)) !! e = Some enc /\
    apply_patches (source enc) ps = Some s /\
    engines w' !! e = Some en' /\ source en' = s /\ draft en' = None /\
    draftCacheKey en' = S (draftCacheKey enc) /\ isDirty en' = isDirty enc /\
    log w' = log (snd (commit e w)) /\
    (forall en, engines w !! e = Some en ->
       isDirty en' = isDirty en && match draft en with None => true | Some _ => false end) /\
    fst (get_value e w') = Ok (if isObject s then HProxy (length (proxies w')) else HPlain s).
Proof.
  intros H. destruct (patchState_ok e ps w w' H) as (Hc & enc & s & Ec & Ha & ->).
  split; [exact Hc|].
  set (en' := with_source s (with_proxied PInvalid enc)).
  assert (E' : alter (with_source s) e (alter (with_proxied PInvalid) e (engines (snd (commit e w))))
                 !! e = Some en') by (rewrite !lookup_alter_eq, Ec; reflexivity).
  exists enc, s, en'. split; [exact Ec|]. split; [exact Ha|]. split; [exact E'|].
  split; [reflexivity|]. split; [reflexivity|]. split; [reflexivity|].
  split; [reflexivity|]. split; [reflexivity|]. split.
  - intros en E. simpl.
    destruct (decide (isDirty en = true /\ draft en = None)) as [[Hd Hn]|Hcl].
    + rewrite (commit_noop e w en E ltac:(right; exact Hn)) in Ec. cbn [snd] in Ec.
      rewrite E in Ec. injection Ec as <-. rewrite Hd, Hn. reflexivity.
    + assert (Hcl' : isDirty en = false \/ draft en <> None).
      { destruct (isDirty en); [|auto]. right. intros Hn. apply Hcl. auto. }
      pose proof (commit_ok_clean w e en E Hc Hcl') as Hd.
      unfold dirty_at in Hd. rewrite Ec in Hd. simpl in Hd. injection Hd as Hd. rewrite Hd.
      destruct (isDirty en), (draft en); try reflexivity. exfalso. apply Hcl. auto.
  - destruct (get_value_fresh (mkWorld
      (alter (with_source s) e (alter (with_proxied PInvalid) e (engines (snd (commit e w)))))
      (drafts (snd (commit e w))) (proxies (snd (commit e w)))
      (microtasks (snd (commit e w))) (log (snd (commit e w)))) e en' E' eq_refl) as [Hg _].
    exact Hg.
Qed.

(** C10: a read through the handle or a wrapper ([.value], get, has,
    ownKeys, getOwnPropertyDescriptor, isExtensible, getPrototypeOf)
    leaves every engine's Snapshot, generation tag, pending marker, dirty
    flag, listener and scheduler, the number of engines, the queue of
    deferred commits and the listener calls unchanged; and an event turns
    a clean engine dirty only if it is an intercepted write through one of
    that engine's wrappers. *)
Theorem reads_are_quiet w r :
  quiet w (snd (step (EvRead r) w)) /\
  (forall ev x, dirty_at x w = Some false -> dirty_at x (snd (step ev w)) = Some true ->
     writes_via w ev x).
Proof.
  split.
  - exact (run_read_pres quiet r w).
  - intros ev x. apply dirty_rises_only_by_writes.
Qed.

#[local] Instance handles_kept_preorder : PreOrder handles_kept.
Proof.
  split.
  - intros w. split; auto.
  - intros w1 w2 w3 [A12 C12] [A23 C23]. split; auto.
Qed.

Lemma handles_kept_same w ds q l :
  handles_kept w (mkWorld (engines w) ds (proxies w) q l).
Proof. split; intros; assumption. Qed.

Lemma handles_kept_alter w g e :
  (forall en, proxiedValue (g en) = proxiedValue en) ->
  handles_kept w (mkWorld (alter g e (engines w)) (drafts w) (proxies w) (microtasks w) (log w)).
Proof.
  intros Hg. split; [|intros; assumption].
  intros x p H. unfold proxied_at in *. simpl. destruct (decide (x = e)) as [->|Hne].
  - rewrite lookup_alter_eq. destruct (engines w !! e); [|discriminate].
    simpl in *. rewrite Hg. exact H.
  - rewrite list_lookup_alter_ne by congruence. exact H.
Qed.

Lemma handles_kept_app w es :
  handles_kept w (mkWorld (engines w ++ es) (drafts w) (proxies w) (microtasks w) (log w)).
Proof.
  split; [|intros; assumption]. intros x p H. unfold proxied_at in *. simpl.
  destruct (engines w !! x) as [en|] eqn:E; [|discriminate].
  rewrite lookup_app_l by (apply lookup_lt_Some in E; exact E). rewrite E. exact H.
Qed.

Lemma read_grow_handles w w' : read_grow w w' -> handles_kept w w'.
Proof.
  intros G. split.
  - intros x p H. destruct G as (E & _). unfold proxied_at in *.
    destruct (engines w !! x) as [en|] eqn:Ex; [|discriminate]. injection H as H.
    destruct (E x en Ex) as (en' & Ex' & _ & V & _). rewrite Ex'. simpl.
    destruct V as [V|[V _]]; congruence.
  - intros p k c. apply ctx_at_grow. exact G.
Qed.

Lemma pres_revoke_scope_handles d : pres handles_kept (revoke_scope d).
Proof. intros w. apply handles_kept_same. Qed.

#[local] Hint Resolve pres_revoke_scope_handles : pres.

Ltac hk_tac := first [ apply handles_kept_same | apply handles_kept_alter; intros; reflexivity ].

Lemma commit_handles e : pres handles_kept (commit e).
Proof.
  unfold commit, finishDraft, live_draft, notify, setSource, clearDraftCache. pres_auto hk_tac.
Qed.

Lemma forkState_handles e l : pres handles_kept (forkState e l).
Proof.
  unfold forkState. apply (pres_bind handles_kept); [apply commit_handles|intros []].
  apply (pres_bind handles_kept); [exact (pres_get_engine handles_kept e)|intros en].
  intros w. apply handles_kept_app.
Qed.

Lemma microtask_handles : pres handles_kept run_microtask.
Proof.
  intros w. unfold run_microtask. destruct (microtasks w) as [|e rest]; [reflexivity|].
  etrans; [apply (handles_kept_same w (drafts w) rest (log w))|].
  assert (P : pres handles_kept (let* _ := commit e in update_engine e (with_pending false))).
  { apply (pres_bind handles_kept); [apply commit_handles|intros []].
    intros w'. apply handles_kept_alter. intros; reflexivity. }
  apply P.
Qed.

Lemma step_handles ev w : keeps_handles ev = true -> handles_kept w (snd (step ev w)).
Proof.
  intros H. revert w. change (pres handles_kept (step ev)).
  destruct ev as [v l s|r|wo|e v|e|e ps|e l|]; cbn [keeps_handles] in H; try discriminate; cbn [step].
  - apply (pres_bind handles_kept); [|intros; exact (pres_ret handles_kept _)]. intros w. apply handles_kept_app.
  - intros w. apply read_grow_handles. apply run_read_grow.
  - apply commit_handles.
  - apply (pres_bind handles_kept); [apply forkState_handles|intros; exact (pres_ret handles_kept _)].
  - apply microtask_handles.
Qed.

Lemma exec_handles evs w : forallb keeps_handles evs = true -> handles_kept w (exec evs w).
Proof.
  revert w. induction evs as [|ev evs IH]; intros w H; [reflexivity|].
  cbn [forallb] in H. apply andb_prop in H as [H1 H2]. cbn [exec].
  etrans; [apply (step_handles ev w H1)|apply IH, H2].
Qed.

Lemma ctx_path_kept w w' p ks q : handles_kept w w' -> ctx_path w p ks q -> ctx_path w' p ks q.
Proof.
  intros [_ C]. revert p. induction ks as [|k ks IH]; intros p; cbn [ctx_path]; [auto|].
  intros (c & Hc & Hr). exists c. split; [apply C, Hc|apply IH, Hr].
Qed.

Lemma chain_ctx_path w p ks q : chain w p ks q -> ctx_path w p ks q.
Proof.
  revert p. induction ks as [|k ks IH]; intros p; cbn [chain ctx_path]; [auto|].
  intros (d & c & p' & _ & _ & Hc & Hr). exists p'. split; [exact Hc|apply IH, Hr].
Qed.

Lemma proxy_get_cached p k c w c' w' :
  ctx_at w p k = Some c -> proxy_get p k w = (Ok (HProxy c'), w') -> c' = c.
Proof.
  intros Hc E. unfold proxy_get in E.
  apply bind_ok_inv in E as (x & w1 & E1 & E). pose proof (sub_draft_grow p w) as G1. rewrite E1 in G1. cbn [snd] in G1.
  apply bind_ok_inv in E as (v & w2 & E2 & E). pose proof (reflect_get_grow x k w1) as G2. rewrite E2 in G2. cbn [snd] in G2.
  destruct v as [d|u]; [|apply ret_inv in E as [Hh _]; discriminate].
  apply bind_ok_inv in E as (px & w3 & E3 & E). apply get_proxy_inv in E3 as [Hp ->].
  pose proof (ctx_at_grow _ _ _ _ _ (read_grow_trans _ _ _ G1 G2) Hc) as Hc2.
  unfold ctx_at in Hc2. rewrite Hp in Hc2. rewrite Hc2 in E.
  apply ret_inv in E as [Hh _]. injection Hh as ->. reflexivity.
Qed.

Lemma read_from_cached w p ks q q' w' :
  ctx_path w p ks q -> read_from (HProxy p) ks w = (Ok (HProxy q'), w') -> q' = q.
Proof.
  revert p w. induction ks as [|k ks IH]; intros p w; cbn [ctx_path read_from].
  - intros -> E. apply ret_inv in E as [Hh _]. injection Hh as ->. reflexivity.
  - intros (c & Hc & Hr) E. apply bind_ok_inv in E as (h & w1 & E1 & E). destruct h as [c'|u].
    + pose proof (proxy_get_cached p k c w c' w1 Hc E1) as ->.
      pose proof (proxy_get_grow p k w) as G. rewrite E1 in G. cbn [snd] in G.
      exact (IH c w1 (ctx_path_kept _ _ _ _ _ (read_grow_handles _ _ G) Hr) E).
    + destruct (read_from_plain u ks w1 _ _ E) as (u' & Hu). discriminate.
Qed.


End Claims.

(** C1: the original claim fails: the deferred engine's listener throws on
    its first call; after the exception the engine is still dirty, and the
    next [commit()] throws again (the Draft it points to is revoked). *)
Lemma commit_listener_throw_counterexample :
  fst (commit 0 (dirty_world throws_first)) = Err ListenerError /\
  dirty_at 0 (snd (commit 0 (dirty_world throws_first))) = Some true /\
  fst (commit 0 (snd (commit 0 (dirty_world throws_first)))) = Err TypeError /\
  dirty_at 0 (snd (commit 0 (snd (commit 0 (dirty_world throws_first))))) = Some true.
Proof. vm_compute. repeat split. Qed.

Lemma commit_listener_throw_keeps_bookkeeping_witness :
  engines (dirty_world throws_first) !! 0 =
    Some (mkEngine foo_bar (PProxy 0) (Some 0) 0 true true (Some throws_first) DefaultScheduler 0) /\
  fst (commit 0 (dirty_world throws_first)) = Err ListenerError /\
  isDirty (mkEngine foo_bar (PProxy 0) (Some 0) 0 true true (Some throws_first) DefaultScheduler 0) = true /\
  draft (mkEngine foo_bar (PProxy 0) (Some 0) 0 true true (Some throws_first) DefaultScheduler 0) <> None /\
  exists en', engines (snd (commit 0 (dirty_world throws_first))) !! 0 = Some en' /\
    isDirty en' = true /\ source en' = foo_bar /\ draft en' = Some 0 /\
    forall d, draft en' = Some d ->
      drafts (snd (commit 0 (dirty_world throws_first))) =
        map (revoke_if d) (drafts (dirty_world throws_first)) /\
      forall n, drafts (dirty_world throws_first) !! d = Some n -> dn_scope n = d ->
        exists n', drafts (snd (commit 0 (dirty_world throws_first))) !! d = Some n' /\
          dn_revoked n' = true.
Proof.
  assert (E : engines (dirty_world throws_first) !! 0 =
    Some (mkEngine foo_bar (PProxy 0) (Some 0) 0 true true (Some throws_first) DefaultScheduler 0))
    by (vm_compute; reflexivity).
  assert (H : fst (commit 0 (dirty_world throws_first)) = Err ListenerError)
    by (vm_compute; reflexivity).
  split; [exact E|]. split; [exact H|].
  exact (commit_listener_throw_keeps_bookkeeping (dirty_world throws_first) 0 _ E H).
Defined.

(** C3: the original claim fails: assigning [.value] of a dirty engine
    clears the dirty flag without a commit; the pending write [foo = "qux"]
    is never reported, only the root replacement is. *)
Lemma value_setter_clears_dirty_counterexample :
  dirty_at 0 (dirty_world never_throws) = Some true /\
  dirty_at 0 (snd (step (EvSetValue 0 foo_x) (dirty_world never_throws))) = Some false /\
  ~ commit_runs (dirty_world never_throws) (EvSetValue 0 foo_x) 0 /\
  log (snd (step (EvSetValue 0 foo_x) (dirty_world never_throws))) =
    [(0, [mkPatch OpReplace [] (Some foo_x)], [mkPatch OpReplace [] (Some foo_bar)])].
Proof. vm_compute. split; [reflexivity|]. split; [reflexivity|]. split; [intros []|reflexivity]. Qed.

Lemma value_setter_single_root_patch_witness :
  log (snd (set_value 0 VUndef
         (exec [EvCreate foo_nested (Some never_throws) DefaultScheduler] w_empty))) =
    [(0, [mkPatch OpReplace [] (Some VUndef)], [mkPatch OpReplace [] (Some foo_nested)])].
Proof.
  exact (value_setter_single_root_patch
           (exec [EvCreate foo_nested (Some never_throws) DefaultScheduler] w_empty) 0
           (mkEngine foo_nested PInvalid None 0 false false (Some never_throws) DefaultScheduler 0)
           never_throws VUndef (eq_refl) (eq_refl)).
Defined.


(** C6: a discrepancy: when the deferred commit throws, [pendingPromise]
    is never reset, so later writes mark the engine dirty but schedule no
    commit at all: the queue stays empty, however many microtasks run. *)
Theorem deferred_commit_lost_after_listener_throw :
  dirty_at 0 (exec (firstn 6 lost_commit_events) w_empty) = Some false /\
  microtasks (exec (firstn 6 lost_commit_events) w_empty) = [] /\
  dirty_at 0 (exec lost_commit_events w_empty) = Some true /\
  option_map pendingPromise (engines (exec lost_commit_events w_empty) !! 0) = Some true /\
  microtasks (exec lost_commit_events w_empty) = [] /\
  forall n, exec (repeat EvMicrotask n) (exec lost_commit_events w_empty) =
            exec lost_commit_events w_empty.
Proof.
  split; [vm_compute; reflexivity|]. split; [vm_compute; reflexivity|].
  split; [vm_compute; reflexivity|]. split; [vm_compute; reflexivity|].
  assert (Hq : microtasks (exec lost_commit_events w_empty) = []) by (vm_compute; reflexivity).
  split; [exact Hq|].
  generalize (exec lost_commit_events w_empty) Hq. clear Hq. intros w0 Hq n.
  induction n as [|n IH]; [reflexivity|].
  cbn [repeat exec step]. unfold run_microtask. rewrite Hq. exact IH.
Qed.




(** C9: the original claim fails: after a write through a wrapper from
    before a root reassignment the engine is dirty with no Draft; the
    forced commit does nothing and [patchState] returns with the engine
    still dirty. *)
Lemma patchState_leaves_dirty_counterexample :
  dirty_at 0 stale_write_world = Some true /\
  option_map draft (engines stale_write_world !! 0) = Some None /\
  fst (patchState 0 [] stale_write_world) = Ok tt /\
  dirty_at 0 (snd (patchState 0 [] stale_write_world)) = Some true.
Proof. vm_compute. repeat split. Qed.

Lemma patchState_replays_silently_witness :
  patchState 0 [] (dirty_world never_throws) =
    (Ok tt, snd (patchState 0 [] (dirty_world never_throws))) /\
  fst (commit 0 (dirty_world never_throws)) = Ok tt.
Proof.
  assert (H : patchState 0 [] (dirty_world never_throws) =
                (Ok tt, snd (patchState 0 [] (dirty_world never_throws))))
    by (vm_compute; reflexivity).
  split; [exact H|].
  exact (proj1 (patchState_replays_silently 0 [] (dirty_world never_throws) _ H)).
Defined.

End Claims.

(* ------------------------------------------------------------------ *)
(** ** Further properties of the engine *)

Module Extras.
Import Frame Props Facts Scenarios Keep.

Section Engine.
Context `{PP : PatchPrimitive}.

Ltac binv E a w1 E1 :=
  apply bind_ok_inv in E as (a & w1 & E1 & E).

Lemma bind_ok {A B} (m : M A) (k : A -> M B) w a w1 :
  m w = (Ok a, w1) -> bind m k w = k a w1.
Proof. intros H. unfold bind. rewrite H. reflexivity. Qed.

Lemma bind_err {A B} (m : M A) (k : A -> M B) w x w1 :
  m w = (Err x, w1) -> bind m k w = (Err x, w1).
Proof. intros H. unfold bind. rewrite H. reflexivity. Qed.

Lemma disable_idem a : disable (disable a) = disable a.
Proof. destruct a; reflexivity. Qed.

Lemma wrappers_kept_refl w : wrappers_kept w w.
Proof. intros q pq H. exists pq. auto. Qed.

Lemma wrappers_kept_trans w1 w2 w3 :
  wrappers_kept w1 w2 -> wrappers_kept w2 w3 -> wrappers_kept w1 w3.
Proof.
  intros H12 H23 q pq H. destruct (H12 q pq H) as (pq2 & H2 & G2 & A2).
  destruct (H23 q pq2 H2) as (pq3 & H3 & G3 & A3). exists pq3.
  split; [exact H3|]. split; [congruence|].
  destruct A2 as [A2|A2]; destruct A3 as [A3|A3]; rewrite A3, A2; auto.
  right. apply disable_idem.
Qed.

Lemma wrappers_kept_alter w w' p f :
  proxies w' = alter f p (proxies w) ->
  (forall px, px_engine (f px) = px_engine px /\
     (px_access (f px) = px_access px \/ px_access (f px) = disable (px_access px))) ->
  wrappers_kept w w'.
Proof.
  intros Hw Hf q pq H. rewrite Hw, list_lookup_alter.
  destruct (decide (p = q)) as [->|]; rewrite ?H; simpl; eauto.
Qed.

Lemma engines_kept_refl w : engines_kept w w.
Proof. intros x en H. exists en. auto. Qed.

Lemma engines_kept_trans w1 w2 w3 :
  engines_kept w1 w2 -> engines_kept w2 w3 -> engines_kept w1 w3.
Proof.
  intros H12 H23 x en H. destruct (H12 x en H) as (en2 & H2 & A & B & C).
  destruct (H23 x en2 H2) as (en3 & H3 & A' & B' & C').
  exists en3. split; [exact H3|]. split; [congruence|]. split; congruence.
Qed.

Lemma engines_kept_alter w w' e g :
  engines w' = alter g e (engines w) ->
  (forall en, proxiedValue (g en) = proxiedValue en /\ draft (g en) = draft en /\
     draftCacheKey (g en) = draftCacheKey en) ->
  engines_kept w w'.
Proof.
  intros Hw Hg x en H. rewrite Hw, list_lookup_alter.
  destruct (decide (e = x)) as [->|]; rewrite ?H; simpl; eauto.
Qed.

Lemma px_settled_keep w w' p x :
  px_settled w p x -> wrappers_kept w w' -> engines_kept w w' -> px_settled w' p x.
Proof.
  intros (px & en & Hp & He & H) Wk Ek.
  destruct (Wk p px Hp) as (px' & Hp' & Ge & Ga).
  destruct (Ek _ en He) as (en' & He' & Pv & Dr & Ky).
  exists px', en'. split; [exact Hp'|]. split; [rewrite Ge; exact He'|].
  rewrite Pv, Dr, Ky.
  destruct Ga as [-> | ->]; [exact H|].
  destruct (px_access px) as [c|pa k en0 ck cv]; simpl; [exact H|].
  destruct H as [_ ->]. split; reflexivity.
Qed.

Lemma ctx_lookup_remove k ctx : ctx_lookup k (ctx_remove k ctx) = None.
Proof.
  induction ctx as [|[k' c] ctx IH]; simpl; [reflexivity|].
  destruct (key_eqb k k') eqn:E; [exact IH|]. simpl. rewrite E. exact IH.
Qed.

(** [clearProxyCatch] only disables and forgets the cached child wrapper. *)
Lemma clearProxyCatch_keep p k w px :
  proxies w !! p = Some px ->
  exists w1, clearProxyCatch p k w = (Ok tt, w1) /\
    engines w1 = engines w /\ drafts w1 = drafts w /\ microtasks w1 = microtasks w /\
    log w1 = log w /\ wrappers_kept w w1 /\ ctx_at w1 p k = None.
Proof.
  intros Hp. unfold clearProxyCatch, bind at 1, get_proxy. rewrite Hp. cbv beta iota.
  destruct (ctx_lookup k (px_ctx px)) as [c|] eqn:Hc.
  - unfold bind, update_proxy. cbn [fst snd].
    eexists. split; [reflexivity|]. cbn [engines drafts microtasks log proxies].
    split; [reflexivity|]. split; [reflexivity|]. split; [reflexivity|]. split; [reflexivity|].
    split.
    + eapply wrappers_kept_trans.
      * eapply (wrappers_kept_alter w (mkWorld (engines w) (drafts w)
                  (alter (fun pc => with_access (disable (px_access pc)) pc) c (proxies w))
                  (microtasks w) (log w)) c); [reflexivity|].
        intros q. split; [reflexivity|right; reflexivity].
      * eapply wrappers_kept_alter; [reflexivity|]. intros q. split; [reflexivity|left; reflexivity].
    + unfold ctx_at. cbn [proxies]. rewrite lookup_alter_eq, list_lookup_alter.
      destruct (decide (c = p)) as [->|]; rewrite Hp; simpl; apply ctx_lookup_remove.
  - eexists. split; [reflexivity|]. repeat split; try reflexivity.
    + apply wrappers_kept_refl.
    + unfold ctx_at. rewrite Hp. exact Hc.
Qed.

(** [dye] under the default scheduler only touches the dirty flag, the
    pending marker and the queue. *)
Lemma dye_default_keep w e en :
  engines w !! e = Some en -> scheduler en = DefaultScheduler ->
  exists w', dye e w = (Ok tt, w') /\ drafts w' = drafts w /\ proxies w' = proxies w /\
    log w' = log w /\ engines_kept w w' /\ dirty_at e w' = Some true.
Proof.
  intros H Hs. unfold dye, bind, update_engine, get_engine. cbn [engines].
  rewrite lookup_alter_eq, H. cbn [option_map with_dirty scheduler pendingPromise]. rewrite Hs.
  destruct (pendingPromise en); cbn -[alter].
  - eexists. split; [reflexivity|]. repeat split; try reflexivity.
    + eapply engines_kept_alter; [reflexivity|]. intros; repeat split.
    + unfold dirty_at. simpl. rewrite lookup_alter_eq, H. reflexivity.
  - eexists. split; [reflexivity|]. repeat split; try reflexivity.
    + apply engines_kept_trans with (mkWorld (alter (with_dirty true) e (engines w)) (drafts w)
                                        (proxies w) (microtasks w) (log w));
        (eapply engines_kept_alter; [reflexivity|]; intros; repeat split).
    + unfold dirty_at. simpl. rewrite !lookup_alter_eq, H. reflexivity.
Qed.

Lemma engines_kept_eq w w' : engines w' = engines w -> engines_kept w w'.
Proof. intros H x en E. exists en. rewrite H. auto. Qed.

Lemma wrappers_kept_eq w w' : proxies w' = proxies w -> wrappers_kept w w'.
Proof. intros H q pq E. exists pq. rewrite H. auto. Qed.

Lemma live_ok d w n : drafts w !! d = Some n -> dn_revoked n = false -> live_draft d w = (Ok n, w).
Proof. intros H R. unfold live_draft, bind, get_draft. rewrite H. cbv beta iota. rewrite R. reflexivity. Qed.

Lemma draft_get_assigned d k w n x :
  drafts w !! d = Some n -> dn_revoked n = false -> is_array_length n k = false ->
  slot_lookup k (dn_copy n) = Some (SSet x) -> draft_get d k w = (Ok x, w).
Proof.
  intros H R A S. unfold draft_get. rewrite (bind_ok _ _ _ _ _ (live_ok d w n H R)).
  rewrite A, S. reflexivity.
Qed.

Lemma draft_get_deleted d k w n :
  drafts w !! d = Some n -> dn_revoked n = false -> is_array_length n k = false ->
  slot_lookup k (dn_copy n) = Some SDel -> draft_get d k w = (Ok (JPlain VUndef), w).
Proof.
  intros H R A S. unfold draft_get. rewrite (bind_ok _ _ _ _ _ (live_ok d w n H R)).
  rewrite A, S. reflexivity.
Qed.

Lemma plain_key_not_length n k : plain_key (dn_base n) k = true -> is_array_length n k = false.
Proof. unfold plain_key, is_array_length. destruct (dn_base n), k; congruence. Qed.

Lemma draft_has_slot d k w n s :
  drafts w !! d = Some n -> dn_revoked n = false -> slot_lookup k (dn_copy n) = Some s ->
  draft_has d k w = (Ok (match s with SDel => false | _ => true end), w).
Proof.
  intros H R S. unfold draft_has. rewrite (bind_ok _ _ _ _ _ (live_ok d w n H R)). rewrite S.
  destruct s; reflexivity.
Qed.

(** What the set and delete traps do on a wrapper whose [subDraft] is the
    live draft [d]: forget the cached child wrapper, write slot [k] of [d],
    [dye()]. *)
Lemma write_settled e p k d n w en s (mk : nat -> M bool) :
  sub_draft p w = (Ok (JDraft d), w) -> drafts w !! d = Some n -> dn_revoked n = false ->
  engines w !! e = Some en -> scheduler en = DefaultScheduler ->
  (forall w1, drafts w1 = drafts w ->
     mk d w1 = (Ok true, mkWorld (engines w1)
                        (alter (fun n0 => with_copy (slot_set k s (dn_copy n0)) n0) d (drafts w1))
                        (proxies w1) (microtasks w1) (log w1))) ->
  exists w3,
    (let* _ := clearProxyCatch p k in
     let* t := sub_draft p in
     let* r := reflect_write t mk in
     let* _ := dye e in
     ret r) w = (Ok true, w3) /\
    dirty_at e w3 = Some true /\ px_settled w3 p (JDraft d) /\
    drafts w3 !! d = Some (with_copy (slot_set k s (dn_copy n)) n).
Proof.
  intros Hs Hd Hr He Hsch Hm.
  pose proof (sub_draft_settles p w _ w Hs) as S0.
  destruct S0 as (px & en0 & Hp & Rest) eqn:ES0.
  destruct (clearProxyCatch_keep p k w px Hp) as (w1 & C1 & E1 & D1 & Q1 & L1 & W1 & _).
  assert (S1 : px_settled w1 p (JDraft d)).
  { apply (px_settled_keep w); [exact S0|exact W1|apply engines_kept_eq; exact E1]. }
  specialize (Hm w1 D1).
  set (w2 := mkWorld (engines w1)
               (alter (fun n0 => with_copy (slot_set k s (dn_copy n0)) n0) d (drafts w1))
               (proxies w1) (microtasks w1) (log w1)) in Hm.
  assert (He2 : engines w2 !! e = Some en) by (simpl; rewrite E1; exact He).
  destruct (dye_default_keep w2 e en He2 Hsch) as (w3 & Dy & D3 & P3 & L3 & K3 & Dirty3).
  exists w3.
  split.
  { rewrite (bind_ok _ _ _ _ _ C1). cbv beta.
    rewrite (bind_ok _ _ _ _ _ (sub_draft_settled p w1 _ S1)). cbv beta. cbn [reflect_write].
    rewrite (bind_ok _ _ _ _ _ Hm). cbv beta.
    rewrite (bind_ok _ _ _ _ _ Dy). reflexivity. }
  split; [exact Dirty3|]. split.
  - apply (px_settled_keep w1); [exact S1| |].
    + apply wrappers_kept_eq. rewrite P3. reflexivity.
    + apply engines_kept_trans with w2; [apply engines_kept_eq; reflexivity|exact K3].
  - rewrite D3. simpl. rewrite lookup_alter_eq, D1, Hd. reflexivity.
Qed.




(** [notify] only appends to the log and counts the listener's calls. *)
Lemma notify_eq e ps ips w o w' :
  notify e ps ips w = (o, w') ->
  drafts w' = drafts w /\ proxies w' = proxies w /\ microtasks w' = microtasks w /\
  (engines w' = engines w \/ exists c, engines w' = alter (with_calls c) e (engines w)).
Proof.
  unfold notify, bind, get_engine. destruct (engines w !! e) as [en|]; cbn -[alter];
    [|intros H; injection H as _ <-; auto].
  destruct (patchListener en) as [l|]; cbn -[alter]; [|intros H; injection H as _ <-; auto].
  destruct ps, ips; cbn -[alter];
    try (intros H; injection H as _ <-; auto);
    destruct (throws_on l (calls en)); cbn -[alter]; intros H; injection H as _ <-;
    repeat split; eauto.
Qed.

(** X4: [commit] is idempotent: right after a commit that returned, a
    second one does nothing. *)
Theorem commit_idempotent e w :
  fst (commit e w) = Ok tt -> commit e (snd (commit e w)) = (Ok tt, snd (commit e w)).
Proof.
  intros Hok. destruct (engines w !! e) as [en|] eqn:E.
  2:{ unfold commit, bind, get_engine in Hok. rewrite E in Hok. discriminate. }
  destruct (decide (isDirty en = true /\ draft en = None)) as [[Hd Hn]|Hc].
  - assert (Hw : commit e w = (Ok tt, w)) by (apply (commit_noop e w en E); auto).
    rewrite Hw. exact Hw.
  - assert (Hc' : isDirty en = false \/ draft en <> None).
    { destruct (isDirty en); [|auto]. right. intros Hn. apply Hc. auto. }
    pose proof (commit_ok_clean w e en E Hok Hc') as Hcl. unfold dirty_at in Hcl.
    destruct (engines (snd (commit e w)) !! e) as [en'|] eqn:E'; [|discriminate].
    injection Hcl as Hcl. apply (commit_noop e _ en' E'). auto.
Qed.

(** X5: a commit of a dirty engine with a Draft that returns installs the
    Draft's current value as the Snapshot, drops the Draft, clears the
    dirty flag, advances the generation tag twice ([setSource] and
    [clearDraftCache]) and revokes every draft of the Draft's scope. *)
Theorem commit_installs_current_value w e en d :
  engines w !! e = Some en -> isDirty en = true -> draft en = Some d ->
  fst (commit e w) = Ok tt ->
  exists r en', materialize (S (length (drafts w))) (drafts w) d = Some r /\
    engines (snd (commit e w)) !! e = Some en' /\
    source en' = r /\ draft en' = None /\ isDirty en' = false /\
    draftCacheKey en' = S (S (draftCacheKey en)) /\ proxiedValue en' = proxiedValue en /\
    drafts (snd (commit e w)) = map (revoke_if d) (drafts w).
Proof.
  intros E Hd Hdr Hok.
  destruct (commit e w) as [o w'] eqn:C. cbn [fst snd] in *. subst o.
  unfold commit in C. binv C en1 w1 E1. apply get_engine_inv in E1 as [E1 ->].
  rewrite E in E1. injection E1 as <-. rewrite Hd, Hdr in C. cbn in C.
  binv C r w2 E2. unfold finishDraft in E2.
  binv E2 n w3 E3. apply live_draft_inv in E3 as (Hn & Hr & ->).
  binv E2 r' w4 E4. unfold current_value in E4.
  destruct (materialize (S (length (drafts w))) (drafts w) d) as [r0|] eqn:Hm; [|discriminate].
  injection E4 as <- <-.
  binv E2 pp w4 E4. unfold draft_patches in E4. injection E4 as <- <-.
  destruct (generate_patches (drafts w) d) as [ps ips]. cbn [fst snd] in E2.
  binv E2 u w5 E5. unfold revoke_scope in E5. injection E5 as _ <-.
  binv E2 u' w6 E6. destruct (notify_eq e ps ips _ _ _ E6) as (D6 & _ & _ & En6).
  apply ret_inv in E2 as [<- ->].
  binv C u1 w7 E7. unfold setSource, update_engine in E7. injection E7 as _ <-.
  binv C u2 w8 E8. unfold clearDraftCache, update_engine in E8. injection E8 as _ <-.
  unfold update_engine in C. injection C as <-.
  assert (E6' : exists en6, engines w6 !! e = Some en6 /\ source en6 = source en /\
             draft en6 = draft en /\ draftCacheKey en6 = draftCacheKey en /\
             proxiedValue en6 = proxiedValue en).
  { destruct En6 as [-> | (c & ->)]; [exists en; auto|].
    exists (with_calls c en). rewrite lookup_alter_eq. simpl. rewrite E. auto 10. }
  destruct E6' as (en6 & He6 & _ & _ & K6 & P6).
  exists r0, (with_dirty false (bump_key (with_source r0 en6))).
  split; [first [exact Hm | reflexivity]|]. split.
  { cbn [engines]. rewrite !lookup_alter_eq, He6. reflexivity. }
  cbn. rewrite K6, P6. rewrite D6. repeat split; reflexivity.
Qed.

(** X6: [state[STATE_SOURCE] = v] installs [v] as the Snapshot, drops the
    Draft without a listener call, keeps the dirty flag and the pending
    marker, and the next [.value] read reflects [v]. *)
Theorem set_state_source_resets w e en v :
  engines w !! e = Some en ->
  fst (set_state_source e v w) = Ok tt /\
  exists en', engines (snd (set_state_source e v w)) !! e = Some en' /\
    source en' = v /\ draft en' = None /\ proxiedValue en' = PInvalid /\
    draftCacheKey en' = S (draftCacheKey en) /\ isDirty en' = isDirty en /\
    pendingPromise en' = pendingPromise en /\
    log (snd (set_state_source e v w)) = log w /\
    fst (get_value e (snd (set_state_source e v w))) =
      Ok (if isObject v then HProxy (length (proxies w)) else HPlain v).
Proof.
  intros E. split; [reflexivity|].
  set (w' := snd (set_state_source e v w)).
  assert (E' : engines w' !! e = Some (with_source v (with_proxied PInvalid en))).
  { unfold w'. cbn -[alter]. rewrite !lookup_alter_eq, E. reflexivity. }
  eexists. split; [exact E'|]. repeat split.
  destruct (get_value_fresh w' e _ E' eq_refl) as [G _]. rewrite G. reflexivity.
Qed.

(** X7: [state.value = v] that returns installs [v] as the Snapshot, drops
    the Draft, clears the dirty flag, and the next [.value] read reflects
    [v]: the scalar itself, or a fresh root wrapper over [v]. *)
Theorem set_value_installs w e en v :
  engines w !! e = Some en -> fst (set_value e v w) = Ok tt ->
  exists en', engines (snd (set_value e v w)) !! e = Some en' /\
    source en' = v /\ draft en' = None /\ proxiedValue en' = PInvalid /\ isDirty en' = false /\
    draftCacheKey en' = S (draftCacheKey en) /\
    fst (get_value e (snd (set_value e v w))) =
      Ok (if isObject v then HProxy (length (proxies w)) else HPlain v).
Proof.
  intros E Hok. destruct (set_value e v w) as [o w'] eqn:C. cbn [fst snd] in *. subst o.
  unfold set_value in C. binv C u w1 E1. unfold update_engine in E1. injection E1 as _ <-.
  binv C en1 w2 E2. apply get_engine_inv in E2 as [E2 ->].
  cbn [engines] in E2. rewrite lookup_alter_eq, E in E2. injection E2 as <-.
  binv C r w3 E3. rewrite produce_setter in E3. binv E3 u' w4 E4.
  apply ret_inv in E3 as [<- ->].
  destruct (notify_eq e _ _ _ _ _ E4) as (_ & P4 & _ & En4).
  binv C u1 w5 E5. unfold setSource, update_engine in E5. injection E5 as _ <-.
  unfold update_engine in C. injection C as <-.
  set (w1 := mkWorld (alter (with_proxied PInvalid) e (engines w)) (drafts w) (proxies w)
                     (microtasks w) (log w)) in *.
  assert (E4' : exists en4, engines w4 !! e = Some en4 /\ proxiedValue en4 = PInvalid /\
             draftCacheKey en4 = draftCacheKey en).
  { destruct En4 as [-> | (c & ->)]; unfold w1; cbn [engines];
      rewrite !lookup_alter_eq, E; eexists; split; reflexivity || auto. }
  destruct E4' as (en4 & He4 & P4' & K4).
  set (w6 := mkWorld _ _ _ _ _).
  assert (E6 : engines w6 !! e = Some (with_dirty false (with_source v en4))).
  { unfold w6. cbn [engines]. rewrite !lookup_alter_eq, He4. reflexivity. }
  eexists. split; [exact E6|]. cbn. rewrite P4', K4. repeat split.
  destruct (get_value_fresh w6 e _ E6 P4') as [G _]. rewrite G.
  unfold w6. cbn [proxies]. rewrite P4. reflexivity.
Qed.

#[local] Instance draft_kept_preorder : PreOrder draft_kept.
Proof. split; [intros en H; exact H|intros a b c H1 H2 H; auto]. Qed.

#[local] Instance eng_rel_draft_kept_view x : ViewStable (eng_rel x draft_kept).
Proof.
  split.
  - apply eng_rel_preorder. apply draft_kept_preorder.
  - intros. apply eng_rel_same. apply draft_kept_preorder.
  - intros. apply eng_rel_alter; [apply draft_kept_preorder|right; intros ? _; discriminate].
  - intros. apply eng_rel_alter; [apply draft_kept_preorder|right; intros ? H; exact H].
Qed.

(** X8: with a synchronous scheduler, a write through a wrapper that
    completes has already been committed: if the engine had a Draft before
    the write, it is clean afterwards. *)
Theorem write_sync_commits w wo px en :
  proxies w !! write_target wo = Some px -> engines w !! px_engine px = Some en ->
  scheduler en = SyncScheduler -> fst (step (EvWrite wo) w) = Ok tt ->
  exists en', engines (snd (step (EvWrite wo) w)) !! px_engine px = Some en' /\
    (draft en <> None -> isDirty en' = false).
Proof.
  intros Hpx Hen Hs Hok. set (x := px_engine px) in *.
  destruct (run_write_in_shape x wo) as (pre & post & Hpre & Hpost & Heq).
  assert (Hstep : step (EvWrite wo) w =
            bind (bind pre (fun r => bind (dye x) (fun _ => post r))) (fun _ => ret tt) w).
  { simpl. unfold run_write. unfold bind at 1. unfold get_proxy. rewrite Hpx. simpl.
    apply bind_ext_l. exact Heq. }
  rewrite Hstep in *. clear Hstep.
  pose proof (Hpre (eng_rel x same_core) _ w) as Hrel.
  pose proof (Hpre (eng_rel x draft_kept) _ w) as Hkept.
  unfold bind in *. destruct (pre w) as [[r|err] w1] eqn:Ep; cbn [fst snd] in *; [|discriminate].
  destruct (Hrel en Hen) as (en1 & H1 & Hc1).
  destruct (Hkept en Hen) as (en1' & H1' & Hk1). rewrite H1 in H1'. injection H1' as <-.
  assert (Hs1 : scheduler en1 = SyncScheduler).
  { unfold same_core, core in Hc1. simplify_eq. congruence. }
  unfold dye in *. unfold bind at 1 in Hok. unfold bind at 1.
  unfold update_engine at 1 in Hok. unfold update_engine at 1.
  set (w2 := mkWorld (alter (with_dirty true) x (engines w1)) (drafts w1) (proxies w1)
                     (microtasks w1) (log w1)) in *.
  assert (E2 : engines w2 !! x = Some (with_dirty true en1))
    by (unfold w2; cbn [engines]; rewrite lookup_alter_eq, H1; reflexivity).
  unfold bind at 1 in Hok. unfold bind at 1. unfold get_engine at 1 in Hok. unfold get_engine at 1.
  rewrite E2 in *. cbn [scheduler with_dirty] in *. rewrite Hs1 in *.
  destruct (commit x w2) as [[[]|err] w3] eqn:C; cbn [fst snd] in *; [|discriminate].
  destruct (post r w3) as [[b|err] w4] eqn:Ps; cbn [fst snd] in *; [|discriminate].
  pose proof (Hpost r w3) as Hw. rewrite Ps in Hw. cbn [snd] in Hw. subst w4.
  destruct (draft en1) as [d|] eqn:Hd.
  - assert (Hcl := commit_ok_clean w2 x _ E2 ltac:(rewrite C; reflexivity)
                     ltac:(right; cbn; rewrite Hd; discriminate)).
    rewrite C in Hcl. unfold dirty_at in Hcl. cbn [snd] in Hcl.
    destruct (engines w3 !! x) as [en3|] eqn:E3; [|discriminate]. injection Hcl as Hcl.
    exists en3. auto.
  - rewrite (commit_noop x w2 _ E2 ltac:(right; cbn; exact Hd)) in C. injection C as <-.
    eexists. split; [exact E2|]. intros Hn. exfalso. exact (Hk1 Hn Hd).
Qed.

(** *** The deferred-commit queue *)

#[local] Instance same_pending_preorder : PreOrder same_pending.
Proof. unfold same_pending. split; [intros ?; reflexivity|intros ? ? ? ? ?; congruence]. Qed.

#[local] Instance queue_same_preorder : PreOrder queue_same.
Proof.
  split.
  - intros w. split; [reflexivity|intros x; reflexivity].
  - intros w1 w2 w3 [Q12 H12] [Q23 H23]. split; [congruence|].
    intros x. etrans; [apply H12|apply H23].
Qed.

Lemma queue_same_alter w e g :
  (forall en, pendingPromise (g en) = pendingPromise en) ->
  queue_same w (mkWorld (alter g e (engines w)) (drafts w) (proxies w) (microtasks w) (log w)).
Proof.
  intros Hg. split; [reflexivity|]. intros x. apply eng_rel_alter; [typeclasses eauto|].
  right. intros en. apply Hg.
Qed.

Lemma queue_same_keep w ds ps l :
  queue_same w (mkWorld (engines w) ds ps (microtasks w) l).
Proof. split; [reflexivity|]. intros x. apply eng_rel_same; typeclasses eauto. Qed.

#[local] Instance queue_same_view : ViewStable queue_same.
Proof.
  split.
  - apply queue_same_preorder.
  - intros. apply queue_same_keep.
  - intros. apply queue_same_alter. reflexivity.
  - intros. apply queue_same_alter. reflexivity.
Qed.

Ltac qtac := first [ apply queue_same_keep | apply queue_same_alter; reflexivity ].

Lemma q_notify e ps ips : pres queue_same (notify e ps ips).
Proof. unfold notify. pres_auto qtac. Qed.

Lemma q_finishDraft e d : pres queue_same (finishDraft e d).
Proof. unfold finishDraft. pres_auto qtac; apply q_notify. Qed.

Lemma q_commit e : pres queue_same (commit e).
Proof. unfold commit, setSource, clearDraftCache. pres_auto qtac; apply q_finishDraft. Qed.

Lemma q_set_value e v : pres queue_same (set_value e v).
Proof.
  unfold set_value, setSource. pres_auto qtac.
  unfold produce. pres_auto qtac; apply q_notify.
Qed.

Lemma q_set_state_source e v : pres queue_same (set_state_source e v).
Proof. unfold set_state_source, setSource. pres_auto qtac. Qed.

Lemma q_patchState e ps : pres queue_same (patchState e ps).
Proof. unfold patchState. pres_auto qtac; [apply q_commit|apply q_set_state_source]. Qed.

Lemma q_undou v l s : pres queue_same (undou v l s).
Proof. intros w. split; [reflexivity|]. intros x. apply eng_rel_app; typeclasses eauto. Qed.

Lemma q_forkState e l : pres queue_same (forkState e l).
Proof. unfold forkState. pres_auto qtac; [apply q_commit|apply q_undou]. Qed.

Lemma queue_ok_same w w' : queue_same w w' -> queue_ok w -> queue_ok w'.
Proof.
  intros [Q H] [N I]. unfold queue_ok. rewrite Q. split; [exact N|].
  intros e Hin. destruct (I e Hin) as (en & E & Hp).
  destruct (H e en E) as (en' & E' & Hp'). exists en'. split; [exact E'|].
  unfold same_pending in Hp'. congruence.
Qed.

Lemma queue_ok_pres {A} (m : M A) w :
  pres queue_same m -> queue_ok w -> queue_ok (snd (m w)).
Proof. intros Hm. apply queue_ok_same, Hm. Qed.

Lemma q_dye e w : queue_ok w -> queue_ok (snd (dye e w)).
Proof.
  intros Hq. unfold dye. rewrite (bind_ok _ _ _ _ _ (eq_refl : update_engine e (with_dirty true) w = _)).
  cbv beta.
  set (w1 := mkWorld (alter (with_dirty true) e (engines w)) _ _ _ _).
  assert (Hq1 : queue_ok w1) by (apply (queue_ok_same w); [apply queue_same_alter; reflexivity|exact Hq]).
  unfold bind at 1, get_engine. destruct (engines w1 !! e) as [en|] eqn:E1; [|exact Hq1].
  cbv beta iota. destruct (scheduler en).
  - destruct (pendingPromise en) eqn:Hp; [exact Hq1|].
    unfold bind, update_engine, enqueue. cbn [snd fst].
    destruct Hq1 as [N1 I1].
    assert (Hni : ~ In e (microtasks w1)).
    { intros Hin. destruct (I1 e Hin) as (en1 & E & Hp1). congruence. }
    split; cbn [microtasks].
    + apply NoDup_app. split; [exact N1|]. split; [|apply NoDup_singleton].
      intros y Hy ->%list_elem_of_singleton. apply Hni, list_elem_of_In, Hy.
    + intros y Hin. cbn [engines]. rewrite list_lookup_alter.
      destruct (decide (e = y)) as [<-|Hne].
      * rewrite E1. eexists. split; reflexivity.
      * apply in_app_or in Hin as [Hin|[<-|[]]]; [|congruence]. apply I1. exact Hin.
  - apply queue_ok_pres; [apply q_commit|exact Hq1].
Qed.

Lemma q_microtask w : queue_ok w -> queue_ok (snd (run_microtask w)).
Proof.
  intros [N I]. unfold run_microtask. destruct (microtasks w) as [|e rest] eqn:Hq.
  - cbn [snd]. split; rewrite Hq; [constructor|intros y []].
  - apply NoDup_cons in N as [Hni N].
    set (w0 := mkWorld (engines w) (drafts w) (proxies w) rest (log w)).
    assert (Hq0 : queue_ok w0).
    { split; [exact N|]. intros y Hin. apply I. right. exact Hin. }
    pose proof (q_commit e w0) as [Q1 _].
    pose proof (queue_ok_pres (commit e) w0 (q_commit e) Hq0) as Hq1.
    unfold bind. destruct (commit e w0) as [[u|x] w1]; cbn [fst snd] in *; [|exact Hq1].
    destruct Hq1 as [N1 I1]. unfold update_engine. split; cbn [microtasks]; [exact N1|].
    intros y Hin. cbn [snd engines]. rewrite list_lookup_alter_ne.
    + apply I1. exact Hin.
    + intros ->. apply Hni, list_elem_of_In. cbn [microtasks w0] in Q1. rewrite <- Q1. exact Hin.
Qed.

Lemma q_write_in e wo w : queue_ok w -> queue_ok (snd (run_write_in e wo w)).
Proof.
  intros Hq. destruct (run_write_in_shape e wo) as (pre & post & Hp & Hpost & Heq).
  rewrite Heq. unfold bind. pose proof (queue_ok_pres pre w (Hp queue_same _) Hq) as Hq1.
  destruct (pre w) as [[r|x] w1]; cbn [fst snd] in *; [|exact Hq1].
  pose proof (q_dye e w1 Hq1) as Hq2.
  destruct (dye e w1) as [[u|x] w2]; cbn [fst snd] in *; [|exact Hq2].
  rewrite Hpost. exact Hq2.
Qed.

Lemma q_step ev w : queue_ok w -> queue_ok (snd (step ev w)).
Proof.
  intros Hq. destruct ev as [v l s|r|wo|e v|e|e ps|e l|]; simpl.
  - apply (queue_ok_pres (let* _ := undou v l s in ret tt)); [|exact Hq].
    pres_auto qtac. apply q_undou.
  - apply queue_ok_pres; [apply run_read_pres; typeclasses eauto|exact Hq].
  - unfold run_write, bind at 1, get_proxy.
    destruct (proxies w !! write_target wo) as [px|]; cbn [fst snd]; [|exact Hq].
    unfold bind. pose proof (q_write_in (px_engine px) wo w Hq) as H.
    destruct (run_write_in (px_engine px) wo w) as [[]]; exact H.
  - apply queue_ok_pres; [apply q_set_value|exact Hq].
  - apply queue_ok_pres; [apply q_commit|exact Hq].
  - apply queue_ok_pres; [apply q_patchState|exact Hq].
  - apply (queue_ok_pres (let* _ := forkState e l in ret tt)); [|exact Hq].
    pres_auto qtac. apply q_forkState.
  - apply q_microtask. exact Hq.
Qed.

(** X9: under any sequence of events, every engine has at most one deferred
    commit in the microtask queue, and an engine with a queued commit has
    its [pendingPromise] set. *)
Theorem exec_queue_ok evs w : queue_ok w -> queue_ok (exec evs w).
Proof.
  revert w. induction evs as [|ev evs IH]; intros w Hq; simpl; [exact Hq|].
  apply IH, q_step, Hq.
Qed.

End Engine.

(** *** Witnesses *)




Lemma commit_idempotent_witness :
  commit 0 (snd (commit 0 (dirty_world never_throws))) =
    (Ok tt, snd (commit 0 (dirty_world never_throws))).
Proof. apply commit_idempotent. vm_compute. reflexivity. Defined.

Lemma commit_installs_current_value_witness :
  exists r en',
    materialize (S (length (drafts (dirty_world never_throws)))) (drafts (dirty_world never_throws)) 0
      = Some r /\
    engines (snd (commit 0 (dirty_world never_throws))) !! 0 = Some en' /\
    source en' = r /\ draft en' = None /\ isDirty en' = false /\
    draftCacheKey en' = 2 /\ proxiedValue en' = PProxy 0 /\
    drafts (snd (commit 0 (dirty_world never_throws))) =
      map (revoke_if 0) (drafts (dirty_world never_throws)).
Proof.
  apply (commit_installs_current_value (dirty_world never_throws) 0
           (mkEngine foo_bar (PProxy 0) (Some 0) 0 true true (Some never_throws) DefaultScheduler 0)
           0); vm_compute; reflexivity.
Defined.

Lemma set_state_source_resets_witness :
  fst (set_state_source 0 foo_x read_world) = Ok tt /\
  exists en', engines (snd (set_state_source 0 foo_x read_world)) !! 0 = Some en' /\
    source en' = foo_x /\ draft en' = None /\ proxiedValue en' = PInvalid /\
    draftCacheKey en' = 1 /\ isDirty en' = false /\ pendingPromise en' = false /\
    log (snd (set_state_source 0 foo_x read_world)) = log read_world /\
    fst (get_value 0 (snd (set_state_source 0 foo_x read_world))) = Ok (HProxy 1).
Proof.
  apply (set_state_source_resets read_world 0
           (mkEngine foo_bar (PProxy 0) (Some 0) 0 false false None DefaultScheduler 0) foo_x).
  vm_compute. reflexivity.
Defined.

Lemma set_value_installs_witness :
  exists en', engines (snd (set_value 0 foo_x (dirty_world never_throws))) !! 0 = Some en' /\
    source en' = foo_x /\ draft en' = None /\ proxiedValue en' = PInvalid /\
    isDirty en' = false /\ draftCacheKey en' = 1 /\
    fst (get_value 0 (snd (set_value 0 foo_x (dirty_world never_throws)))) = Ok (HProxy 1).
Proof.
  apply (set_value_installs (dirty_world never_throws) 0
           (mkEngine foo_bar (PProxy 0) (Some 0) 0 true true (Some never_throws) DefaultScheduler 0)
           foo_x); vm_compute; reflexivity.
Defined.

Lemma write_sync_commits_witness :
  exists en', engines (snd (step (EvWrite (WSet 0 (KStr "foo") (HPlain (VStr "qux")))) sync_world))
                !! 0 = Some en' /\
    (draft (mkEngine foo_bar (PProxy 0) (Some 0) 0 false false None SyncScheduler 0) <> None ->
     isDirty en' = false).
Proof.
  apply (write_sync_commits sync_world (WSet 0 (KStr "foo") (HPlain (VStr "qux")))
           (mkProxy 0 [] (RootAccess 0))
           (mkEngine foo_bar (PProxy 0) (Some 0) 0 false false None SyncScheduler 0));
    vm_compute; reflexivity.
Defined.

Lemma exec_queue_ok_witness :
  queue_ok w_empty /\ queue_ok (exec lost_commit_events w_empty).
Proof.
  assert (H : queue_ok w_empty) by (split; [constructor|intros e []]).
  split; [exact H|]. exact (exec_queue_ok lost_commit_events w_empty H).
Defined.

End Extras.

(* ------------------------------------------------------------------ *)
(** ** Properties of the Vue store *)

Module StoreExtras.
Import Scenarios SpywareStore.

Section Thms.

(** X12: a batch whose patches all have the empty path (a root replacement)
    reaches only the global subscribers, in registration order; no
    [subscribePath] callback and no [$ref] trigger runs. *)
Theorem store_root_patches_global_only globals subs lsts ps ips :
  Forall (fun p => path p = []) ps ->
  store_listener globals subs lsts ps ips = map (fun fn => CallGlobal fn ps ips) globals.
Proof.
  intros Hr. unfold store_listener. rewrite walk_patches_roots by exact Hr.
  simpl. apply app_nil_r.
Qed.

(** X13: subscribing a callback not yet registered at a path and then calling
    the returned unsubscribe gives back the registrations of every path. *)
Theorem subscribe_path_roundtrip r p fn q :
  reg_ok r -> ~ In fn (reg_lookup r p) ->
  reg_lookup (let '(sid, r1) := subscribe_path p fn r in unsubscribe_path p sid fn r1) q =
  reg_lookup r q.
Proof.
  intros Hok Hni. pose proof (subscribe_shape r p fn Hok) as Sh.
  destruct (subscribe_path p fn r) as [sid r1].
  destruct Sh as (Ok1 & Gp & Ss & Len & Oth & Keep & New).
  destruct (unsubscribe_shape r1 p sid fn Ok1) as (_ & _ & Sets2 & Map2).
  set (r2 := unsubscribe_path p sid fn r1) in *.
  assert (S2 : reg_sets r2 !! sid = Some (reg_lookup r p)).
  { rewrite Sets2, list_lookup_alter, Ss. simpl. rewrite decide_True by reflexivity.
    rewrite set_delete_add by exact Hni. reflexivity. }
  rewrite S2 in Map2. cbn [default from_option id] in Map2.
  destruct (String.eqb_spec p q) as [<-|Hne].
  - specialize (Map2 p). rewrite String.eqb_refl, andb_true_r in Map2.
    destruct (Nat.eqb_spec (length (reg_lookup r p)) 0) as [Hz|Hz].
    + apply reg_lookup_none in Map2. rewrite Map2. symmetry. apply length_zero_iff_nil, Hz.
    + rewrite Gp in Map2. rewrite (reg_lookup_sets r2 p sid Map2), S2. reflexivity.
  - specialize (Map2 q). destruct (String.eqb_spec p q); [congruence|]. rewrite andb_false_r in Map2.
    rewrite Oth in Map2 by congruence.
    destruct (map_get (reg_map r) q) as [sid'|] eqn:Gq.
    + rewrite (reg_lookup_sets r2 q sid' Map2), (reg_lookup_sets r q sid' Gq).
      assert (Hs : sid' <> sid).
      { intros ->. destruct Ok1 as (_ & _ & Hi1). apply Hne.
        apply (Hi1 p q sid Gp). rewrite Oth by congruence. exact Gq. }
      rewrite Sets2, list_lookup_alter_ne by congruence.
      rewrite Keep; [reflexivity|exact Hs|]. destruct Hok as (_ & Hv & _). eapply Hv, Gq.
    + rewrite (reg_lookup_none r2 q Map2), (reg_lookup_none r q Gq). reflexivity.
Qed.

(** X14: an unsubscribe closure called a second time, after its path was
    emptied and a new callback subscribed there, drops that new callback:
    it deletes the path's entry although its own [Set] is no longer the
    one registered. *)
Theorem unsubscribe_twice_drops_other r p f g :
  reg_ok r -> reg_lookup r p = [] ->
  let '(s1, r1) := subscribe_path p f r in
  let '(s2, r3) := subscribe_path p g (unsubscribe_path p s1 f r1) in
  reg_lookup r3 p = [g] /\ reg_lookup (unsubscribe_path p s1 f r3) p = [].
Proof.
  intros Hok Hnil. pose proof (subscribe_shape r p f Hok) as Sh.
  destruct (subscribe_path p f r) as [s1 r1].
  destruct Sh as (Ok1 & Gp & Ss & Len & Oth & Keep & New).
  rewrite Hnil in Ss. cbn in Ss.
  destruct (unsubscribe_shape r1 p s1 f Ok1) as (Ok2 & Len2 & Sets2 & Map2).
  set (r2 := unsubscribe_path p s1 f r1) in *.
  assert (S2 : reg_sets r2 !! s1 = Some []).
  { rewrite Sets2, list_lookup_alter, Ss. simpl. rewrite decide_True by reflexivity.
    unfold set_delete. simpl. rewrite Nat.eqb_refl. reflexivity. }
  rewrite S2 in Map2. cbn [default from_option id length Nat.eqb andb] in Map2.
  assert (G2 : map_get (reg_map r2) p = None) by (rewrite Map2, String.eqb_refl; reflexivity).
  assert (Hlt : s1 < length (reg_sets r1)) by (destruct Ok1 as (_ & Hv & _); eapply Hv, Gp).
  pose proof (subscribe_shape r2 p g Ok2) as Sh3.
  destruct (subscribe_path p g r2) as [s2 r3].
  destruct Sh3 as (Ok3 & Gp3 & Ss3 & Len3 & Oth3 & Keep3 & New3).
  specialize (New3 G2). rewrite (reg_lookup_none r2 p G2) in Ss3.
  split.
  - rewrite (reg_lookup_sets r3 p s2 Gp3), Ss3. reflexivity.
  - assert (S3 : reg_sets r3 !! s1 = Some []).
    { rewrite Keep3; [exact S2|lia|lia]. }
    destruct (unsubscribe_shape r3 p s1 f Ok3) as (_ & _ & Sets4 & Map4).
    rewrite Sets4, list_lookup_alter, S3 in Map4. simpl in Map4.
    rewrite decide_True in Map4 by reflexivity. cbn in Map4.
    apply reg_lookup_none. rewrite Map4, String.eqb_refl. reflexivity.
Qed.

End Thms.

Section Compose.
Context `{PP : PatchPrimitive}.

(** X15: composition with the engine: [state.value = v] on the store's engine
    hands the store's listener one batch, which reaches the global
    subscribers only; no [subscribePath] callback and no [$ref] trigger
    runs, whatever changed below the root. *)
Theorem set_value_store_globals_only w e en l v globals subs lsts :
  engines w !! e = Some en -> patchListener en = Some l ->
  exists ps ips, log (snd (set_value e v w)) = app (log w) [(e, ps, ips)] /\
    store_listener globals subs lsts ps ips = map (fun fn => CallGlobal fn ps ips) globals.
Proof.
  intros E Hl. eexists _, _. split; [exact (Facts.set_value_log e v w en l E Hl)|].
  unfold store_listener. rewrite walk_patches_roots by repeat constructor.
  simpl. apply app_nil_r.
Qed.

End Compose.

(** *** Witnesses *)

Lemma store_registry_one : reg_ok (snd (subscribe_path "foo" 1 empty_registry)).
Proof.
  change (snd (subscribe_path "foo" 1 empty_registry)) with (mkRegistry [("foo", 0)] [[1]]).
  split; [|split]; cbn [reg_map reg_sets map fst].
  - apply NoDup_singleton.
  - intros q sid H. cbn [map_get] in H.
    destruct (String.eqb "foo" q); [injection H as <-; simpl; lia|discriminate].
  - intros q1 q2 sid H1 H2. cbn [map_get] in *.
    destruct (String.eqb_spec "foo" q1), (String.eqb_spec "foo" q2); congruence.
Defined.

Lemma store_registry_empty : reg_ok empty_registry.
Proof. split; [constructor|split; intros; discriminate]. Defined.

Lemma store_root_patches_global_only_witness :
  store_listener [1; 2] (snd (subscribe_path "foo" 3 empty_registry)) empty_registry
    [mkPatch OpReplace [] (Some foo_x)] [mkPatch OpReplace [] (Some foo_bar)] =
  [CallGlobal 1 [mkPatch OpReplace [] (Some foo_x)] [mkPatch OpReplace [] (Some foo_bar)];
   CallGlobal 2 [mkPatch OpReplace [] (Some foo_x)] [mkPatch OpReplace [] (Some foo_bar)]].
Proof. apply store_root_patches_global_only. repeat constructor. Defined.

Lemma subscribe_path_roundtrip_witness :
  reg_lookup (let '(sid, r1) := subscribe_path "foo" 2 (snd (subscribe_path "foo" 1 empty_registry))
              in unsubscribe_path "foo" sid 2 r1) "foo" = [1].
Proof.
  apply (subscribe_path_roundtrip (snd (subscribe_path "foo" 1 empty_registry)) "foo" 2 "foo").
  - exact store_registry_one.
  - simpl. intuition discriminate.
Defined.

Lemma unsubscribe_twice_drops_other_witness :
  let '(s1, r1) := subscribe_path "foo" 1 empty_registry in
  let '(s2, r3) := subscribe_path "foo" 2 (unsubscribe_path "foo" s1 1 r1) in
  reg_lookup r3 "foo" = [2] /\ reg_lookup (unsubscribe_path "foo" s1 1 r3) "foo" = [].
Proof.
  apply (unsubscribe_twice_drops_other empty_registry "foo" 1 2).
  - exact store_registry_empty.
  - reflexivity.
Defined.

Lemma set_value_store_globals_only_witness :
  exists ps ips,
    log (snd (set_value 0 foo_x (dirty_world never_throws))) =
      app (log (dirty_world never_throws)) [(0, ps, ips)] /\
    store_listener [1] (snd (subscribe_path "foo" 2 empty_registry)) empty_registry ps ips =
      map (fun fn => CallGlobal fn ps ips) [1].
Proof.
  apply (set_value_store_globals_only (dirty_world never_throws) 0
           (mkEngine foo_bar (PProxy 0) (Some 0) 0 true true (Some never_throws) DefaultScheduler 0)
           never_throws foo_x); vm_compute; reflexivity.
Defined.

End StoreExtras.
